(** * behavior-tree-js: the tick semantics of the nodes and the fluent builder

    A shallow embedding of [bundle.js] (and of the module sources it is built
    from) as a store of node objects plus explicit state passing.

    JavaScript objects are heap cells: a node is addressed by a reference
    ([addr]), a parent holds the references of its children, and every
    mutation ([addChild], the enumerator's cursor) is a write to the store.
    Every [tick] is an [async] function. A call of one returns a promise,
    modelled with the microtask jobs that are still to run for it
    ([Promise]); an [await] ends the running job and queues the rest of the
    function as a job of its own. Under a ParallelNode the jobs of the
    children take turns in the order of the queue ([together]). Where one
    call is awaited at a time, as by the caller of the root and inside the
    sequential composites, the jobs run one after the other, and [run]
    gives the outcome in direct style. An [await] on a call that never
    settles is the [OutOfFuel] outcome of the fuel-indexed interpreters. *)

From Stdlib Require Import ZArith String List Lia Bool.
From stdpp Require Import base option list strings.

Open Scope Z_scope.
Open Scope string_scope.
Open Scope list_scope.

(** ** BehaviorTreeStatus, Errors, BehaviorTreeError *)

Inductive BehaviorTreeStatus := Success | Failure | Running.

#[global] Instance BehaviorTreeStatus_eq_dec : EqDecision BehaviorTreeStatus.
Proof. solve_decision. Defined.

Module Errors.
Definition NO_NODES := "Cannot create a behavior tree with zero nodes.".
Definition SPLICE_UNNESTED_TREE :=
  "Cannot splice an unnested sub-tree. There must be a parent-tree.".
Definition INVERTER_NO_CHILDREN := "InverterNode must have a child node!".
Definition INVERTER_MULTIPLE_CHILDREN :=
  "Can't add more than a single child to InverterNode!".
Definition UNNESTED_ACTION_NODE :=
  "Can't create an unnested ActionNode. It must be a leaf node.".
Definition NO_RETURN_VALUE := "Node must return a BehaviorTreeStatus".
End Errors.

(** What a [throw] carries: the library's own [BehaviorTreeError], the
    [TypeError] the JavaScript runtime raises on [undefined.m(...)], or
    whatever a user callable throws. *)
Inductive Thrown :=
| BehaviorTreeError (message : string)
| TypeError
| UserError (what : string).

(** How a call completes. *)
Inductive Completion (A : Type) :=
| Returns (a : A)
| Throws (e : Thrown)
| OutOfFuel.
Arguments Returns {A} a.
Arguments Throws {A} e.
Arguments OutOfFuel {A}.

(** ** The monad of calls: a store [W] threaded through, with exceptions *)

Definition M (W A : Type) := W -> Completion A * W.

Definition ret {W A} (a : A) : M W A := fun w => (Returns a, w).
Definition throw {W A} (e : Thrown) : M W A := fun w => (Throws e, w).
Definition diverge {W A} : M W A := fun w => (OutOfFuel, w).

Definition bind {W A B} (m : M W A) (k : A -> M W B) : M W B :=
  fun w =>
    match m w with
    | (Returns a, w') => k a w'
    | (Throws e, w') => (Throws e, w')
    | (OutOfFuel, w') => (OutOfFuel, w')
    end.

Notation "'let*' x ':=' m 'in' k" := (bind m (fun x => k))
  (at level 10, x name, m at level 100, k at level 200).
Notation "m >> k" := (bind m (fun _ => k))
  (at level 100, k at level 200, right associativity).

(** [Promise.all(xs.map(f))] with every call started in array order. *)
Fixpoint mapM {W A B} (f : A -> M W B) (xs : list A) : M W (list B) :=
  match xs with
  | [] => ret []
  | x :: xs' => let* y := f x in let* ys := mapM f xs' in ret (y :: ys)
  end.

(** A reference to a node object. *)
Abbreviation addr := nat (only parsing).

(** ** Stack.js (with its [Node] cell) *)

Module Stack.
#[warnings="-register-all"]
Inductive Node (T : Type) := new_Node (data : T) (previous : option (Node T)).
Arguments new_Node {T} data previous.

Definition data {T} (n : Node T) : T := let 'new_Node d _ := n in d.
Definition previous {T} (n : Node T) : option (Node T) :=
  let 'new_Node _ p := n in p.

Record Stack (T : Type) := { _topNode : option (Node T); _count : Z }.
Arguments _topNode {T} s.
Arguments _count {T} s.

Definition new {T} : Stack T := {| _topNode := None; _count := 0 |}.

Definition count {T} (s : Stack T) : Z := _count s.

Definition isEmpty {T} (s : Stack T) : bool :=
  match _topNode s with None => true | Some _ => false end.

Definition push {T} (value : T) (s : Stack T) : Stack T :=
  {| _topNode := Some (new_Node value (_topNode s)); _count := _count s + 1 |}.

(** [poppedNode.previous] on an empty stack is a [TypeError]. *)
Definition pop {T} (s : Stack T) : Thrown + (T * Stack T) :=
  match _topNode s with
  | None => inl TypeError
  | Some poppedNode =>
      inr (data poppedNode,
           {| _topNode := previous poppedNode; _count := _count s - 1 |})
  end.

Definition peek {T} (s : Stack T) : Thrown + T :=
  match _topNode s with
  | None => inl TypeError
  | Some n => inr (data n)
  end.

(** The values held by a chain of cells, the top one first. *)
Fixpoint node_items {T} (n : Node T) : list T :=
  match n with
  | new_Node d p =>
      d :: match p with Some n' => node_items n' | None => [] end
  end.

Definition items {T} (s : Stack T) : list T :=
  match _topNode s with Some n => node_items n | None => [] end.

(** [_count] tells how many cells the chain has. *)
Definition counted {T} (s : Stack T) : Prop :=
  _count s = Z.of_nat (length (items s)).
End Stack.

Section Model.

(** The user's data carried by [StateData.state]; the engine never looks
    inside. *)
Context {Payload : Type}.

(** ** StateData

    [deltaTime] is a JavaScript number that no code of the engine computes
    with; it is carried as an integer. *)
Record StateData := { deltaTime : Z; state : Payload }.

(** ** User callables

    [fn(state)] may mutate [state], and either returns a status (the type
    [(state: StateData) => BehaviorTreeStatus] of the sources), returns
    nothing usable ([None]: [undefined] or another falsy value) or throws. *)
Inductive FnResult :=
| FnReturn (result : option BehaviorTreeStatus)
| FnThrow (e : Thrown).

Definition Callable := StateData -> FnResult * StateData.

(** The test handed to [condition]: it answers true or false (any value,
    taken by its truthiness), or throws. *)
Definition Test := StateData -> (Thrown + bool) * StateData.

(** What the field [fn] of an ActionNode holds: a callable of the user, or
    the [async] arrow function that [condition] wraps around a test. *)
Inductive Fn :=
| Sync (fn : Callable)
| Condition (test : Test).

(** ** Node objects *)

(** [NodeEnumerator.nodes] is the very array [this.children] of the node
    that created the enumerator ([init] passes the reference and [addChild]
    pushes onto that same array), so only the cursor is stored. *)
Record NodeEnumerator := { currentIndex : nat }.

(** The fields shared by SelectorNode, RepeatNode, UntilFailNode and
    SequenceNode. *)
Record Composite := {
  name : string;
  keepState : bool;
  children : list addr;
  enumerator : option NodeEnumerator
}.

Inductive NodeObj :=
| ActionNode (name : string) (fn : Fn)
| InverterNode (name : string) (childNode : option addr)
| ParallelNode (name : string) (requiredToFail requiredToSucceed : Z)
               (children : list addr)
| SelectorNode (c : Composite)
| RepeatNode (c : Composite)
| UntilFailNode (c : Composite)
| SequenceNode (c : Composite).

(** ** The store *)

Record World := { heap : list NodeObj; sd : StateData }.

Definition Call := M World.

(** [new C(...)]: a fresh cell at the end of the store. *)
Definition alloc (obj : NodeObj) : Call addr :=
  fun w => (Returns (length (heap w)),
            {| heap := heap w ++ [obj]; sd := sd w |}).

(** Reading through a reference. A reference that leads to no node stands
    for a value that is not a node: calling a method on it is a
    [TypeError]. *)
Definition deref (a : addr) : Call NodeObj :=
  fun w => match heap w !! a with
           | Some obj => (Returns obj, w)
           | None => (Throws TypeError, w)
           end.

Definition store (a : addr) (obj : NodeObj) : Call unit :=
  fun w => (Returns tt, {| heap := <[a := obj]> (heap w); sd := sd w |}).

(** The shared fields of a sequential composite, and the same object with
    its fields replaced. *)
Definition fields (obj : NodeObj) : option Composite :=
  match obj with
  | SelectorNode c | RepeatNode c | UntilFailNode c | SequenceNode c => Some c
  | _ => None
  end.

Definition with_fields (obj : NodeObj) (c : Composite) : NodeObj :=
  match obj with
  | SelectorNode _ => SelectorNode c
  | RepeatNode _ => RepeatNode c
  | UntilFailNode _ => UntilFailNode c
  | SequenceNode _ => SequenceNode c
  | other => other
  end.

Definition get_fields (this : addr) : Call Composite :=
  let* obj := deref this in
  match fields obj with
  | Some c => ret c
  | None => throw TypeError
  end.

(** [this.enumerator = e] *)
Definition set_enumerator (this : addr) (e : option NodeEnumerator) : Call unit :=
  let* obj := deref this in
  let* c := get_fields this in
  store this (with_fields obj
    {| name := name c; keepState := keepState c; children := children c;
       enumerator := e |}).

(** ** NodeEnumerator, as used through [this.enumerator] *)

(** [this.enumerator], which must be there to call a method on it. *)
Definition get_enumerator (this : addr) : Call NodeEnumerator :=
  let* c := get_fields this in
  match enumerator c with
  | Some e => ret e
  | None => throw TypeError
  end.

(** [init() { this.enumerator = new NodeEnumerator(this.children) }] *)
Definition init (this : addr) : Call unit :=
  set_enumerator this (Some {| currentIndex := 0 |}).

(** [get current() { return this.nodes[this.currentIndex] }] *)
Definition current (this : addr) : Call (option addr) :=
  let* c := get_fields this in
  let* e := get_enumerator this in
  ret (children c !! currentIndex e).

(** [hasNext() { return !!this.nodes[this.currentIndex + 1] }] *)
Definition hasNext (this : addr) : Call bool :=
  let* c := get_fields this in
  let* e := get_enumerator this in
  ret (bool_decide (is_Some (children c !! (currentIndex e + 1)%nat))).

(** [next() { if (this.hasNext()) { this.currentIndex++; return true }
             return false }] *)
Definition next (this : addr) : Call bool :=
  let* more := hasNext this in
  if more then
    let* e := get_enumerator this in
    set_enumerator this (Some {| currentIndex := (currentIndex e + 1)%nat |}) >>
    ret true
  else ret false.

(** [reset() { this.currentIndex = 0 }] *)
Definition reset (this : addr) : Call unit :=
  let* _e := get_enumerator this in
  set_enumerator this (Some {| currentIndex := 0 |}).

(** What the [next] of the iterator answers: [{ value, done: false }] or
    [{ done: true }]. *)
Inductive IteratorResult := Yield (value : option addr) | Done.

(** [[Symbol.iterator]() { return { next: () => { ... } } }] *)
Definition iterator_next (this : addr) : Call IteratorResult :=
  let* c := get_fields this in
  let* e := get_enumerator this in
  if bool_decide (currentIndex e < length (children c))%nat then
    let* value := current this in
    next this >>
    ret (Yield value)
  else ret Done.

(** ** ActionNode *)

(** [await this.fn(state)]: the callable runs on the shared [StateData]. *)
Definition invoke (fn : Callable) : Call (option BehaviorTreeStatus) :=
  fun w =>
    match fn (sd w) with
    | (FnReturn result, s) => (Returns result, {| heap := heap w; sd := s |})
    | (FnThrow e, s) => (Throws e, {| heap := heap w; sd := s |})
    end.

(** [fn(t)] for the test of a condition. *)
Definition invoke_test (test : Test) : Call bool :=
  fun w =>
    match test (sd w) with
    | (inr b, s) => (Returns b, {| heap := heap w; sd := s |})
    | (inl e, s) => (Throws e, {| heap := heap w; sd := s |})
    end.

(** What [fn] has done and answered once it was called and awaited:
    [async (t) => await fn(t) ? Success : Failure] for a condition. *)
Definition callable (fn : Fn) : Callable :=
  match fn with
  | Sync fn => fn
  | Condition test =>
      fun t => match test t with
               | (inr true, t') => (FnReturn (Some Success), t')
               | (inr false, t') => (FnReturn (Some Failure), t')
               | (inl e, t') => (FnThrow e, t')
               end
  end.

Definition ActionNode_tick (fn : Callable) : Call BehaviorTreeStatus :=
  let* result := invoke fn in
  match result with
  | None => throw (BehaviorTreeError Errors.NO_RETURN_VALUE)
  | Some status => ret status
  end.

(** ** ParallelNode: the count of the votes *)

(** The count of the votes, once every child has settled. The thresholds
    are JavaScript numbers compared with [>] and [>=], carried as
    integers. *)
Definition ParallelNode_verdict (requiredToFail requiredToSucceed : Z)
    (statuses : list BehaviorTreeStatus) : BehaviorTreeStatus :=
  let succeeded := Z.of_nat (length (filter (fun x => x = Success) statuses)) in
  let failed := Z.of_nat (length (filter (fun x => x = Failure) statuses)) in
  if bool_decide (requiredToSucceed > 0) && bool_decide (succeeded >= requiredToSucceed)
  then Success
  else if bool_decide (requiredToFail > 0) && bool_decide (failed >= requiredToFail)
  then Failure
  else Running.

(** ** The sequential composites: the first lines of [tick] *)

(** [if (!this.enumerator || !this.keepState) { this.init() }] *)
Definition init_unless_kept (this : addr) : Call unit :=
  let* c := get_fields this in
  if negb (bool_decide (is_Some (enumerator c))) || negb (keepState c)
  then init this
  else ret tt.

(** ** Promises and the microtask queue

    A promise is held together with the jobs that are still to run for it:
    it is settled, or the chain of calls behind it has a job in the queue.
    A job runs on the store to its next [await] or to its end, and leaves
    the promise settled or pending with the next job. The queue is first
    in, first out, and a job queues what follows it while it runs: so the
    jobs proceed in rounds, each pending chain running one job per round,
    the chains in the order in which they were started. [await] is the one
    of ECMAScript 2019 and later, where a continuation runs one job after
    the promise it waits for has settled, and at once in the next round
    when that promise is settled already. *)
#[warnings="-register-all"]
Inductive Promise (A : Type) : Type :=
| Settled (r : Completion A)
| Pending (job : World -> Promise A * World).
Arguments Settled {A} r.
Arguments Pending {A} job.

(** An [async] function under way: it runs on the store up to its next
    [await] and tells what is left of it. *)
Definition Async (A : Type) := World -> Promise A * World.

(** The event loop, run until the promise is settled, when nothing else is
    in the queue: an [await] at the top level. *)
Fixpoint drain {A} (p : Promise A) (w : World) : Completion A * World :=
  match p with
  | Settled r => (r, w)
  | Pending job => let (p', w') := job w in drain p' w'
  end.

(** [await p] followed by [k]: the jobs behind [p] run first, and what
    follows the [await] is a job of the round after the one in which [p]
    settles. [k] takes the value of [p] or the error thrown at the
    [await]. *)
Fixpoint await {A B} (p : Promise A) (k : Completion A -> Async B) : Promise B :=
  match p with
  | Settled OutOfFuel => Settled OutOfFuel
  | Settled r => Pending (k r)
  | Pending job => Pending (fun w => let (p', w') := job w in (await p' k, w'))
  end.

(** The rest of the function has no [await]: its promise is settled as the
    code returns or throws. *)
Definition finished {A} (m : Call A) : Async A :=
  fun w => let (r, w') := m w in (Settled r, w').

(** Code without [await] followed by [k]; what it throws rejects the
    promise of the function there and then. *)
Definition sync {A B} (m : Call A) (k : A -> Async B) : Async B :=
  fun w =>
    match m w with
    | (Returns a, w') => k a w'
    | (Throws e, w') => (Settled (Throws e), w')
    | (OutOfFuel, w') => (Settled OutOfFuel, w')
    end.

(** [try { x = await m(...); ... } catch (e) { ... }]: [k] takes the value
    awaited, or the error, be it thrown by the call itself or at the
    [await]. *)
Definition try_awaiting {A B} (m : Call (Promise A)) (k : Completion A -> Async B)
    : Async B :=
  fun w =>
    match m w with
    | (Returns p, w') => (await p k, w')
    | (Throws e, w') => k (Throws e) w'
    | (OutOfFuel, w') => (Settled OutOfFuel, w')
    end.

(** Outside a [try], an error goes on to the promise of the function. *)
Definition rethrow {A B} (k : A -> Async B) (r : Completion A) : Async B :=
  match r with
  | Returns a => k a
  | Throws e => finished (throw e)
  | OutOfFuel => finished diverge
  end.

(** [x = await m(...)] followed by [k x]. *)
Definition awaiting {A B} (m : Call (Promise A)) (k : A -> Async B) : Async B :=
  try_awaiting m (rethrow k).

(** A call of an [async] function: the body runs to its first [await] and
    the caller gets the promise; the call itself never throws. *)
Definition async {A} (body : Async A) : Call (Promise A) :=
  fun w => let (p, w') := body w in (Returns p, w').

(** The function goes on, in the same job, as the code [m] whose promise
    stands for its own. *)
Definition proceed {A} (m : Call (Promise A)) : Async A :=
  sync m (fun p w => (p, w)).

(** A call awaited with nothing else in the queue. *)
Definition finish {A} (m : Call (Promise A)) : Call A :=
  let* p := m in drain p.

Notation "'sync*' x ':=' m 'in' k" := (sync m (fun x => k))
  (at level 10, x name, m at level 100, k at level 200).
Notation "'await*' x ':=' m 'in' k" := (awaiting m (fun x => k))
  (at level 10, x name, m at level 100, k at level 200).

(** One more outcome in front of those collected so far. *)
Definition collect {A} (r : Completion A) (rs : Completion (list (Completion A)))
    : Completion (list (Completion A)) :=
  match rs with
  | Returns outcomes => Returns (r :: outcomes)
  | Throws e => Throws e
  | OutOfFuel => OutOfFuel
  end.

(** Two pending chains side by side: in each round the job of the first
    runs, then the job of the second. The outcomes are collected in the
    order of the chains, whenever each has settled. *)
Fixpoint both {A} (p : Promise A)
    : Promise (list (Completion A)) -> Promise (list (Completion A)) :=
  match p with
  | Settled OutOfFuel => fun _ => Settled OutOfFuel
  | Settled r =>
      fix held (q : Promise (list (Completion A))) : Promise (list (Completion A)) :=
        match q with
        | Settled rs => Settled (collect r rs)
        | Pending job => Pending (fun w => let (q', w') := job w in (held q', w'))
        end
  | Pending job1 => fun q =>
      match q with
      | Settled OutOfFuel => Settled OutOfFuel
      | Settled rs =>
          Pending (fun w => let (p', w') := job1 w in (both p' (Settled rs), w'))
      | Pending job2 =>
          Pending (fun w =>
                     let (p', w1) := job1 w in
                     match p' with
                     | Settled OutOfFuel => (Settled OutOfFuel, w1)
                     | _ => let (q', w2) := job2 w1 in (both p' q', w2)
                     end)
      end
  end.

(** The promises of calls that were started one after the other: their
    jobs take turns, round after round, until the last one has settled. *)
Definition together {A} (promises : list (Promise A))
    : Promise (list (Completion A)) :=
  foldr both (Settled (Returns [])) promises.

(** The values of promises that were all fulfilled; else the error of a
    rejected one. *)
Fixpoint fulfilled {A} (outcomes : list (Completion A)) : Call (list A) :=
  match outcomes with
  | [] => ret []
  | Returns a :: rest => let* values := fulfilled rest in ret (a :: values)
  | Throws e :: _ => throw e
  | OutOfFuel :: _ => diverge
  end.

(** [Promise.all(promises)]: settled at once with [[]] for no promise;
    else each promise is given a reaction, a job of the round after the
    one in which it settles, and the reaction of the last one to settle
    fulfils the result with the values. (A rejection would reject the
    result while the other promises are still pending; no promise of
    [tickChildren] is ever rejected.) *)
Definition Promise_all {A} (promises : list (Promise A)) : Promise (list A) :=
  match promises with
  | [] => Settled (Returns [])
  | _ => await (together promises) (rethrow (fun outcomes => finished (fulfilled outcomes)))
  end.

(** ** Dynamic dispatch *)

(** The two entry points of the recursion: a call of [tick] on a node, and
    one more round of the loop inside the [tick] of a sequential
    composite. *)
Inductive Entry := Tick (this : addr) | DoWhile (this : addr).

(** ** The [async] methods, job by job *)

Section AsyncMethods.

(** [child.tick(state)], which throws if [child] is no node and returns a
    promise otherwise, and the next round of the [do ... while] loop of the
    node [this], run in the job that reaches it. *)
Variable tick : addr -> Call (Promise BehaviorTreeStatus).
Variable loop : addr -> Call (Promise BehaviorTreeStatus).

(** [this.fn(state)]: a callable of the user throws or returns a status,
    which [await] takes like a promise fulfilled with it; the function of
    a condition is [async], runs the test when it is called and is
    fulfilled one job later. *)
Definition call_fn (fn : Fn) : Call (Promise (option BehaviorTreeStatus)) :=
  match fn with
  | Sync fn =>
      let* result := invoke fn in
      ret (Settled (Returns result))
  | Condition test =>
      async (await* answer := (let* answer := invoke_test test in
                               ret (Settled (Returns answer))) in
             finished (ret (Some (if answer : bool then Success else Failure))))
  end.

Definition ActionNode_tick_async (fn : Fn) : Async BehaviorTreeStatus :=
  await* result := call_fn fn in
  finished (match result with
            | None => throw (BehaviorTreeError Errors.NO_RETURN_VALUE)
            | Some status => ret status
            end).

Definition InverterNode_tick_async (childNode : option addr)
    : Async BehaviorTreeStatus :=
  match childNode with
  | None => finished (throw (BehaviorTreeError Errors.INVERTER_NO_CHILDREN))
  | Some child =>
      await* result := tick child in
      finished (if decide (result = Failure) then ret Success
                else if decide (result = Success) then ret Failure
                else ret result)
  end.

(** [try { return await child.tick(state) } catch (e) { return Failure }] *)
Definition ParallelNode_tickChildren (child : addr) : Async BehaviorTreeStatus :=
  try_awaiting (tick child)
    (fun r => finished match r with
                       | Returns status => ret status
                       | Throws _ => ret Failure
                       | OutOfFuel => diverge
                       end).

(** [await Promise.all(this.children.map((c) => this.tickChildren(state, c)))]:
    [map] calls [tickChildren] on the children in array order, each call
    running to its first [await]; then the jobs of all of them take
    turns. *)
Definition ParallelNode_tick_async (requiredToFail requiredToSucceed : Z)
    (children : list addr) : Async BehaviorTreeStatus :=
  sync* promises := mapM (fun c => async (ParallelNode_tickChildren c)) children in
  await* statuses := ret (Promise_all promises) in
  finished (ret (ParallelNode_verdict requiredToFail requiredToSucceed statuses)).

(** [this.enumerator.current.tick(state)] *)
Definition tick_current_async (this : addr) : Call (Promise BehaviorTreeStatus) :=
  let* cur := current this in
  match cur with
  | Some child => tick child
  | None => throw TypeError
  end.

Definition SelectorNode_do_while_async (this : addr) : Async BehaviorTreeStatus :=
  await* status := tick_current_async this in
  if decide (status <> Failure) then
    finished ((if decide (status = Success) then reset this else ret tt) >>
              ret status)
  else
    sync* more := next this in
    if more then proceed (loop this)
    else finished (reset this >> ret Failure).

Definition SelectorNode_tick_async (this : addr) : Async BehaviorTreeStatus :=
  sync* _u := init_unless_kept this in
  sync* cur := current this in
  if negb (bool_decide (is_Some cur)) then finished (ret Running)
  else proceed (loop this).

Definition RepeatNode_do_while_async (this : addr) : Async BehaviorTreeStatus :=
  await* status := tick_current_async this in
  if decide (status <> Success) then
    finished ((if decide (status = Failure) then reset this else ret tt) >>
              ret Running)
  else
    sync* more := next this in
    if more then proceed (loop this)
    else finished (reset this >> ret Running).

Definition RepeatNode_tick_async (this : addr) : Async BehaviorTreeStatus :=
  sync* _u := init_unless_kept this in
  sync* cur := current this in
  if negb (bool_decide (is_Some cur)) then finished (ret Running)
  else proceed (loop this).

Definition UntilFailNode_do_while_async (this : addr) : Async BehaviorTreeStatus :=
  await* status := tick_current_async this in
  if decide (status <> Success) then
    finished ((if decide (status = Failure) then reset this else ret tt) >>
              ret status)
  else
    sync* more := next this in
    if more then proceed (loop this)
    else finished (reset this >> ret Running).

Definition UntilFailNode_tick_async (this : addr) : Async BehaviorTreeStatus :=
  sync* _u := init_unless_kept this in
  sync* cur := current this in
  if negb (bool_decide (is_Some cur)) then finished (ret Running)
  else proceed (loop this).

Definition SequenceNode_do_while_async (this : addr) : Async BehaviorTreeStatus :=
  await* status := tick_current_async this in
  if decide (status <> Success) then
    finished ((if decide (status = Failure) then reset this else ret tt) >>
              ret status)
  else
    sync* more := next this in
    if more then proceed (loop this)
    else finished (reset this >> ret Success).

Definition SequenceNode_tick_async (this : addr) : Async BehaviorTreeStatus :=
  sync* _u := init_unless_kept this in
  sync* cur := current this in
  if negb (bool_decide (is_Some cur)) then finished (ret Running)
  else proceed (loop this).

End AsyncMethods.

(** What an entry point does as a call that returns a promise, given the
    two recursive calls: a [tick] on what is no node throws, a [tick] on a
    node is an [async] call. *)
Definition dispatch_async (tick loop : addr -> Call (Promise BehaviorTreeStatus))
    (e : Entry) : Call (Promise BehaviorTreeStatus) :=
  match e with
  | Tick this =>
      let* obj := deref this in
      async match obj with
            | ActionNode _ fn => ActionNode_tick_async fn
            | InverterNode _ childNode => InverterNode_tick_async tick childNode
            | ParallelNode _ requiredToFail requiredToSucceed children =>
                ParallelNode_tick_async tick requiredToFail requiredToSucceed children
            | SelectorNode _ => SelectorNode_tick_async loop this
            | RepeatNode _ => RepeatNode_tick_async loop this
            | UntilFailNode _ => UntilFailNode_tick_async loop this
            | SequenceNode _ => SequenceNode_tick_async loop this
            end
  | DoWhile this =>
      async (sync* obj := deref this in
             match obj with
             | SelectorNode _ => SelectorNode_do_while_async tick loop this
             | RepeatNode _ => RepeatNode_do_while_async tick loop this
             | UntilFailNode _ => UntilFailNode_do_while_async tick loop this
             | SequenceNode _ => SequenceNode_do_while_async tick loop this
             | _ => finished (throw TypeError)
             end)
  end.

(** [fuel] bounds the nesting of calls and loop rounds, as in [run]
    below. *)
Fixpoint run_async (fuel : nat) (e : Entry) : Call (Promise BehaviorTreeStatus) :=
  match fuel with
  | O => diverge
  | S fuel' =>
      dispatch_async (fun child => run_async fuel' (Tick child))
                     (fun node => run_async fuel' (DoWhile node)) e
  end.

(** ** The methods in direct style: one call awaited at a time *)

Section Methods.

(** [child.tick(state)], dispatched on the class of the child, and the next
    round of the [do ... while] loop of the node [this]: the two recursive
    calls, tied together by [run] below. *)
Variable tick : addr -> Call BehaviorTreeStatus.
Variable loop : addr -> Call BehaviorTreeStatus.

(** [child.tick(state)] as a call whose promise the caller holds while
    other calls go on: what a ParallelNode makes of each child. *)
Variable spawn : addr -> Call (Promise BehaviorTreeStatus).

(** [this.enumerator.current.tick(state)] *)
Definition tick_current (this : addr) : Call BehaviorTreeStatus :=
  let* cur := current this in
  match cur with
  | Some child => tick child
  | None => throw TypeError
  end.

(** ** InverterNode *)

Definition InverterNode_tick (childNode : option addr) : Call BehaviorTreeStatus :=
  match childNode with
  | None => throw (BehaviorTreeError Errors.INVERTER_NO_CHILDREN)
  | Some child =>
      let* result := tick child in
      if decide (result = Failure) then ret Success
      else if decide (result = Success) then ret Failure
      else ret result
  end.

(** ** ParallelNode *)

(** The [tick] of a ParallelNode, awaited: its children are started in
    array order and their jobs take turns until all have settled. *)
Definition ParallelNode_tick (requiredToFail requiredToSucceed : Z)
    (children : list addr) : Call BehaviorTreeStatus :=
  finish (async (ParallelNode_tick_async spawn requiredToFail requiredToSucceed
                   children)).

(** ** The sequential composites

    Each [tick] is the prologue up to the [do]; each [_do_while] is one
    round of the loop, whose [while (this.enumerator.next())] either
    reenters the loop or falls through to the code after it. *)

Definition SelectorNode_do_while (this : addr) : Call BehaviorTreeStatus :=
  let* status := tick_current this in
  if decide (status <> Failure) then
    (if decide (status = Success) then reset this else ret tt) >>
    ret status
  else
    let* more := next this in
    if more then loop this
    else reset this >> ret Failure.

Definition SelectorNode_tick (this : addr) : Call BehaviorTreeStatus :=
  init_unless_kept this >>
  let* cur := current this in
  if negb (bool_decide (is_Some cur)) then ret Running
  else loop this.

Definition RepeatNode_do_while (this : addr) : Call BehaviorTreeStatus :=
  let* status := tick_current this in
  if decide (status <> Success) then
    (if decide (status = Failure) then reset this else ret tt) >>
    ret Running
  else
    let* more := next this in
    if more then loop this
    else reset this >> ret Running.

Definition RepeatNode_tick (this : addr) : Call BehaviorTreeStatus :=
  init_unless_kept this >>
  let* cur := current this in
  if negb (bool_decide (is_Some cur)) then ret Running
  else loop this.

Definition UntilFailNode_do_while (this : addr) : Call BehaviorTreeStatus :=
  let* status := tick_current this in
  if decide (status <> Success) then
    (if decide (status = Failure) then reset this else ret tt) >>
    ret status
  else
    let* more := next this in
    if more then loop this
    else reset this >> ret Running.

Definition UntilFailNode_tick (this : addr) : Call BehaviorTreeStatus :=
  init_unless_kept this >>
  let* cur := current this in
  if negb (bool_decide (is_Some cur)) then ret Running
  else loop this.

Definition SequenceNode_do_while (this : addr) : Call BehaviorTreeStatus :=
  let* status := tick_current this in
  if decide (status <> Success) then
    (if decide (status = Failure) then reset this else ret tt) >>
    ret status
  else
    let* more := next this in
    if more then loop this
    else reset this >> ret Success.

Definition SequenceNode_tick (this : addr) : Call BehaviorTreeStatus :=
  init_unless_kept this >>
  let* cur := current this in
  if negb (bool_decide (is_Some cur)) then ret Running
  else loop this.

End Methods.

(** What an entry point does, given the recursive calls. *)
Definition dispatch (tick loop : addr -> Call BehaviorTreeStatus)
    (spawn : addr -> Call (Promise BehaviorTreeStatus)) (e : Entry)
    : Call BehaviorTreeStatus :=
  match e with
  | Tick this =>
      let* obj := deref this in
      match obj with
      | ActionNode _ fn => ActionNode_tick (callable fn)
      | InverterNode _ childNode => InverterNode_tick tick childNode
      | ParallelNode _ requiredToFail requiredToSucceed children =>
          ParallelNode_tick spawn requiredToFail requiredToSucceed children
      | SelectorNode _ => SelectorNode_tick loop this
      | RepeatNode _ => RepeatNode_tick loop this
      | UntilFailNode _ => UntilFailNode_tick loop this
      | SequenceNode _ => SequenceNode_tick loop this
      end
  | DoWhile this =>
      let* obj := deref this in
      match obj with
      | SelectorNode _ => SelectorNode_do_while tick loop this
      | RepeatNode _ => RepeatNode_do_while tick loop this
      | UntilFailNode _ => UntilFailNode_do_while tick loop this
      | SequenceNode _ => SequenceNode_do_while tick loop this
      | _ => throw TypeError
      end
  end.

(** [fuel] bounds the nesting of calls and loop rounds; [OutOfFuel] is the
    outcome when it does not suffice. *)
Fixpoint run (fuel : nat) (e : Entry) : Call BehaviorTreeStatus :=
  match fuel with
  | O => diverge
  | S fuel' =>
      dispatch (fun child => run fuel' (Tick child))
               (fun node => run fuel' (DoWhile node))
               (fun child => run_async fuel' (Tick child)) e
  end.

(** [node.tick(state)] *)
Definition tick (fuel : nat) (this : addr) : Call BehaviorTreeStatus :=
  run fuel (Tick this).

(** ** Constructors

    An argument that is left out arrives as [undefined] ([None]) and takes
    the default of the parameter list. *)

Definition new_ActionNode (name : string) (fn : Fn) : Call addr :=
  alloc (ActionNode name fn).

Definition new_InverterNode (name : string) : Call addr :=
  alloc (InverterNode name None).

Definition new_ParallelNode (name : string) (requiredToFail requiredToSucceed : Z)
    : Call addr :=
  alloc (ParallelNode name requiredToFail requiredToSucceed []).

(** [constructor(name, keepState = false)], the same in the four classes. *)
Definition new_Composite (name : string) (keepState : option bool) : Composite :=
  {| name := name; keepState := default false keepState; children := [];
     enumerator := None |}.

Definition new_SelectorNode (name : string) (keepState : option bool) : Call addr :=
  alloc (SelectorNode (new_Composite name keepState)).

Definition new_RepeatNode (name : string) (keepState : option bool) : Call addr :=
  alloc (RepeatNode (new_Composite name keepState)).

Definition new_UntilFailNode (name : string) (keepState : option bool) : Call addr :=
  alloc (UntilFailNode (new_Composite name keepState)).

Definition new_SequenceNode (name : string) (keepState : option bool) : Call addr :=
  alloc (SequenceNode (new_Composite name keepState)).

(** ** addChild, dispatched on the class of the parent *)

Definition push_child (c : Composite) (child : addr) : Composite :=
  {| name := name c; keepState := keepState c;
     children := children c ++ [child]; enumerator := enumerator c |}.

Definition addChild (parent child : addr) : Call unit :=
  let* obj := deref parent in
  match obj with
  | ActionNode _ _ => throw TypeError
  | InverterNode name childNode =>
      if bool_decide (is_Some childNode)
      then throw (BehaviorTreeError Errors.INVERTER_MULTIPLE_CHILDREN)
      else store parent (InverterNode name (Some child))
  | ParallelNode name requiredToFail requiredToSucceed children =>
      store parent
        (ParallelNode name requiredToFail requiredToSucceed (children ++ [child]))
  | SelectorNode c => store parent (SelectorNode (push_child c child))
  | RepeatNode c => store parent (RepeatNode (push_child c child))
  | UntilFailNode c => store parent (UntilFailNode (push_child c child))
  | SequenceNode c => store parent (SequenceNode (push_child c child))
  end.

(** ** BehaviorTreeBuilder

    Every method returns [this]; the builder is threaded through the
    chain. *)

Record BehaviorTreeBuilder := {
  curNode : option addr;
  parentNodeStack : Stack.Stack addr
}.

Definition new_BehaviorTreeBuilder : BehaviorTreeBuilder :=
  {| curNode := None; parentNodeStack := Stack.new |}.

Definition lift {A} (r : Thrown + A) : Call A :=
  match r with
  | inl e => throw e
  | inr a => ret a
  end.

Definition do (name : string) (fn : Fn) (b : BehaviorTreeBuilder)
    : Call BehaviorTreeBuilder :=
  if Stack.isEmpty (parentNodeStack b)
  then throw (BehaviorTreeError Errors.UNNESTED_ACTION_NODE)
  else
    let* actionNode := new_ActionNode name fn in
    let* top := lift (Stack.peek (parentNodeStack b)) in
    addChild top actionNode >>
    ret b.

(** [async (t) => await fn(t) ? Success : Failure] *)
Definition condition (name : string) (fn : Test) (b : BehaviorTreeBuilder)
    : Call BehaviorTreeBuilder :=
  do name (Condition fn) b.

Definition addParentNode (node : addr) (b : BehaviorTreeBuilder)
    : Call BehaviorTreeBuilder :=
  (if negb (Stack.isEmpty (parentNodeStack b))
   then let* top := lift (Stack.peek (parentNodeStack b)) in addChild top node
   else ret tt) >>
  ret {| curNode := curNode b;
         parentNodeStack := Stack.push node (parentNodeStack b) |}.

Definition inverter (name : string) (b : BehaviorTreeBuilder) :=
  let* node := new_InverterNode name in addParentNode node b.

(** [sequence(name, keepState = true)] *)
Definition sequence (name : string) (keepState : option bool)
    (b : BehaviorTreeBuilder) :=
  let* node := new_SequenceNode name (Some (default true keepState)) in
  addParentNode node b.

Definition parallel (name : string) (requiredToFail requiredToSucceed : Z)
    (b : BehaviorTreeBuilder) :=
  let* node := new_ParallelNode name requiredToFail requiredToSucceed in
  addParentNode node b.

(** [selector(name, keepState)] of BehaviorTreeBuilder.js: no default, the
    argument goes to the constructor as it came. *)
Definition selector (name : string) (keepState : option bool)
    (b : BehaviorTreeBuilder) :=
  let* node := new_SelectorNode name keepState in
  addParentNode node b.

(** [selector(name, keepState = true)] as bundle.js has it. *)
Definition bundle_selector (name : string) (keepState : option bool)
    (b : BehaviorTreeBuilder) :=
  let* node := new_SelectorNode name (Some (default true keepState)) in
  addParentNode node b.

(** [repeat(name, keepState = true)] *)
Definition repeat (name : string) (keepState : option bool)
    (b : BehaviorTreeBuilder) :=
  let* node := new_RepeatNode name (Some (default true keepState)) in
  addParentNode node b.

(** [untilFail(name, keepState = true)] *)
Definition untilFail (name : string) (keepState : option bool)
    (b : BehaviorTreeBuilder) :=
  let* node := new_UntilFailNode name (Some (default true keepState)) in
  addParentNode node b.

Definition splice (subTree : addr) (b : BehaviorTreeBuilder)
    : Call BehaviorTreeBuilder :=
  if Stack.isEmpty (parentNodeStack b)
  then throw (BehaviorTreeError Errors.SPLICE_UNNESTED_TREE)
  else
    let* top := lift (Stack.peek (parentNodeStack b)) in
    addChild top subTree >>
    ret b.

Definition build (b : BehaviorTreeBuilder) : Call addr :=
  match curNode b with
  | None => throw (BehaviorTreeError Errors.NO_NODES)
  | Some node => ret node
  end.

(** [end()]; popping the empty stack throws before [curNode] is assigned. *)
Definition end_ (b : BehaviorTreeBuilder) : Call BehaviorTreeBuilder :=
  let* popped := lift (Stack.pop (parentNodeStack b)) in
  ret {| curNode := Some (fst popped); parentNodeStack := snd popped |}.

End Model.

Arguments StateData : clear implicits.
Arguments FnResult : clear implicits.
Arguments Callable : clear implicits.
Arguments Test : clear implicits.
Arguments Fn : clear implicits.
Arguments Promise : clear implicits.
Arguments Settled {Payload A} r.
Arguments Pending {Payload A} job.
Arguments Async : clear implicits.
Arguments NodeObj : clear implicits.
Arguments World : clear implicits.
Arguments Call : clear implicits.

(** A callable of the user, where a value of the field [fn] is expected. *)
Coercion Sync : Callable >-> Fn.

(** * Vocabulary of the specification *)

Section Vocabulary.

Context {Payload : Type}.
Implicit Types (w : World Payload) (obj : NodeObj Payload).

(** The four sequential composites, and the row each has in the table of
    the shared cursor protocol. *)
Inductive Kind := Selector | Repeat | UntilFail | Sequence.

Definition kind_of obj : option Kind :=
  match obj with
  | SelectorNode _ => Some Selector
  | RepeatNode _ => Some Repeat
  | UntilFailNode _ => Some UntilFail
  | SequenceNode _ => Some Sequence
  | _ => None
  end.

(** "Continue while child status is". *)
Definition continues (k : Kind) : BehaviorTreeStatus :=
  match k with Selector => Failure | _ => Success end.

(** The status of a child that stops the pass and resets the cursor. *)
Definition resets (k : Kind) : BehaviorTreeStatus :=
  match k with Selector => Success | _ => Failure end.

(** What the node returns when a child stops the pass with status [s]. *)
Definition stopped (k : Kind) (s : BehaviorTreeStatus) : BehaviorTreeStatus :=
  match k with Repeat => Running | _ => s end.

(** "Exhausted": what the node returns when no child stopped the pass. *)
Definition exhausted (k : Kind) : BehaviorTreeStatus :=
  match k with
  | Sequence => Success
  | Selector => Failure
  | UntilFail | Repeat => Running
  end.

(** The position of the cursor of the node at [this], if it has one. *)
Definition cursor w (this : addr) : option nat :=
  match heap w !! this with
  | Some obj =>
      match fields obj with
      | Some c => currentIndex <$> enumerator c
      | None => None
      end
  | None => None
  end.

(** The same node with its cursor on child [k]. *)
Definition put_cursor (k : nat) obj : NodeObj Payload :=
  match fields obj with
  | Some c =>
      with_fields obj
        {| name := name c; keepState := keepState c; children := children c;
           enumerator := Some {| currentIndex := k |} |}
  | None => obj
  end.

(** The same store with the cursor of the node at [this] on child [k]. *)
Definition at_cursor (this : addr) (k : nat) w : World Payload :=
  match heap w !! this with
  | Some obj => {| heap := <[this := put_cursor k obj]> (heap w); sd := sd w |}
  | None => w
  end.

(** The child a tick starts from: the first one, unless a cursor is there
    and is kept. *)
Definition entry (c : Composite) : nat :=
  match enumerator c with
  | Some e => if keepState c then currentIndex e else 0%nat
  | None => 0%nat
  end.

(** [passes s fuel this k cs w w']: ticked one after the other from the
    store [w], as the loop of the node at [this] presents them with its
    cursor on [k], [k+1], ..., the children [cs] all return [s]; none of
    them touches the node at [this] (its [tick] is not reentered, which
    no child can do in an acyclic store); the last one leaves the store
    [w']. *)
Fixpoint passes (s : BehaviorTreeStatus) (fuel : nat) (this : addr) (k : nat)
    (cs : list addr) w w' : Prop :=
  match cs with
  | [] => w' = w
  | child :: rest =>
      exists w1,
        tick fuel child (at_cursor this k w) = (Returns s, w1) /\
        heap w1 !! this = heap (at_cursor this k w) !! this /\
        passes s fuel this (S k) rest w1 w'
  end.

(** [returns_in_turn]: [passes] without the proviso on the node at
    [this]. *)
Fixpoint returns_in_turn (s : BehaviorTreeStatus) (fuel : nat) (this : addr)
    (k : nat) (cs : list addr) w w' : Prop :=
  match cs with
  | [] => w' = w
  | child :: rest =>
      exists w1,
        tick fuel child (at_cursor this k w) = (Returns s, w1) /\
        returns_in_turn s fuel this (S k) rest w1 w'
  end.

(** A vote in a ParallelNode: the status the child returned, or [Failure]
    for a child that threw. *)
Definition vote (r : Completion BehaviorTreeStatus) : option BehaviorTreeStatus :=
  match r with
  | Returns s => Some s
  | Throws _ => Some Failure
  | OutOfFuel => None
  end.

(** The promise of a call; a call that throws stands for a promise that
    is rejected with what it threw. *)
Definition promised {A} (m : Call Payload (Promise Payload A))
    : Call Payload (Promise Payload A) :=
  fun w =>
    match m w with
    | (Throws e, w') => (Returns (Settled (Throws e)), w')
    | r => r
    end.

(** [ticked_together fuel cs outcomes w w']: from the store [w], [tick] is
    called on the children [cs] one after the other, each call running to
    its first [await]; then the jobs of all of them take turns until every
    promise is settled, the promise of child [i] with [outcomes !! i], and
    the store is [w']. *)
Definition ticked_together (fuel : nat) (cs : list addr)
    (outcomes : list (Completion BehaviorTreeStatus)) w w' : Prop :=
  exists promises w1,
    mapM (fun child => promised (run_async fuel (Tick child))) cs w
      = (Returns promises, w1) /\
    drain (together promises) w1 = (Returns outcomes, w').

(** [votes fuel cs ss w w']: ticked together from [w], the children [cs]
    settle with the votes [ss] and leave the store [w']. *)
Definition votes (fuel : nat) (cs : list addr) (ss : list BehaviorTreeStatus)
    w w' : Prop :=
  exists outcomes,
    ticked_together fuel cs outcomes w w' /\
    Forall2 (fun r s => vote r = Some s) outcomes ss.

(** A node object without its cursor: what the builder made of it. *)
Definition erase obj : NodeObj Payload :=
  match fields obj with
  | Some c =>
      with_fields obj
        {| name := name c; keepState := keepState c; children := children c;
           enumerator := None |}
  | None => obj
  end.

(** Two stores with the same nodes, up to the cursors. *)
Definition same_tree w w' : Prop :=
  forall a, erase <$> (heap w' !! a) = erase <$> (heap w !! a).

(** The calls of a fluent chain on a builder: the methods that open a parent
    node, those that add a leaf or a subtree to the open one, and [end()],
    which closes it. *)
Inductive Method :=
| AddAction (name : string) (fn : Callable Payload)
| AddCondition (name : string) (fn : StateData Payload -> (Thrown + bool) * StateData Payload)
| OpenInverter (name : string)
| OpenSequence (name : string) (keepState : option bool)
| OpenParallel (name : string) (requiredToFail requiredToSucceed : Z)
| OpenSelector (name : string) (keepState : option bool)
| OpenBundleSelector (name : string) (keepState : option bool)
| OpenRepeat (name : string) (keepState : option bool)
| OpenUntilFail (name : string) (keepState : option bool)
| Splice (subTree : addr)
| Close.

Definition call (m : Method) (b : BehaviorTreeBuilder) : Call Payload BehaviorTreeBuilder :=
  match m with
  | AddAction name fn => do name fn b
  | AddCondition name fn => condition name fn b
  | OpenInverter name => inverter name b
  | OpenSequence name keepState => sequence name keepState b
  | OpenParallel name requiredToFail requiredToSucceed =>
      parallel name requiredToFail requiredToSucceed b
  | OpenSelector name keepState => selector name keepState b
  | OpenBundleSelector name keepState => bundle_selector name keepState b
  | OpenRepeat name keepState => repeat name keepState b
  | OpenUntilFail name keepState => untilFail name keepState b
  | Splice subTree => splice subTree b
  | Close => end_ b
  end.

Fixpoint chain (ms : list Method) (b : BehaviorTreeBuilder)
    : Call Payload BehaviorTreeBuilder :=
  match ms with
  | [] => ret b
  | m :: ms' => let* b' := call m b in chain ms' b'
  end.

Definition is_end (m : Method) : bool :=
  match m with Close => true | _ => false end.

(** What a round of the loop of a node of kind [K] makes of the completion
    [r] of its current child: the rows of the table, read on the store the
    child left. *)
Definition settle (K : Kind) (lp : addr -> Call Payload BehaviorTreeStatus)
    (this : addr) (r : Completion BehaviorTreeStatus)
    : Call Payload BehaviorTreeStatus :=
  match r with
  | Returns s =>
      if decide (s = continues K) then
        let* more := next this in
        if more then lp this else reset this >> ret (exhausted K)
      else
        (if decide (s = resets K) then reset this else ret tt) >>
        ret (stopped K s)
  | Throws e => throw e
  | OutOfFuel => diverge
  end.

(** The statuses a node of kind [K] can return at all. *)
Definition possible (K : Kind) (s : BehaviorTreeStatus) : Prop :=
  match K with
  | Repeat => s = Running
  | UntilFail => s <> Success
  | Selector | Sequence => True
  end.

(** [makes mk wrap ks w]: called in the store [w], the constructor call
    [mk] returns a new node of the class [wrap] whose keepState is [ks]. *)
Definition makes (mk : Call Payload addr) (wrap : Composite -> NodeObj Payload)
    (ks : bool) w : Prop :=
  exists w' c,
    mk w = (Returns (length (heap w)), w') /\
    heap w' !! length (heap w) = Some (wrap c) /\ keepState c = ks.

(** [builds method wrap ks w]: called on any builder in the store [w], the
    builder method [method] makes a new node of the class [wrap] whose
    keepState is [ks], however the call completes. *)
Definition builds (method : BehaviorTreeBuilder -> Call Payload BehaviorTreeBuilder)
    (wrap : Composite -> NodeObj Payload) (ks : bool) w : Prop :=
  forall b r w',
    method b w = (r, w') ->
    exists c, heap w' !! length (heap w) = Some (wrap c) /\ keepState c = ks.

(** The references a node holds to other nodes. *)
Definition kids obj : list addr :=
  match obj with
  | ActionNode _ _ => []
  | InverterNode _ childNode => option_list childNode
  | ParallelNode _ _ _ children => children
  | SelectorNode c | RepeatNode c | UntilFailNode c | SequenceNode c => children c
  end.

(** [acyclic_by rank w]: every node of the store ranks below the nodes it
    refers to; the store is a forest, possibly with shared subtrees. *)
Definition acyclic_by (rank : addr -> nat) w : Prop :=
  forall a obj child,
    heap w !! a = Some obj -> child ∈ kids obj -> (rank a < rank child)%nat.

(** The node an entry point of [run] works on. *)
Definition target (e : Entry) : addr :=
  match e with Tick this | DoWhile this => this end.

(** [above rank a m]: in an acyclic store, [m] leaves the store acyclic and
    leaves alone every node that ranks below [a]. *)
Definition above (rank : addr -> nat) (a : addr) {A} (m : Call Payload A) : Prop :=
  forall w r w',
    acyclic_by rank w -> m w = (r, w') ->
    acyclic_by rank w' /\
    forall b, (rank b < rank a)%nat -> heap w' !! b = heap w !! b.

(** The same node holding the references [ks] in place of its own. *)
Definition with_kids obj (ks : list addr) : NodeObj Payload :=
  match obj with
  | ActionNode name fn => ActionNode name fn
  | InverterNode name _ => InverterNode name (head ks)
  | ParallelNode name requiredToFail requiredToSucceed _ =>
      ParallelNode name requiredToFail requiredToSucceed ks
  | SelectorNode c | RepeatNode c | UntilFailNode c | SequenceNode c =>
      with_fields obj
        {| name := name c; keepState := keepState c; children := ks;
           enumerator := enumerator c |}
  end.

(** The nodes that take one more child: all but the leaves and an Inverter
    that has its child. *)
Definition accepts obj : bool :=
  match obj with
  | ActionNode _ _ => false
  | InverterNode _ (Some _) => false
  | _ => true
  end.

(** The cursor of the node, if it has one, is on one of its children, or
    on 0. *)
Definition in_range_node obj : Prop :=
  match fields obj with
  | Some c =>
      match enumerator c with
      | Some e => currentIndex e = 0%nat \/ (currentIndex e < length (children c))%nat
      | None => True
      end
  | None => True
  end.

(** [in_range w]: the cursor of every node of the store is in range. *)
Definition in_range w : Prop := Forall in_range_node (heap w).

(** A completion as an Inverter hands it on. *)
Definition inverted (r : Completion BehaviorTreeStatus)
    : Completion BehaviorTreeStatus :=
  match r with
  | Returns Success => Returns Failure
  | Returns Failure => Returns Success
  | other => other
  end.

(** [keeps_range m]: [m] leaves every cursor in range. *)
Definition keeps_range {A} (m : Call Payload A) : Prop :=
  forall w r w', in_range w -> m w = (r, w') -> in_range w'.

(** [spares rank b m]: in an acyclic store, [m] leaves the store acyclic
    and leaves the node at [b] alone. *)
Definition spares (rank : addr -> nat) (b : addr) {A} (m : Call Payload A) : Prop :=
  forall w r w',
    acyclic_by rank w -> m w = (r, w') ->
    acyclic_by rank w' /\ heap w' !! b = heap w !! b.

(** The methods of the builder that open a parent node. *)
Definition opens (m : Method) : bool :=
  match m with
  | OpenInverter _ | OpenSequence _ _ | OpenParallel _ _ _ | OpenSelector _ _
  | OpenBundleSelector _ _ | OpenRepeat _ _ | OpenUntilFail _ _ => true
  | _ => false
  end.

(** [bounded_by rank B L w]: no node of the store ranks above [B] or
    refers to more than [L] nodes. *)
Definition bounded_by (rank : addr -> nat) (B L : nat) w : Prop :=
  forall a obj,
    heap w !! a = Some obj -> (rank a <= B)%nat /\ (length (kids obj) <= L)%nat.

(** [grows w w']: the user's state is the same in both stores, and every
    node of [w] is in [w'] the node it was, with children added after
    those it had, if any were. *)
Definition grows w w' : Prop :=
  sd w' = sd w /\
  forall a obj,
    heap w !! a = Some obj ->
    exists ks, heap w' !! a = Some (with_kids obj (kids obj ++ ks)).

(** [appends m]: [m] only makes nodes and adds children. *)
Definition appends {A} (m : Call Payload A) : Prop :=
  forall w r w', m w = (r, w') -> grows w w'.

(** [approx p p']: [p'] is [p] with more fuel: the same jobs with the same
    effects, up to where [p] runs out of fuel. *)
Fixpoint approx {A} (p p' : Promise Payload A) : Prop :=
  match p with
  | Settled OutOfFuel => True
  | Settled r => p' = Settled r
  | Pending job =>
      match p' with
      | Pending job' =>
          forall w,
            let (q, w1) := job w in
            let (q', w1') := job' w in
            approx q q' /\ (q <> Settled OutOfFuel -> w1' = w1)
      | Settled _ => False
      end
  end.

(** The same of two functions under way, and of two calls that return a
    promise. *)
Definition refines_job {A} (b1 b2 : Async Payload A) : Prop :=
  forall w,
    let (q, w1) := b1 w in
    let (q', w1') := b2 w in
    approx q q' /\ (q <> Settled OutOfFuel -> w1' = w1).

Definition refines_spawn {A} (m1 m2 : Call Payload (Promise Payload A)) : Prop :=
  forall w r w',
    m1 w = (r, w') ->
    match r with
    | Returns p =>
        exists p' w'',
          m2 w = (Returns p', w'') /\ approx p p' /\
          (p <> Settled OutOfFuel -> w'' = w')
    | Throws e => m2 w = (Throws e, w')
    | OutOfFuel => True
    end.

(** [keeps_steps I P p]: every job still to run for [p] takes a store in
    which [I] holds to one in which it holds, the two related by [P]. *)
Fixpoint keeps_steps (I : World Payload -> Prop)
    (P : World Payload -> World Payload -> Prop) {A} (p : Promise Payload A) : Prop :=
  match p with
  | Settled _ => True
  | Pending job =>
      forall w, I w -> let (p', w') := job w in I w' /\ P w w' /\ keeps_steps I P p'
  end.

(** The same of a function under way, of a call, and of a call that
    returns a promise. *)
Definition keeps_job (I : World Payload -> Prop)
    (P : World Payload -> World Payload -> Prop) {A} (b : Async Payload A) : Prop :=
  forall w, I w -> let (p, w') := b w in I w' /\ P w w' /\ keeps_steps I P p.

Definition keeps_call (I : World Payload -> Prop)
    (P : World Payload -> World Payload -> Prop) {A} (m : Call Payload A) : Prop :=
  forall w r w', I w -> m w = (r, w') -> I w' /\ P w w'.

Definition keeps_spawn (I : World Payload -> Prop)
    (P : World Payload -> World Payload -> Prop) {A}
    (m : Call Payload (Promise Payload A)) : Prop :=
  forall w r w',
    I w -> m w = (r, w') ->
    I w' /\ P w w' /\ forall p, r = Returns p -> keeps_steps I P p.

(** [settles_in Q p]: however its jobs run, [p] settles with an outcome in
    [Q]. *)
Fixpoint settles_in {A} (Q : Completion A -> Prop) (p : Promise Payload A) : Prop :=
  match p with
  | Settled r => Q r
  | Pending job => forall w, let (p', _) := job w in settles_in Q p'
  end.

(** A completion that is no error, with a value in [R] if it is one. *)
Definition fulfils {A} (R : A -> Prop) (r : Completion A) : Prop :=
  match r with
  | Returns a => R a
  | Throws _ => False
  | OutOfFuel => True
  end.



Definition is_parallel obj : bool :=
  match obj with
  | ParallelNode _ _ _ _ => true
  | _ => false
  end.

(** [calm under w]: no loop runs under a ParallelNode. [under] marks the
    nodes below a ParallelNode: the children of a ParallelNode and the
    children of a marked node are marked; and no marked node is a
    sequential composite. *)
Definition calm (under : addr -> bool) w : Prop :=
  forall a obj,
    heap w !! a = Some obj ->
    (under a = true -> fields obj = None) /\
    (under a = true \/ is_parallel obj = true ->
     forall child, child ∈ kids obj -> under child = true).

(** [delays g p q]: [q] is [p] with its outcome taken through [g], which
    may take jobs that leave the store alone once [p] has settled. *)
Fixpoint delays {A B} (g : Completion A -> Completion B) (p : Promise Payload A)
    : Promise Payload B -> Prop :=
  match p with
  | Settled r =>
      fix rest (q : Promise Payload B) : Prop :=
        match q with
        | Settled r' => r' = g r
        | Pending job =>
            r <> OutOfFuel /\
            forall w, let (q', w') := job w in w' = w /\ rest q'
        end
  | Pending job => fun q =>
      match q with
      | Pending job' =>
          forall w,
            let (p', w1) := job w in
            let (q', w1') := job' w in
            w1' = w1 /\ delays g p' q'
      | Settled _ => False
      end
  end.

(** The outcomes of promises as the outcomes of [tickChildren] on them. *)
Definition caught (r : Completion BehaviorTreeStatus)
    : Completion BehaviorTreeStatus :=
  match r with
  | Returns status => Returns status
  | Throws _ => Returns Failure
  | OutOfFuel => OutOfFuel
  end.

Definition all_caught (r : Completion (list (Completion BehaviorTreeStatus)))
    : Completion (list (Completion BehaviorTreeStatus)) :=
  match r with
  | Returns outcomes => Returns (map caught outcomes)
  | other => other
  end.

(** [reads m]: [m] leaves the store as it is. *)
Definition reads {A} (m : Call Payload A) : Prop :=
  forall w r w', m w = (r, w') -> w' = w.

(** [refines m1 m2]: whatever [m1] settles with, [m2] settles with too. *)
Definition refines {A} (m1 m2 : Call Payload A) : Prop :=
  forall w r w', m1 w = (r, w') -> r <> OutOfFuel -> m2 w = (r, w').

(** [keeps_tree m]: [m] writes nothing but cursors. *)
Definition keeps_tree {A} (m : Call Payload A) : Prop :=
  forall w r w', m w = (r, w') -> same_tree w w'.

End Vocabulary.

(** * Sample trees; the user's state logs the leaves that were called *)

Definition leaf (i : nat) (s : BehaviorTreeStatus) : Callable (list nat) :=
  fun t => (FnReturn (Some s),
            {| deltaTime := deltaTime t; state := state t ++ [i] |}).

Definition boom (i : nat) : Callable (list nat) :=
  fun t => (FnThrow (UserError "boom"),
            {| deltaTime := deltaTime t; state := state t ++ [i] |}).

Definition world (objs : list (NodeObj (list nat))) : World (list nat) :=
  {| heap := objs; sd := {| deltaTime := 0; state := [] |} |}.

Definition composite (K : Kind) (c : Composite) : NodeObj (list nat) :=
  match K with
  | Selector => SelectorNode c
  | Repeat => RepeatNode c
  | UntilFail => UntilFailNode c
  | Sequence => SequenceNode c
  end.

Definition root (keepState : bool) (n : nat) (cursor : option nat) : Composite :=
  {| name := "root"; keepState := keepState; children := seq 1 n;
     enumerator := (fun k => {| currentIndex := k |}) <$> cursor |}.

Definition leaves (fs : list (Callable (list nat))) : list (NodeObj (list nat)) :=
  map (fun fn => ActionNode "leaf" (Sync fn)) fs.

(** A composite at address 0 over leaves at the addresses 1, 2, ... *)
Definition over (K : Kind) (keepState : bool) (fs : list (Callable (list nat)))
    : World (list nat) :=
  world (composite K (root keepState (length fs) None) :: leaves fs).

(** The same tree with its cursor on child [k], after the leaves [log]
    were called. *)
Definition later (K : Kind) (keepState : bool) (fs : list (Callable (list nat)))
    (k : nat) (log : list nat) : World (list nat) :=
  {| heap := composite K (root keepState (length fs) (Some k)) :: leaves fs;
     sd := {| deltaTime := 0; state := log |} |}.

(** The leaves of the samples. *)
Definition succeed_then_run := [leaf 1 Success; leaf 2 Running].
Definition succeed_twice := [leaf 1 Success; leaf 2 Success].
Definition succeed_then_fail := [leaf 1 Success; leaf 2 Failure].
Definition fail_then_succeed := [leaf 1 Failure; leaf 2 Success].
Definition just_run := [leaf 1 Running].
Definition succeed_then_throw := [leaf 1 Success; boom 2].

(** A Parallel that needs two successes and has no threshold of failures,
    over a leaf that succeeds, one that throws and one that succeeds. *)
Definition race : World (list nat) :=
  world (ParallelNode "race" 0 2 [1; 2; 3]%nat
         :: leaves [leaf 1 Success; boom 2; leaf 3 Success]).

Definition raced : World (list nat) :=
  {| heap := heap race; sd := {| deltaTime := 0; state := [1; 2; 3]%nat |} |}.

(** The same leaves under a Parallel that needs three successes, or one
    failure. *)
Definition strict_race : World (list nat) :=
  world (ParallelNode "race" 1 3 [1; 2; 3]%nat
         :: leaves [leaf 1 Success; boom 2; leaf 3 Success]).

Definition strict_raced (log : list nat) : World (list nat) :=
  {| heap := heap strict_race; sd := {| deltaTime := 0; state := log |} |}.

(** An Inverter over a leaf that throws. *)
Definition inverted_boom : World (list nat) :=
  world [InverterNode "not" (Some 1%nat); ActionNode "leaf" (boom 1)].

(** An Inverter over an Inverter over a leaf that succeeds. *)
Definition twice_inverted : World (list nat) :=
  world [InverterNode "not" (Some 1%nat); InverterNode "not" (Some 2%nat);
         ActionNode "leaf" (leaf 2 Success)].

(** A builder with the node at address 0 open. *)
Definition open_root : BehaviorTreeBuilder :=
  {| curNode := None; parentNodeStack := Stack.push 0%nat Stack.new |}.

(** A test that answers whether no leaf was called yet. *)
Definition untouched (t : StateData (list nat))
    : (Thrown + bool) * StateData (list nat) :=
  (inr (bool_decide (state t = [])), t).

(** The user's state after the leaves [log] were called. *)
Definition logged (objs : list (NodeObj (list nat))) (log : list nat)
    : World (list nat) :=
  {| heap := objs; sd := {| deltaTime := 0; state := log |} |}.

(** The store after [condition] has added that test under the open root. *)
Definition checked : World (list nat) :=
  (condition "c" untouched open_root (over Sequence true [])).2.

(** A Parallel over a Sequence of the leaves 2 and 3, and the leaf 4; the
    Sequence has its cursor at [cursor]. *)
Definition sequence_and_leaf (cursor : option nat) : list (NodeObj (list nat)) :=
  [ParallelNode "both" 0 2 [1; 4]%nat;
   SequenceNode {| name := "first"; keepState := true; children := [2; 3]%nat;
                   enumerator := (fun k => {| currentIndex := k |}) <$> cursor |};
   ActionNode "leaf" (Sync (leaf 2 Success));
   ActionNode "leaf" (Sync (leaf 3 Success));
   ActionNode "leaf" (Sync (leaf 4 Success))].

Definition interleaved : World (list nat) := world (sequence_and_leaf None).

(** After a tick the leaf 4 was called between the leaves 2 and 3. *)
Definition interleaved_done : World (list nat) :=
  logged (sequence_and_leaf (Some 0%nat)) [2; 4; 3]%nat.

(** A Parallel whose [n] children are all the same Sequence, of [n]
    leaves. *)
Definition shared (n : nat) : World (list nat) :=
  world (ParallelNode "all" 0 1 (replicate n 1%nat)
         :: SequenceNode {| name := "each"; keepState := true;
                            children := seq 2 n; enumerator := None |}
         :: map (fun i => ActionNode "leaf" (Sync (leaf i Success))) (seq 2 n)).

(** * The store and the cursor *)

Section Store.

Context {Payload : Type}.
Implicit Types (w : World Payload) (obj : NodeObj Payload) (c : Composite).

Lemma World_eta w : {| heap := heap w; sd := sd w |} = w.
Proof. now destruct w. Qed.

Lemma bind_run {A B} (m : Call Payload A) (k : A -> Call Payload B) w r w1 :
  m w = (r, w1) ->
  bind m k w =
    match r with
    | Returns a => k a w1
    | Throws e => (Throws e, w1)
    | OutOfFuel => (OutOfFuel, w1)
    end.
Proof. intros H. unfold bind. now rewrite H. Qed.

Lemma deref_some w a obj : heap w !! a = Some obj -> deref a w = (Returns obj, w).
Proof. intros H. unfold deref. now rewrite H. Qed.

Lemma get_fields_some w this obj c :
  heap w !! this = Some obj -> fields obj = Some c ->
  get_fields this w = (Returns c, w).
Proof.
  intros Hobj Hc. unfold get_fields.
  rewrite (bind_run _ _ _ _ _ (deref_some _ _ _ Hobj)). now rewrite Hc.
Qed.

Lemma fields_with_fields obj c c' :
  fields obj = Some c -> fields (with_fields obj c') = Some c'.
Proof. destruct obj; simpl; congruence. Qed.

Lemma kind_of_with_fields obj c : kind_of (with_fields obj c) = kind_of obj.
Proof. now destruct obj. Qed.

Lemma kind_of_fields obj k : kind_of obj = Some k -> exists c, fields obj = Some c.
Proof. destruct obj; simpl; intros; try discriminate; eauto. Qed.

Lemma fields_put_cursor obj c k :
  fields obj = Some c ->
  fields (put_cursor k obj) =
    Some {| name := name c; keepState := keepState c; children := children c;
            enumerator := Some {| currentIndex := k |} |}.
Proof. intros H. unfold put_cursor. rewrite H. eapply fields_with_fields; eauto. Qed.

Lemma kind_of_put_cursor obj k : kind_of (put_cursor k obj) = kind_of obj.
Proof.
  unfold put_cursor. destruct (fields obj); [apply kind_of_with_fields | reflexivity].
Qed.

Lemma put_cursor_same obj c k :
  fields obj = Some c -> enumerator c = Some {| currentIndex := k |} ->
  put_cursor k obj = obj.
Proof.
  intros Hc He. unfold put_cursor. rewrite Hc.
  destruct c as [n ks cs e]; simpl in *; subst e.
  destruct obj; simpl in *; congruence.
Qed.

Lemma put_cursor_put_cursor obj j k : put_cursor k (put_cursor j obj) = put_cursor k obj.
Proof.
  unfold put_cursor at 2 3. destruct (fields obj) as [c|] eqn:Hc.
  - unfold put_cursor. erewrite fields_with_fields by eauto. simpl.
    now destruct obj.
  - unfold put_cursor. now rewrite Hc.
Qed.

Lemma at_cursor_eq w this obj k :
  heap w !! this = Some obj ->
  at_cursor this k w = {| heap := <[this := put_cursor k obj]> (heap w); sd := sd w |}.
Proof. intros H. unfold at_cursor. now rewrite H. Qed.

Lemma lookup_at_cursor w this obj k :
  heap w !! this = Some obj ->
  heap (at_cursor this k w) !! this = Some (put_cursor k obj).
Proof.
  intros H. rewrite (at_cursor_eq _ _ _ _ H). simpl.
  apply list_lookup_insert_eq. eapply lookup_lt_Some; eauto.
Qed.

Lemma sd_at_cursor w this k : sd (at_cursor this k w) = sd w.
Proof. unfold at_cursor. now destruct (heap w !! this). Qed.

Lemma at_cursor_same w this obj c k :
  heap w !! this = Some obj -> fields obj = Some c ->
  enumerator c = Some {| currentIndex := k |} ->
  at_cursor this k w = w.
Proof.
  intros Hobj Hc He. rewrite (at_cursor_eq _ _ _ _ Hobj).
  rewrite (put_cursor_same _ _ _ Hc He), list_insert_id by exact Hobj.
  apply World_eta.
Qed.

Lemma at_cursor_at_cursor w this j k :
  at_cursor this k (at_cursor this j w) = at_cursor this k w.
Proof.
  destruct (heap w !! this) as [obj|] eqn:Hobj.
  - rewrite (at_cursor_eq _ _ _ k (lookup_at_cursor _ _ _ j Hobj)).
    rewrite (at_cursor_eq _ _ _ j Hobj), (at_cursor_eq _ _ _ k Hobj). simpl.
    now rewrite list_insert_insert_eq, put_cursor_put_cursor.
  - unfold at_cursor. now rewrite !Hobj.
Qed.

Lemma cursor_at_cursor w this obj c k :
  heap w !! this = Some obj -> fields obj = Some c ->
  cursor (at_cursor this k w) this = Some k.
Proof.
  intros Hobj Hc. unfold cursor.
  rewrite (lookup_at_cursor _ _ _ _ Hobj), (fields_put_cursor _ _ _ Hc).
  reflexivity.
Qed.

(** [this.enumerator = e] writes the cursor and nothing else. *)
Lemma set_enumerator_run w this obj c k :
  heap w !! this = Some obj -> fields obj = Some c ->
  set_enumerator this (Some {| currentIndex := k |}) w = (Returns tt, at_cursor this k w).
Proof.
  intros Hobj Hc. unfold set_enumerator.
  rewrite (bind_run _ _ _ _ _ (deref_some _ _ _ Hobj)).
  rewrite (bind_run _ _ _ _ _ (get_fields_some _ _ _ _ Hobj Hc)).
  unfold store. rewrite (at_cursor_eq _ _ _ _ Hobj).
  unfold put_cursor. now rewrite Hc.
Qed.

Lemma get_enumerator_run w this obj c e :
  heap w !! this = Some obj -> fields obj = Some c -> enumerator c = Some e ->
  get_enumerator this w = (Returns e, w).
Proof.
  intros Hobj Hc He. unfold get_enumerator.
  rewrite (bind_run _ _ _ _ _ (get_fields_some _ _ _ _ Hobj Hc)). now rewrite He.
Qed.

Lemma init_run w this obj c :
  heap w !! this = Some obj -> fields obj = Some c ->
  init this w = (Returns tt, at_cursor this 0 w).
Proof. intros. unfold init. eapply set_enumerator_run; eauto. Qed.

Lemma reset_run w this obj c e :
  heap w !! this = Some obj -> fields obj = Some c -> enumerator c = Some e ->
  reset this w = (Returns tt, at_cursor this 0 w).
Proof.
  intros Hobj Hc He. unfold reset.
  rewrite (bind_run _ _ _ _ _ (get_enumerator_run _ _ _ _ _ Hobj Hc He)).
  eapply set_enumerator_run; eauto.
Qed.

Lemma current_run w this obj c e :
  heap w !! this = Some obj -> fields obj = Some c -> enumerator c = Some e ->
  current this w = (Returns (children c !! currentIndex e), w).
Proof.
  intros Hobj Hc He. unfold current.
  rewrite (bind_run _ _ _ _ _ (get_fields_some _ _ _ _ Hobj Hc)).
  now rewrite (bind_run _ _ _ _ _ (get_enumerator_run _ _ _ _ _ Hobj Hc He)).
Qed.

Lemma hasNext_run w this obj c e :
  heap w !! this = Some obj -> fields obj = Some c -> enumerator c = Some e ->
  hasNext this w =
    (Returns (bool_decide (is_Some (children c !! S (currentIndex e)))), w).
Proof.
  intros Hobj Hc He. unfold hasNext.
  rewrite (bind_run _ _ _ _ _ (get_fields_some _ _ _ _ Hobj Hc)).
  rewrite (bind_run _ _ _ _ _ (get_enumerator_run _ _ _ _ _ Hobj Hc He)).
  now rewrite Nat.add_1_r.
Qed.

Lemma next_run w this obj c e :
  heap w !! this = Some obj -> fields obj = Some c -> enumerator c = Some e ->
  next this w =
    match children c !! S (currentIndex e) with
    | Some _ => (Returns true, at_cursor this (S (currentIndex e)) w)
    | None => (Returns false, w)
    end.
Proof.
  intros Hobj Hc He. unfold next.
  rewrite (bind_run _ _ _ _ _ (hasNext_run _ _ _ _ _ Hobj Hc He)).
  destruct (children c !! S (currentIndex e)) as [child|] eqn:Hn.
  - rewrite bool_decide_eq_true_2 by eauto.
    rewrite (bind_run _ _ _ _ _ (get_enumerator_run _ _ _ _ _ Hobj Hc He)).
    rewrite Nat.add_1_r.
    now rewrite (bind_run _ _ _ _ _ (set_enumerator_run _ _ _ _ _ Hobj Hc)).
  - rewrite bool_decide_eq_false_2; [reflexivity|].
    intros [x Hx]. discriminate.
Qed.

(** The prologue leaves the cursor on the entry child. *)
Lemma init_unless_kept_run w this obj c :
  heap w !! this = Some obj -> fields obj = Some c ->
  init_unless_kept this w = (Returns tt, at_cursor this (entry c) w).
Proof.
  intros Hobj Hc. unfold init_unless_kept, entry.
  rewrite (bind_run _ _ _ _ _ (get_fields_some _ _ _ _ Hobj Hc)).
  destruct (enumerator c) as [[k]|] eqn:He; simpl.
  - destruct (keepState c); simpl.
    + unfold ret. f_equal. symmetry. eapply at_cursor_same; eauto.
    + eapply init_run; eauto.
  - eapply init_run; eauto.
Qed.

(** What a read that returned tells about the store. *)
Lemma bind_returns {A B} (m : Call Payload A) (k : A -> Call Payload B) w b w' :
  bind m k w = (Returns b, w') ->
  exists a w1, m w = (Returns a, w1) /\ k a w1 = (Returns b, w').
Proof.
  unfold bind. destruct (m w) as [[a|e|] w1]; intros H; try discriminate.
  now exists a, w1.
Qed.

Lemma kids_fields obj c : fields obj = Some c -> kids obj = children c.
Proof. destruct obj; simpl; congruence. Qed.

Lemma deref_returns w a obj w' :
  deref a w = (Returns obj, w') -> w' = w /\ heap w !! a = Some obj.
Proof.
  unfold deref. destruct (heap w !! a); intros H; [|discriminate].
  now injection H as <- <-.
Qed.

Lemma get_fields_returns w this c w' :
  get_fields this w = (Returns c, w') ->
  w' = w /\ exists obj, heap w !! this = Some obj /\ fields obj = Some c.
Proof.
  unfold get_fields. intros H.
  apply bind_returns in H as (obj & w1 & Hd & H).
  apply deref_returns in Hd as [-> Hobj].
  destruct (fields obj) eqn:Hc; [|discriminate].
  injection H as <- <-. eauto.
Qed.

Lemma current_child w this child w' :
  current this w = (Returns (Some child), w') ->
  w' = w /\ exists obj, heap w !! this = Some obj /\ child ∈ kids obj.
Proof.
  unfold current. intros H.
  apply bind_returns in H as (c & w1 & Hf & H).
  apply get_fields_returns in Hf as [-> (obj & Hobj & Hc)].
  apply bind_returns in H as (e & w2 & He & H).
  unfold get_enumerator in He.
  apply bind_returns in He as (c' & w3 & Hf' & He).
  apply get_fields_returns in Hf' as [-> _].
  destruct (enumerator c'); [|discriminate]. injection He as _ <-.
  injection H as H <-. split; [reflexivity|].
  exists obj. split; [exact Hobj|]. rewrite (kids_fields _ _ Hc).
  eapply list_elem_of_lookup_2; eauto.
Qed.

Lemma reads_bind {A B} (m : Call Payload A) (k : A -> Call Payload B) :
  reads m -> (forall a, reads (k a)) -> reads (bind m k).
Proof.
  intros Hm Hk w r w' H. unfold bind in H.
  destruct (m w) as [[a|e|] w1] eqn:E; rewrite <- (Hm _ _ _ E).
  - eapply Hk; eauto.
  - now injection H as _ <-.
  - now injection H as _ <-.
Qed.

Lemma reads_ret {A} (a : A) : reads (Payload := Payload) (ret a).
Proof. intros w r w' H. now injection H as _ <-. Qed.

Lemma reads_throw {A} e : reads (Payload := Payload) (A := A) (throw e).
Proof. intros w r w' H. now injection H as _ <-. Qed.

Lemma reads_deref a : reads (Payload := Payload) (deref a).
Proof.
  intros w r w' H. unfold deref in H.
  destruct (heap w !! a); now injection H as _ <-.
Qed.

Lemma reads_get_fields this : reads (Payload := Payload) (get_fields this).
Proof.
  unfold get_fields. apply reads_bind; [apply reads_deref|]. intros obj.
  destruct (fields obj); [apply reads_ret|apply reads_throw].
Qed.

Lemma reads_get_enumerator this : reads (Payload := Payload) (get_enumerator this).
Proof.
  unfold get_enumerator. apply reads_bind; [apply reads_get_fields|]. intros c.
  destruct (enumerator c); [apply reads_ret|apply reads_throw].
Qed.

Lemma reads_current this : reads (Payload := Payload) (current this).
Proof.
  unfold current. apply reads_bind; [apply reads_get_fields|]. intros c.
  apply reads_bind; [apply reads_get_enumerator|]. intros e. apply reads_ret.
Qed.

End Store.

(** * Promises and their jobs *)

Section Jobs.

Context {Payload : Type}.
Implicit Types (w : World Payload).

Lemma Promise_induction {A} (P : Promise Payload A -> Prop) :
  (forall r, P (Settled r)) ->
  (forall job, (forall w, P (job w).1) -> P (Pending job)) ->
  forall p, P p.
Proof.
  intros Hs Hp. fix IH 1. intros [r|job]; [apply Hs|].
  apply Hp. intros w. apply IH.
Qed.

(** Awaited alone, a promise and what follows its [await] run one after
    the other. *)
Lemma drain_await {A B} (p : Promise Payload A)
    (k : Completion A -> Async Payload B) w :
  drain (await p k) w =
    match drain p w with
    | (OutOfFuel, w1) => (OutOfFuel, w1)
    | (r, w1) => let (q, w2) := k r w1 in drain q w2
    end.
Proof.
  revert w. induction p as [r|job IH] using Promise_induction; intros w.
  - destruct r; reflexivity.
  - simpl. specialize (IH w). destruct (job w) as [p' w']. apply IH.
Qed.

Lemma await_bottom {A B} (p : Promise Payload A)
    (k : Completion A -> Async Payload B) :
  await p k <> Settled OutOfFuel -> p <> Settled OutOfFuel.
Proof. intros H ->. now apply H. Qed.

Lemma bottom_or_not {A} (p : Promise Payload A) :
  p = Settled OutOfFuel \/ p <> Settled OutOfFuel.
Proof. destruct p as [[]|]; (now left) || (now right). Qed.

Lemma both_bottom_r {A} (p : Promise Payload A) :
  both p (Settled OutOfFuel) = Settled OutOfFuel.
Proof. now destruct p as [[]|]. Qed.

Lemma both_bottom {A} (p : Promise Payload A) q :
  both p q <> Settled OutOfFuel ->
  p <> Settled OutOfFuel /\ q <> Settled OutOfFuel.
Proof.
  intros H. split; intros ->; apply H; [reflexivity|apply both_bottom_r].
Qed.

Lemma both_settled {A} (r : Completion A) rs :
  r <> OutOfFuel ->
  both (Payload := Payload) (Settled r) (Settled rs) = Settled (collect r rs).
Proof. now destruct r. Qed.

Lemma both_held {A} (r : Completion A) jq :
  r <> OutOfFuel ->
  both (Payload := Payload) (Settled r) (Pending jq) =
    Pending (fun w => let (q', w') := jq w in (both (Settled r) q', w')).
Proof. now destruct r. Qed.

Lemma both_wait {A} (jp : World Payload -> Promise Payload A * World Payload) rs :
  rs <> OutOfFuel ->
  both (Pending jp) (Settled rs) =
    Pending (fun w => let (p', w') := jp w in (both p' (Settled rs), w')).
Proof. now destruct rs. Qed.

Lemma both_turn {A} (jp : World Payload -> Promise Payload A * World Payload) jq :
  both (Pending jp) (Pending jq) =
    Pending (fun w =>
               let (p', w1) := jp w in
               match p' with
               | Settled OutOfFuel => (Settled OutOfFuel, w1)
               | _ => let (q', w2) := jq w1 in (both p' q', w2)
               end).
Proof. reflexivity. Qed.

Lemma turn_goes_on {A} (p' : Promise Payload A) w1
    (jq : World Payload ->
          Promise Payload (list (Completion A)) * World Payload) :
  p' <> Settled OutOfFuel ->
  match p' with
  | Settled OutOfFuel => (Settled OutOfFuel, w1)
  | _ => let (q', w2) := jq w1 in (both p' q', w2)
  end = let (q', w2) := jq w1 in (both p' q', w2).
Proof. now destruct p' as [[]|]. Qed.

Lemma together_bottom {A} (ps : list (Promise Payload A)) :
  Exists (fun p => p = Settled OutOfFuel) ps -> together ps = Settled OutOfFuel.
Proof.
  induction 1 as [p ps ->|p ps _ IH]; unfold together in *; simpl.
  - reflexivity.
  - rewrite IH. apply both_bottom_r.
Qed.

End Jobs.

(** * More fuel changes no outcome *)

Section Fuel.

Context {Payload : Type}.
Implicit Types (w : World Payload) (obj : NodeObj Payload) (c : Composite).

Lemma refines_refl {A} (m : Call Payload A) : refines m m.
Proof. now intros w r w' H _. Qed.

Lemma refines_bind {A B} (m1 m2 : Call Payload A) (k1 k2 : A -> Call Payload B) :
  refines m1 m2 -> (forall a, refines (k1 a) (k2 a)) ->
  refines (bind m1 k1) (bind m2 k2).
Proof.
  intros Hm Hk w r w' H Hr. unfold bind in *.
  destruct (m1 w) as [[a|e|] w1] eqn:E.
  - rewrite (Hm _ _ _ E) by discriminate. now apply Hk.
  - rewrite (Hm _ _ _ E) by discriminate. exact H.
  - inversion H; subst. contradiction.
Qed.

(** ** The same for promises: jobs that ran out of fuel, with more fuel *)

Lemma approx_refl {A} (p : Promise Payload A) : approx p p.
Proof.
  induction p as [r|job IH] using Promise_induction.
  - now destruct r.
  - intros w. specialize (IH w). destruct (job w) as [q w1]. now split.
Qed.

Lemma approx_settled {A} (p p' : Promise Payload A) :
  approx p p' -> p <> Settled OutOfFuel -> p' <> Settled OutOfFuel.
Proof.
  intros H Hp ->. destruct p as [[]|job]; simpl in H; try discriminate;
    [now apply Hp|exact H].
Qed.

Lemma refines_job_refl {A} (b : Async Payload A) : refines_job b b.
Proof. intros w. destruct (b w) as [q w1]. split; [apply approx_refl|reflexivity]. Qed.

Lemma approx_await {A B} (k k' : Completion A -> Async Payload B) :
  (forall r, refines_job (k r) (k' r)) ->
  forall p p' : Promise Payload A, approx p p' -> approx (await p k) (await p' k').
Proof.
  intros Hk. induction p as [r|job IH] using Promise_induction; intros p' Hp.
  - destruct r; simpl in Hp; subst; simpl; try exact I; apply Hk.
  - destruct p' as [r'|job']; [destruct Hp|]. simpl. intros w.
    specialize (Hp w). specialize (IH w).
    destruct (job w) as [q w1], (job' w) as [q' w1']. destruct Hp as [Hq Hw].
    split; [now apply IH|]. intros Hne. apply Hw. now apply await_bottom in Hne.
Qed.

Lemma refines_bottom {A} (x : Promise Payload A * World Payload) w1 :
  let (q', w1') := x in
  approx (Settled OutOfFuel) q' /\
  (@Settled Payload A OutOfFuel <> Settled OutOfFuel -> w1' = w1).
Proof. destruct x. split; [exact I|congruence]. Qed.

Lemma refines_job_finished {A} (m m' : Call Payload A) :
  refines m m' -> refines_job (finished m) (finished m').
Proof.
  intros Hm w. unfold finished. destruct (m w) as [r w1] eqn:E.
  destruct r as [a|e|].
  - rewrite (Hm _ _ _ E) by discriminate. now split.
  - rewrite (Hm _ _ _ E) by discriminate. now split.
  - apply refines_bottom.
Qed.

Lemma refines_job_sync {A B} (m m' : Call Payload A) (k k' : A -> Async Payload B) :
  refines m m' -> (forall a, refines_job (k a) (k' a)) ->
  refines_job (sync m k) (sync m' k').
Proof.
  intros Hm Hk w. unfold sync. destruct (m w) as [[a|e|] w1] eqn:E.
  - rewrite (Hm _ _ _ E) by discriminate. apply Hk.
  - rewrite (Hm _ _ _ E) by discriminate. now split.
  - apply refines_bottom.
Qed.

Lemma refines_job_try_awaiting {A B} (m m' : Call Payload (Promise Payload A))
    (k k' : Completion A -> Async Payload B) :
  refines_spawn m m' -> (forall r, refines_job (k r) (k' r)) ->
  refines_job (try_awaiting m k) (try_awaiting m' k').
Proof.
  intros Hm Hk w. unfold try_awaiting. specialize (Hm w).
  destruct (m w) as [[p|e|] w1].
  - destruct (Hm _ _ eq_refl) as (p' & w'' & -> & Hp & Hw).
    split; [now apply approx_await|]. intros Hne. apply Hw.
    now apply await_bottom in Hne.
  - rewrite (Hm _ _ eq_refl). apply Hk.
  - apply refines_bottom.
Qed.

Lemma refines_job_rethrow {A B} (k k' : A -> Async Payload B) r :
  (forall a, refines_job (k a) (k' a)) -> refines_job (rethrow k r) (rethrow k' r).
Proof. intros Hk. destruct r; [apply Hk|apply refines_job_refl..]. Qed.

Lemma refines_job_awaiting {A B} (m m' : Call Payload (Promise Payload A))
    (k k' : A -> Async Payload B) :
  refines_spawn m m' -> (forall a, refines_job (k a) (k' a)) ->
  refines_job (awaiting m k) (awaiting m' k').
Proof.
  intros Hm Hk. apply refines_job_try_awaiting; [exact Hm|].
  intros r. now apply refines_job_rethrow.
Qed.

Lemma refines_job_proceed {A} (m m' : Call Payload (Promise Payload A)) :
  refines_spawn m m' -> refines_job (proceed m) (proceed m').
Proof.
  intros Hm w. unfold proceed, sync. specialize (Hm w).
  destruct (m w) as [[p|e|] w1].
  - destruct (Hm _ _ eq_refl) as (p' & w'' & -> & Hp & Hw). now split.
  - rewrite (Hm _ _ eq_refl). now split.
  - apply refines_bottom.
Qed.

Lemma refines_spawn_refl {A} (m : Call Payload (Promise Payload A)) :
  refines_spawn m m.
Proof.
  intros w [p|e|] w' H; [|exact H|exact I].
  exists p, w'. split; [exact H|]. split; [apply approx_refl|reflexivity].
Qed.

Lemma refines_spawn_async {A} (b b' : Async Payload A) :
  refines_job b b' -> refines_spawn (async b) (async b').
Proof.
  intros Hb w r w' H. unfold async in *. specialize (Hb w).
  destruct (b w) as [p w1], (b' w) as [p' w1']. injection H as <- <-.
  destruct Hb as [Hp Hw]. now exists p', w1'.
Qed.

Lemma approx_both {A} : forall (p p' : Promise Payload A) q q',
  approx p p' -> approx q q' -> approx (both p q) (both p' q').
Proof.
  induction p as [r|job1 IHp] using Promise_induction; intros p' q q' Hp Hq.
  - destruct r as [a|e|]; simpl in Hp; subst; [| |exact I].
    + revert q' Hq. induction q as [rq|job2 IHq] using Promise_induction;
        intros q' Hq.
      * destruct rq; simpl in Hq; subst; simpl; try exact I; reflexivity.
      * destruct q' as [rq'|job2']; [destruct Hq|]. simpl. intros w.
        specialize (Hq w). specialize (IHq w).
        destruct (job2 w) as [q1 w1], (job2' w) as [q1' w1'].
        destruct Hq as [Hq1 Hw]. split; [now apply IHq|].
        intros Hne. apply Hw. intros ->. now apply Hne.
    + revert q' Hq. induction q as [rq|job2 IHq] using Promise_induction;
        intros q' Hq.
      * destruct rq; simpl in Hq; subst; simpl; try exact I; reflexivity.
      * destruct q' as [rq'|job2']; [destruct Hq|]. simpl. intros w.
        specialize (Hq w). specialize (IHq w).
        destruct (job2 w) as [q1 w1], (job2' w) as [q1' w1'].
        destruct Hq as [Hq1 Hw]. split; [now apply IHq|].
        intros Hne. apply Hw. intros ->. now apply Hne.
  - destruct p' as [r'|job1']; [destruct Hp|].
    destruct q as [[rs|e|]|job2]; simpl in Hq; subst; try exact I.
    + simpl. intros w. specialize (Hp w). specialize (IHp w).
      destruct (job1 w) as [p1 w1], (job1' w) as [p1' w1'].
      destruct Hp as [Hp1 Hw]. split.
      * apply IHp; [exact Hp1|reflexivity].
      * intros Hne. apply Hw. now apply both_bottom in Hne.
    + simpl. intros w. specialize (Hp w). specialize (IHp w).
      destruct (job1 w) as [p1 w1], (job1' w) as [p1' w1'].
      destruct Hp as [Hp1 Hw]. split.
      * apply IHp; [exact Hp1|reflexivity].
      * intros Hne. apply Hw. now apply both_bottom in Hne.
    + destruct q' as [rq'|job2']; [destruct Hq|]. simpl. intros w.
      specialize (Hp w). specialize (IHp w).
      destruct (job1 w) as [p1 w1], (job1' w) as [p1' w1'].
      destruct Hp as [Hp1 Hw].
          assert (Hstep : p1 <> Settled OutOfFuel ->
        let (q1, w2) := job2 w1 in
        let (q1', w2') := job2' w1' in
        approx (both p1 q1) (both p1' q1') /\
        (both p1 q1 <> Settled OutOfFuel -> w2' = w2)).
      { intros Hne. rewrite (Hw Hne). specialize (Hq w1).
        destruct (job2 w1) as [q1 w2], (job2' w1) as [q1' w2'].
        destruct Hq as [Hq1 Hw2]. split; [now apply IHp|].
        intros Hb. apply Hw2. now apply both_bottom in Hb. }
      pose proof (approx_settled _ _ Hp1) as Hp1'.
      destruct p1 as [[a|e|]|j]; [| |apply refines_bottom|];
        specialize (Hstep ltac:(discriminate));
        specialize (Hp1' ltac:(discriminate));
        destruct (job2 w1) as [q1 w2], (job2' w1') as [q1' w2'];
        destruct p1' as [[a'|e'|]|j'];
        first [exact Hstep|now destruct Hp1'|now destruct Hp1|discriminate Hp1].
Qed.

Lemma approx_together {A} (ps ps' : list (Promise Payload A)) :
  Forall2 approx ps ps' -> approx (together ps) (together ps').
Proof.
  unfold together. induction 1 as [|p p' ps ps' Hp _ IH]; simpl.
  - reflexivity.
  - now apply approx_both.
Qed.

(** A promise that has settled settles the same way with more fuel. *)
Lemma drain_approx {A} : forall (p p' : Promise Payload A) w r w',
  approx p p' -> drain p w = (r, w') -> r <> OutOfFuel -> drain p' w = (r, w').
Proof.
  induction p as [r0|job IH] using Promise_induction; intros p' w r w' Hp H Hr.
  - simpl in H. injection H as <- <-. destruct r0; simpl in Hp; subst;
      [reflexivity..|contradiction].
  - destruct p' as [r'|job']; [destruct Hp|]. simpl in *.
    specialize (Hp w). specialize (IH w).
    destruct (job w) as [q w1], (job' w) as [q' w1']. destruct Hp as [Hq Hw].
    assert (Hne : q <> Settled OutOfFuel).
    { intros ->. simpl in H. injection H as <- _. contradiction. }
    rewrite (Hw Hne). now apply (IH q').
Qed.

Lemma approx_Promise_all {A} (ps ps' : list (Promise Payload A)) :
  Forall2 approx ps ps' -> approx (Promise_all ps) (Promise_all ps').
Proof.
  intros H. unfold Promise_all. destruct H as [|p p' ps ps' Hp Hps]; [reflexivity|].
  apply approx_await; [intros r; apply refines_job_refl|].
  apply approx_together. now constructor.
Qed.

Lemma Promise_all_bottom {A} (ps : list (Promise Payload A)) :
  Exists (fun p => p = Settled OutOfFuel) ps -> Promise_all ps = Settled OutOfFuel.
Proof.
  intros H. unfold Promise_all. rewrite (together_bottom _ H). now destruct H.
Qed.

(** Calls started one after the other, with more fuel. *)
Lemma mapM_async_refines {X A} (b b' : X -> Async Payload A) (xs : list X) :
  (forall x, refines_job (b x) (b' x)) ->
  forall w,
    exists ps w1 ps' w1',
      mapM (fun x => async (b x)) xs w = (Returns ps, w1) /\
      mapM (fun x => async (b' x)) xs w = (Returns ps', w1') /\
      (Exists (fun p => p = Settled OutOfFuel) ps \/
       (w1' = w1 /\ Forall2 approx ps ps')).
Proof.
  intros Hb. induction xs as [|x xs IH]; intros w.
  - exists [], w, [], w. repeat split. right. split; constructor.
  - simpl. unfold bind at 1 3, async at 1 3. specialize (Hb x w).
    destruct (b x w) as [p w1], (b' x w) as [p' w1']. destruct Hb as [Hp Hw].
    destruct (IH w1) as (ps & w2 & ps1 & w21 & E1 & E1' & H1).
    destruct (IH w1') as (ps0 & w20 & ps' & w2' & E2 & E2' & H2).
    unfold bind. rewrite E1, E2'. exists (p :: ps), w2, (p' :: ps'), w2'.
    repeat split.
    destruct (bottom_or_not p) as [->|Hne].
    { left. now left. }
    rewrite (Hw Hne) in *. rewrite E1' in E2'. injection E2' as <- <-.
    destruct H1 as [H1|[-> H1]]; [left; now right|].
    right. split; [reflexivity|now constructor].
Qed.

Lemma refines_job_ParallelNode_tick
    (t1 t2 : addr -> Call Payload (Promise Payload BehaviorTreeStatus))
    requiredToFail requiredToSucceed children :
  (forall a, refines_spawn (t1 a) (t2 a)) ->
  refines_job (ParallelNode_tick_async t1 requiredToFail requiredToSucceed children)
              (ParallelNode_tick_async t2 requiredToFail requiredToSucceed children).
Proof.
  intros Ht w. unfold ParallelNode_tick_async, sync.
  destruct (mapM_async_refines (ParallelNode_tickChildren t1)
              (ParallelNode_tickChildren t2) children) with (w := w)
    as (ps & w1 & ps' & w1' & -> & -> & H).
  { intros child. apply refines_job_try_awaiting; [apply Ht|].
    intros r. apply refines_job_refl. }
  unfold awaiting, try_awaiting, ret.
  destruct H as [H|[-> H]].
  - rewrite (Promise_all_bottom _ H). split; [exact I|]. simpl. congruence.
  - split; [|reflexivity].
    apply approx_await; [intros r; apply refines_job_refl|].
    now apply approx_Promise_all.
Qed.

Lemma refines_spawn_bind {X A} (m : Call Payload X)
    (k k' : X -> Call Payload (Promise Payload A)) :
  (forall x, refines_spawn (k x) (k' x)) ->
  refines_spawn (bind m k) (bind m k').
Proof.
  intros Hk w r w' H. unfold bind in *.
  destruct (m w) as [[x|e|] w1].
  - now apply Hk.
  - injection H as <- <-. reflexivity.
  - now injection H as <- <-.
Qed.

Lemma refines_finish {A} (m m' : Call Payload (Promise Payload A)) :
  refines_spawn m m' -> refines (finish m) (finish m').
Proof.
  intros Hm w r w' H Hr. unfold finish, bind in *. specialize (Hm w).
  destruct (m w) as [[p|e|] w1].
  - destruct (Hm _ _ eq_refl) as (p' & w2 & -> & Hp & Hw).
    assert (Hne : p <> Settled OutOfFuel).
    { intros ->. simpl in H. injection H as <- _. contradiction. }
    rewrite (Hw Hne). eapply drain_approx; eauto.
  - now rewrite (Hm _ _ eq_refl).
  - injection H as <- _. contradiction.
Qed.

Ltac job_step :=
  first
    [ apply refines_job_refl | apply refines_spawn_refl | apply refines_refl
    | apply refines_job_ParallelNode_tick
    | apply refines_job_awaiting; [|intros ?]
    | apply refines_job_try_awaiting; [|intros ?]
    | apply refines_job_sync; [apply refines_refl|intros ?]
    | apply refines_job_proceed
    | apply refines_spawn_async
    | apply refines_spawn_bind; intros ?
    | match goal with
      | H : forall a, refines_spawn _ _ |- _ => apply H
      | |- refines_job (match ?x with _ => _ end) _ => destruct x
      | |- refines_job (if ?x then _ else _) _ => destruct x
      | |- refines_spawn (match ?x with _ => _ end) _ => destruct x
      end ].

Lemma refines_dispatch_async
    (t1 t2 l1 l2 : addr -> Call Payload (Promise Payload BehaviorTreeStatus)) e :
  (forall a, refines_spawn (t1 a) (t2 a)) ->
  (forall a, refines_spawn (l1 a) (l2 a)) ->
  refines_spawn (dispatch_async t1 l1 e) (dispatch_async t2 l2 e).
Proof.
  intros Ht Hl. destruct e as [this|this]; unfold dispatch_async.
  - apply refines_spawn_bind. intros obj. apply refines_spawn_async.
    destruct obj;
      unfold InverterNode_tick_async, SelectorNode_tick_async,
        RepeatNode_tick_async, UntilFailNode_tick_async, SequenceNode_tick_async;
      repeat job_step.
  - apply refines_spawn_async. apply refines_job_sync; [apply refines_refl|].
    intros obj.
    destruct obj;
      unfold SelectorNode_do_while_async, RepeatNode_do_while_async,
        UntilFailNode_do_while_async, SequenceNode_do_while_async,
        tick_current_async;
      repeat job_step.
Qed.

Lemma run_async_S fuel e :
  run_async (Payload := Payload) (S fuel) e =
    dispatch_async (fun child => run_async fuel (Tick child))
                   (fun node => run_async fuel (DoWhile node)) e.
Proof. reflexivity. Qed.

Lemma run_async_step fuel : forall e,
  refines_spawn (run_async (Payload := Payload) fuel e) (run_async (S fuel) e).
Proof.
  induction fuel as [|fuel IH]; intros e.
  - intros w r w' H. simpl in H. unfold diverge in H. now injection H as <- _.
  - rewrite (run_async_S (S fuel)), (run_async_S fuel).
    apply refines_dispatch_async; intros a; apply IH.
Qed.

Lemma approx_trans {A} : forall p p1 p2 : Promise Payload A,
  approx p p1 -> approx p1 p2 -> approx p p2.
Proof.
  induction p as [r|job IH] using Promise_induction; intros p1 p2 H1 H2.
  - destruct r; simpl in *; subst; [exact H2..|exact I].
  - destruct p1 as [r1|job1]; [destruct H1|].
    destruct p2 as [r2|job2]; [destruct H2|]. simpl in *. intros w.
    specialize (H1 w). specialize (H2 w). specialize (IH w).
    destruct (job w) as [q w1], (job1 w) as [q1 w11], (job2 w) as [q2 w12].
    destruct H1 as [Hq Hw], H2 as [Hq1 Hw1].
    split; [now apply (IH q1)|].
    intros Hne. rewrite <- (Hw Hne). apply Hw1. now apply (approx_settled q).
Qed.

Lemma refines_spawn_trans {A} (m1 m2 m3 : Call Payload (Promise Payload A)) :
  refines_spawn m1 m2 -> refines_spawn m2 m3 -> refines_spawn m1 m3.
Proof.
  intros H12 H23 w r w' H. specialize (H12 _ _ _ H). destruct r as [p|e|].
  - destruct H12 as (p1 & w1 & E & Hp & Hw).
    destruct (H23 _ _ _ E) as (p2 & w2 & E2 & Hp2 & Hw2).
    exists p2, w2. split; [exact E2|]. split; [now apply (approx_trans p p1)|].
    intros Hne. rewrite <- (Hw Hne). apply Hw2. now apply (approx_settled p).
  - exact (H23 _ _ _ H12).
  - exact I.
Qed.

Lemma run_async_mono fuel fuel' e :
  (fuel <= fuel')%nat ->
  refines_spawn (run_async (Payload := Payload) fuel e) (run_async fuel' e).
Proof.
  intros Hle. induction Hle as [|m Hle IH]; [apply refines_spawn_refl|].
  eapply refines_spawn_trans; [exact IH|apply run_async_step].
Qed.

Ltac refines_step :=
  first
    [ apply refines_refl
    | apply refines_bind; [|intros ?]
    | match goal with
      | H : forall a, refines _ _ |- _ => apply H
      | |- refines (match ?x with _ => _ end) _ => destruct x
      | |- refines (if ?x then _ else _) _ => destruct x
      end ].

Lemma refines_dispatch (t1 t2 l1 l2 : addr -> Call Payload BehaviorTreeStatus)
    (s1 s2 : addr -> Call Payload (Promise Payload BehaviorTreeStatus)) e :
  (forall a, refines (t1 a) (t2 a)) -> (forall a, refines (l1 a) (l2 a)) ->
  (forall a, refines_spawn (s1 a) (s2 a)) ->
  refines (dispatch t1 l1 s1 e) (dispatch t2 l2 s2 e).
Proof.
  intros Ht Hl Hs. destruct e as [this|this]; unfold dispatch.
  - apply refines_bind; [apply refines_refl|]. intros obj.
    destruct obj;
      try (apply refines_finish, refines_spawn_async,
             refines_job_ParallelNode_tick, Hs);
      unfold InverterNode_tick,
        SelectorNode_tick, RepeatNode_tick, UntilFailNode_tick, SequenceNode_tick;
      repeat refines_step.
  - apply refines_bind; [apply refines_refl|]. intros obj.
    destruct obj;
      unfold SelectorNode_do_while, RepeatNode_do_while, UntilFailNode_do_while,
        SequenceNode_do_while, tick_current;
      repeat refines_step.
Qed.

Lemma run_S fuel e :
  run (Payload := Payload) (S fuel) e =
    dispatch (fun child => run fuel (Tick child)) (fun node => run fuel (DoWhile node))
             (fun child => run_async fuel (Tick child)) e.
Proof. reflexivity. Qed.

Lemma run_step fuel : forall e, refines (run (Payload := Payload) fuel e) (run (S fuel) e).
Proof.
  induction fuel as [|fuel IH]; intros e.
  - intros w r w' H Hr. simpl in H. unfold diverge in H. congruence.
  - rewrite (run_S (S fuel)), (run_S fuel).
    apply refines_dispatch; intros a; [apply IH..|apply run_async_step].
Qed.

(** A call that has settled settles the same way with more fuel. *)
Lemma run_mono fuel fuel' e w r w' :
  run fuel e w = (r, w') -> r <> OutOfFuel -> (fuel <= fuel')%nat ->
  run fuel' e w = (r, w').
Proof.
  intros H Hr Hle. induction Hle as [|m Hle IH]; [exact H|].
  now apply run_step.
Qed.

Lemma tick_mono fuel fuel' a w s w' :
  tick fuel a w = (Returns s, w') -> (fuel <= fuel')%nat ->
  tick fuel' a w = (Returns s, w').
Proof. intros H Hle. unfold tick in *. eapply run_mono; eauto. Qed.

End Fuel.

(** * One tick of a sequential composite, round by round *)

Section Rounds.

Context {Payload : Type}.
Implicit Types (w : World Payload) (obj : NodeObj Payload) (c : Composite).
Implicit Types (tk lp : addr -> Call Payload BehaviorTreeStatus).
Implicit Types (sp : addr -> Call Payload (Promise Payload BehaviorTreeStatus)).

(** The prologue: the cursor goes to the entry child; without such a child
    the tick is over, otherwise the loop is entered. *)
Lemma dispatch_tick tk lp sp w this obj K c :
  heap w !! this = Some obj -> kind_of obj = Some K -> fields obj = Some c ->
  dispatch tk lp sp (Tick this) w =
    match children c !! entry c with
    | Some _ => lp this (at_cursor this (entry c) w)
    | None => (Returns Running, at_cursor this (entry c) w)
    end.
Proof.
  intros Hobj HK Hc. unfold dispatch.
  rewrite (bind_run _ _ _ _ _ (deref_some _ _ _ Hobj)).
  pose proof (lookup_at_cursor _ _ _ (entry c) Hobj) as Hobj'.
  pose proof (fields_put_cursor _ _ (entry c) Hc) as Hc'.
  destruct obj; simpl in HK; try discriminate;
    unfold SelectorNode_tick, RepeatNode_tick, UntilFailNode_tick, SequenceNode_tick;
    rewrite (bind_run _ _ _ _ _ (init_unless_kept_run _ _ _ _ Hobj Hc));
    rewrite (bind_run _ _ _ _ _ (current_run _ _ _ _ _ Hobj' Hc' eq_refl));
    simpl; destruct (children c !! entry c); reflexivity.
Qed.

(** One round of the loop: the current child is ticked, and its completion
    is settled. *)
Lemma dispatch_round tk lp sp w this obj K c k child r w1 :
  heap w !! this = Some obj -> kind_of obj = Some K -> fields obj = Some c ->
  enumerator c = Some {| currentIndex := k |} -> children c !! k = Some child ->
  tk child w = (r, w1) ->
  dispatch tk lp sp (DoWhile this) w = settle K lp this r w1.
Proof.
  intros Hobj HK Hc He Hchild Htk. unfold dispatch.
  rewrite (bind_run _ _ _ _ _ (deref_some _ _ _ Hobj)).
  assert (Hcur : tick_current tk this w = (r, w1)).
  { unfold tick_current.
    rewrite (bind_run _ _ _ _ _ (current_run _ _ _ _ _ Hobj Hc He)).
    simpl. now rewrite Hchild. }
  destruct obj; simpl in HK; try discriminate;
    injection HK as <-;
    unfold SelectorNode_do_while, RepeatNode_do_while, UntilFailNode_do_while,
      SequenceNode_do_while;
    rewrite (bind_run _ _ _ _ _ Hcur);
    destruct r as [[]| |]; reflexivity.
Qed.

(** A child that stops the pass. *)
Lemma round_stops tk lp sp w this obj K c k child s w1 :
  heap w !! this = Some obj -> kind_of obj = Some K -> fields obj = Some c ->
  enumerator c = Some {| currentIndex := k |} -> children c !! k = Some child ->
  tk child w = (Returns s, w1) -> heap w1 !! this = heap w !! this ->
  s <> continues K ->
  dispatch tk lp sp (DoWhile this) w =
    (Returns (stopped K s),
     if decide (s = resets K) then at_cursor this 0 w1 else w1).
Proof.
  intros Hobj HK Hc He Hchild Htk Hframe Hs.
  rewrite (dispatch_round _ _ _ _ _ _ _ _ _ _ _ _ Hobj HK Hc He Hchild Htk).
  rewrite Hobj in Hframe. unfold settle.
  destruct (decide (s = continues K)); [contradiction|].
  destruct (decide (s = resets K)).
  - now rewrite (bind_run _ _ _ _ _ (reset_run _ _ _ _ _ Hframe Hc He)).
  - reflexivity.
Qed.

(** A child that lets the pass go on: to the next child if there is one,
    to the end of the pass otherwise. *)
Lemma round_continues tk lp sp w this obj K c k child w1 :
  heap w !! this = Some obj -> kind_of obj = Some K -> fields obj = Some c ->
  enumerator c = Some {| currentIndex := k |} -> children c !! k = Some child ->
  tk child w = (Returns (continues K), w1) -> heap w1 !! this = heap w !! this ->
  dispatch tk lp sp (DoWhile this) w =
    match children c !! S k with
    | Some _ => lp this (at_cursor this (S k) w1)
    | None => (Returns (exhausted K), at_cursor this 0 w1)
    end.
Proof.
  intros Hobj HK Hc He Hchild Htk Hframe.
  rewrite (dispatch_round _ _ _ _ _ _ _ _ _ _ _ _ Hobj HK Hc He Hchild Htk).
  rewrite Hobj in Hframe. unfold settle.
  destruct (decide (continues K = continues K)); [|contradiction].
  pose proof (next_run _ _ _ _ _ Hframe Hc He) as Hnext. simpl in Hnext.
  destruct (children c !! S k).
  - now rewrite (bind_run _ _ _ _ _ Hnext).
  - rewrite (bind_run _ _ _ _ _ Hnext).
    now rewrite (bind_run _ _ _ _ _ (reset_run _ _ _ _ _ Hframe Hc He)).
Qed.

(** A child that throws, or whose call never settles. *)
Lemma round_aborts tk lp sp w this obj K c k child r w1 :
  heap w !! this = Some obj -> kind_of obj = Some K -> fields obj = Some c ->
  enumerator c = Some {| currentIndex := k |} -> children c !! k = Some child ->
  tk child w = (r, w1) -> (forall s, r <> Returns s) ->
  dispatch tk lp sp (DoWhile this) w = (r, w1).
Proof.
  intros Hobj HK Hc He Hchild Htk Hr.
  rewrite (dispatch_round _ _ _ _ _ _ _ _ _ _ _ _ Hobj HK Hc He Hchild Htk).
  destruct r as [s| |]; [now destruct (Hr s)|reflexivity|reflexivity].
Qed.

Lemma passes_app s fuel this xs : forall k ys w w',
  passes s fuel this k (xs ++ ys) w w' <->
  exists w1, passes s fuel this k xs w w1 /\
             passes s fuel this (k + length xs) ys w1 w'.
Proof.
  induction xs as [|x xs IH]; intros k ys w w'; simpl.
  - rewrite Nat.add_0_r. split.
    + intros H. exists w. now split.
    + now intros (w1 & -> & H).
  - split.
    + intros (w1 & Ht & Hf & Hp). apply IH in Hp as (w2 & Hp1 & Hp2).
      exists w2. split; [now exists w1|].
      now replace (k + S (length xs))%nat with (S k + length xs)%nat by lia.
    + intros (w2 & (w1 & Ht & Hf & Hp1) & Hp2).
      exists w1. split; [exact Ht|]. split; [exact Hf|].
      apply IH. exists w2. split; [exact Hp1|].
      now replace (S k + length xs)%nat with (k + S (length xs))%nat by lia.
Qed.

(** Children that pass leave the node at [this] as it was, up to the
    cursor. *)
Lemma passes_this s fuel this mid : forall k w w1 obj,
  passes s fuel this k mid w w1 -> heap w !! this = Some obj ->
  exists obj1, heap w1 !! this = Some obj1 /\
               forall j, put_cursor j obj1 = put_cursor j obj.
Proof.
  induction mid as [|child mid IH]; intros k w w1 obj Hp Hobj; simpl in Hp.
  - subst w1. now exists obj.
  - destruct Hp as (w' & _ & Hf & Hp).
    rewrite (lookup_at_cursor _ _ _ k Hobj) in Hf.
    destruct (IH _ _ _ _ Hp Hf) as (obj1 & H1 & H2).
    exists obj1. split; [exact H1|].
    intros j. now rewrite H2, put_cursor_put_cursor.
Qed.

(** While children pass and more children follow, the loop goes on. *)
Lemma loop_passes K fuel this mid : forall k w w1 obj c rest n,
  heap w !! this = Some obj -> kind_of obj = Some K -> fields obj = Some c ->
  drop k (children c) = mid ++ rest -> rest <> [] ->
  passes (continues K) fuel this k mid w w1 -> (fuel <= n)%nat ->
  run (n + length mid) (DoWhile this) (at_cursor this k w) =
  run n (DoWhile this) (at_cursor this (k + length mid) w1).
Proof.
  induction mid as [|child mid IH]; intros k w w1 obj c rest n Hobj HK Hc Hd Hrest Hp Hn;
    simpl in Hp.
  - subst w1. simpl. now rewrite !Nat.add_0_r.
  - destruct Hp as (w' & Ht & Hf & Hp). simpl length.
    replace (n + S (length mid))%nat with (S (n + length mid)) by lia.
    rewrite run_S.
    pose proof (lookup_at_cursor _ _ _ k Hobj) as Hobj'.
    pose proof (fields_put_cursor _ _ k Hc) as Hc'.
    assert (Hk : children c !! k = Some child).
    { rewrite <- (Nat.add_0_r k), <- lookup_drop, Hd. reflexivity. }
    assert (Hd' : drop (S k) (children c) = mid ++ rest).
    { apply drop_S in Hk. rewrite Hk in Hd. simpl in Hd. congruence. }
    assert (HSk : is_Some (children c !! S k)).
    { rewrite <- (Nat.add_0_r (S k)), <- lookup_drop, Hd'.
      destruct mid; [destruct rest; [contradiction|]|]; simpl; eauto. }
    destruct HSk as [x HSk].
    erewrite (round_continues _ _ _ _ _ _ K); eauto.
    + simpl. rewrite HSk.
      assert (Hobj1 : heap w' !! this = Some (put_cursor k obj)) by now rewrite Hf.
      erewrite (IH (S k) w' w1 _ _ rest n Hobj1); eauto.
      * f_equal. f_equal. lia.
      * now rewrite kind_of_put_cursor.
    + now rewrite kind_of_put_cursor.
    + simpl. eapply (tick_mono fuel); eauto. lia.
Qed.

(** The pass comes to its end: every child from the cursor on passed. *)
Lemma pass_exhausts K fuel this mid k w w1 obj c :
  heap w !! this = Some obj -> kind_of obj = Some K -> fields obj = Some c ->
  drop k (children c) = mid -> mid <> [] ->
  passes (continues K) fuel this k mid w w1 ->
  run (fuel + length mid) (DoWhile this) (at_cursor this k w) =
    (Returns (exhausted K), at_cursor this 0 w1).
Proof.
  intros Hobj HK Hc Hd Hne Hp.
  destruct mid as [|x mid'] using rev_ind; [contradiction|]. clear IHmid'.
  apply passes_app in Hp as (wm & Hp & Hlast). simpl in Hlast.
  destruct Hlast as (w' & Ht & Hf & ->).
  rewrite length_app. simpl length.
  replace (fuel + (length mid' + 1))%nat with (S fuel + length mid')%nat by lia.
  erewrite loop_passes; eauto; try discriminate.
  rewrite run_S.
  destruct (passes_this _ _ _ _ _ _ _ _ Hp Hobj) as (objm & Hobjm & Hsame).
  pose proof (lookup_at_cursor _ _ _ (k + length mid') Hobjm) as Hobj'.
  rewrite Hsame in Hobj'.
  pose proof (fields_put_cursor _ _ (k + length mid') Hc) as Hc'.
  assert (Hk : children c !! (k + length mid')%nat = Some x).
  { rewrite <- lookup_drop, Hd. apply list_lookup_middle. reflexivity. }
  assert (HSk : children c !! S (k + length mid') = None).
  { replace (S (k + length mid')) with (k + S (length mid'))%nat by lia.
    rewrite <- lookup_drop, Hd. apply lookup_ge_None.
    rewrite length_app. simpl. lia. }
  erewrite (round_continues _ _ _ _ _ _ K); eauto.
  - simpl. now rewrite HSk.
  - now rewrite kind_of_put_cursor.
Qed.

(** The pass is stopped by the first child that does not pass. *)
Lemma pass_stops K fuel this mid k w w1 obj c child post s w2 :
  heap w !! this = Some obj -> kind_of obj = Some K -> fields obj = Some c ->
  drop k (children c) = mid ++ child :: post ->
  passes (continues K) fuel this k mid w w1 ->
  tick fuel child (at_cursor this (k + length mid) w1) = (Returns s, w2) ->
  heap w2 !! this = heap (at_cursor this (k + length mid) w1) !! this ->
  s <> continues K ->
  run (S fuel + length mid) (DoWhile this) (at_cursor this k w) =
    (Returns (stopped K s),
     if decide (s = resets K) then at_cursor this 0 w2 else w2).
Proof.
  intros Hobj HK Hc Hd Hp Ht Hf Hs.
  erewrite loop_passes; eauto; try discriminate.
  rewrite run_S.
  destruct (passes_this _ _ _ _ _ _ _ _ Hp Hobj) as (objm & Hobjm & Hsame).
  pose proof (lookup_at_cursor _ _ _ (k + length mid) Hobjm) as Hobj'.
  rewrite Hsame in Hobj'.
  pose proof (fields_put_cursor _ _ (k + length mid) Hc) as Hc'.
  assert (Hk : children c !! (k + length mid)%nat = Some child).
  { rewrite <- lookup_drop, Hd. apply list_lookup_middle. reflexivity. }
  erewrite (round_stops _ _ _ _ _ _ K); eauto.
  now rewrite kind_of_put_cursor.
Qed.

(** The pass is cut short by a child that throws. *)
Lemma pass_aborts K fuel this mid k w w1 obj c child post r w2 :
  heap w !! this = Some obj -> kind_of obj = Some K -> fields obj = Some c ->
  drop k (children c) = mid ++ child :: post ->
  passes (continues K) fuel this k mid w w1 ->
  tick fuel child (at_cursor this (k + length mid) w1) = (r, w2) ->
  (forall s, r <> Returns s) ->
  run (S fuel + length mid) (DoWhile this) (at_cursor this k w) = (r, w2).
Proof.
  intros Hobj HK Hc Hd Hp Ht Hr.
  erewrite loop_passes; eauto; try discriminate.
  rewrite run_S.
  destruct (passes_this _ _ _ _ _ _ _ _ Hp Hobj) as (objm & Hobjm & Hsame).
  pose proof (lookup_at_cursor _ _ _ (k + length mid) Hobjm) as Hobj'.
  rewrite Hsame in Hobj'.
  pose proof (fields_put_cursor _ _ (k + length mid) Hc) as Hc'.
  assert (Hk : children c !! (k + length mid)%nat = Some child).
  { rewrite <- lookup_drop, Hd. apply list_lookup_middle. reflexivity. }
  erewrite (round_aborts _ _ _ _ _ _ K); eauto.
  now rewrite kind_of_put_cursor.
Qed.

(** ** A whole tick *)

Lemma drop_entry_lookup c mid x post :
  drop (entry c) (children c) = mid ++ x :: post ->
  children c !! (entry c + length mid)%nat = Some x /\
  (length mid < length (children c))%nat.
Proof.
  intros Hd. split.
  - rewrite <- lookup_drop, Hd. now apply list_lookup_middle.
  - pose proof (f_equal length Hd) as Hl.
    rewrite length_drop, length_app in Hl. simpl in Hl. lia.
Qed.

Lemma drop_entry_first c x rest :
  drop (entry c) (children c) = x :: rest -> children c !! entry c = Some x.
Proof.
  intros Hd. rewrite <- (Nat.add_0_r (entry c)), <- lookup_drop, Hd. reflexivity.
Qed.

(** A tick is its first round, on the entry child. *)
Lemma tick_enters K n this w obj c child :
  heap w !! this = Some obj -> kind_of obj = Some K -> fields obj = Some c ->
  children c !! entry c = Some child ->
  tick (S (S n)) this w =
    let (r, w1) := tick n child (at_cursor this (entry c) w) in
    settle K (fun node => run n (DoWhile node)) this r w1.
Proof.
  intros Hobj HK Hc Hchild. unfold tick at 1. rewrite run_S.
  rewrite (dispatch_tick _ _ _ _ _ _ K _ Hobj HK Hc), Hchild, run_S.
  destruct (tick n child (at_cursor this (entry c) w)) as [r w1] eqn:Ht.
  eapply dispatch_round; eauto using lookup_at_cursor, fields_put_cursor.
  now rewrite kind_of_put_cursor.
Qed.

Lemma tick_exhausts K fuel this w w1 obj c n :
  heap w !! this = Some obj -> kind_of obj = Some K -> fields obj = Some c ->
  drop (entry c) (children c) <> [] ->
  passes (continues K) fuel this (entry c) (drop (entry c) (children c)) w w1 ->
  (fuel + length (children c) + 1 <= n)%nat ->
  tick n this w = (Returns (exhausted K), at_cursor this 0 w1).
Proof.
  intros Hobj HK Hc Hne Hp Hn.
  apply (tick_mono (S (fuel + length (drop (entry c) (children c))))).
  2:{ rewrite length_drop. lia. }
  unfold tick. rewrite run_S, (dispatch_tick _ _ _ _ _ _ K _ Hobj HK Hc).
  destruct (drop (entry c) (children c)) as [|x rest] eqn:Hd; [contradiction|].
  rewrite (drop_entry_first _ _ _ Hd).
  eapply pass_exhausts; eauto.
Qed.

Lemma tick_stops K fuel this w w1 obj c mid child post s w2 n :
  heap w !! this = Some obj -> kind_of obj = Some K -> fields obj = Some c ->
  drop (entry c) (children c) = mid ++ child :: post ->
  passes (continues K) fuel this (entry c) mid w w1 ->
  tick fuel child (at_cursor this (entry c + length mid) w1) = (Returns s, w2) ->
  heap w2 !! this = heap (at_cursor this (entry c + length mid) w1) !! this ->
  s <> continues K ->
  (fuel + length (children c) + 1 <= n)%nat ->
  tick n this w =
    (Returns (stopped K s),
     if decide (s = resets K) then at_cursor this 0 w2 else w2).
Proof.
  intros Hobj HK Hc Hd Hp Ht Hf Hs Hn.
  destruct (drop_entry_lookup _ _ _ _ Hd) as [_ Hlen].
  apply (tick_mono (S (S fuel + length mid))); [|lia].
  unfold tick. rewrite run_S, (dispatch_tick _ _ _ _ _ _ K _ Hobj HK Hc).
  assert (Hfirst : is_Some (children c !! entry c)).
  { destruct mid; simpl in Hd; rewrite (drop_entry_first _ _ _ Hd); eauto. }
  destruct Hfirst as [x ->].
  eapply pass_stops; eauto.
Qed.

Lemma tick_aborts K fuel this w w1 obj c mid child post e w2 n :
  heap w !! this = Some obj -> kind_of obj = Some K -> fields obj = Some c ->
  drop (entry c) (children c) = mid ++ child :: post ->
  passes (continues K) fuel this (entry c) mid w w1 ->
  tick fuel child (at_cursor this (entry c + length mid) w1) = (Throws e, w2) ->
  (fuel + length (children c) + 1 <= n)%nat ->
  tick n this w = (Throws e, w2).
Proof.
  intros Hobj HK Hc Hd Hp Ht Hn.
  destruct (drop_entry_lookup _ _ _ _ Hd) as [_ Hlen].
  unfold tick. apply (run_mono (S (S fuel + length mid))); [|discriminate|lia].
  rewrite run_S, (dispatch_tick _ _ _ _ _ _ K _ Hobj HK Hc).
  assert (Hfirst : is_Some (children c !! entry c)).
  { destruct mid; simpl in Hd; rewrite (drop_entry_first _ _ _ Hd); eauto. }
  destruct Hfirst as [x ->].
  eapply pass_aborts; eauto.
Qed.

(** Without a child under the cursor the tick is over at once. *)
Lemma tick_no_child K this w obj c n :
  heap w !! this = Some obj -> kind_of obj = Some K -> fields obj = Some c ->
  children c !! entry c = None ->
  tick (S n) this w = (Returns Running, at_cursor this (entry c) w).
Proof.
  intros Hobj HK Hc Hnone. unfold tick.
  now rewrite run_S, (dispatch_tick _ _ _ _ _ _ K _ Hobj HK Hc), Hnone.
Qed.

End Rounds.

(** * What every job keeps *)

Section Keeping.

Context {Payload : Type}.
Implicit Types (w : World Payload) (obj : NodeObj Payload) (c : Composite).

(** [I] is what holds of the store between the jobs and [P] relates the
    store before a job to the store after it; [T] tells the nodes whose
    [tick] is looked at. *)
Variable I : World Payload -> Prop.
Variable P : World Payload -> World Payload -> Prop.
Variable T : addr -> Prop.

Hypothesis P_refl : forall w, P w w.
Hypothesis P_trans : forall w1 w2 w3, P w1 w2 -> P w2 w3 -> P w1 w3.

Lemma keeps_call_reads {A} (m : Call Payload A) : reads m -> keeps_call I P m.
Proof. intros Hm w r w' HI H. rewrite (Hm _ _ _ H). now split. Qed.

Lemma keeps_call_ret {A} (a : A) : keeps_call I P (ret a).
Proof. apply keeps_call_reads, reads_ret. Qed.

Lemma keeps_call_bind {A B} (m : Call Payload A) (k : A -> Call Payload B) :
  keeps_call I P m -> (forall a, keeps_call I P (k a)) ->
  keeps_call I P (bind m k).
Proof.
  intros Hm Hk w r w' HI H. unfold bind in H.
  destruct (m w) as [[a|e|] w1] eqn:E; destruct (Hm _ _ _ HI E) as [HI1 HP1].
  - destruct (Hk a _ _ _ HI1 H) as [HI2 HP2]. split; [exact HI2|eauto].
  - injection H as _ <-. now split.
  - injection H as _ <-. now split.
Qed.

Lemma keeps_steps_await {A B} (k : Completion A -> Async Payload B) :
  (forall r, keeps_job I P (k r)) ->
  forall p : Promise Payload A, keeps_steps I P p -> keeps_steps I P (await p k).
Proof.
  intros Hk. induction p as [r|job IH] using Promise_induction; intros Hp.
  - destruct r; simpl; try exact Logic.I; apply Hk.
  - simpl in *. intros w HI. specialize (Hp w HI). specialize (IH w).
    destruct (job w) as [p' w']. destruct Hp as (HI' & HP' & Hp').
    repeat split; auto.
Qed.

Lemma keeps_job_finished {A} (m : Call Payload A) :
  keeps_call I P m -> keeps_job I P (finished m).
Proof.
  intros Hm w HI. unfold finished. destruct (m w) as [r w'] eqn:E.
  destruct (Hm _ _ _ HI E). now repeat split.
Qed.

(** Code without [await], and what follows it given what the code has
    found in the store. *)
Lemma keeps_job_sync {A B} (m : Call Payload A) (k : A -> Async Payload B) :
  (forall w a w', I w -> m w = (Returns a, w') -> keeps_job I P (k a)) ->
  keeps_call I P m -> keeps_job I P (sync m k).
Proof.
  intros Hk Hm w HI. unfold sync. destruct (m w) as [[a|e|] w1] eqn:E;
    destruct (Hm _ _ _ HI E) as [HI1 HP1]; [|now repeat split..].
  specialize (Hk _ _ _ HI E w1 HI1). destruct (k a w1) as [p w2].
  destruct Hk as (HI2 & HP2 & Hp). repeat split; eauto.
Qed.

Lemma keeps_job_try_awaiting {A B} (m : Call Payload (Promise Payload A))
    (k : Completion A -> Async Payload B) :
  keeps_spawn I P m -> (forall r, keeps_job I P (k r)) ->
  keeps_job I P (try_awaiting m k).
Proof.
  intros Hm Hk w HI. unfold try_awaiting. destruct (m w) as [[p|e|] w1] eqn:E;
    destruct (Hm _ _ _ HI E) as (HI1 & HP1 & Hp).
  - repeat split; auto. apply keeps_steps_await; auto.
  - specialize (Hk (Throws e) w1 HI1). destruct (k (Throws e) w1) as [q w2].
    destruct Hk as (HI2 & HP2 & Hq). repeat split; eauto.
  - now repeat split.
Qed.

Lemma keeps_job_rethrow {A B} (k : A -> Async Payload B) r :
  (forall a, keeps_job I P (k a)) -> keeps_job I P (rethrow k r).
Proof.
  intros Hk. destruct r; [apply Hk|apply keeps_job_finished..];
    apply keeps_call_reads; intros w r w' H; now injection H as _ <-.
Qed.

Lemma keeps_job_awaiting {A B} (m : Call Payload (Promise Payload A))
    (k : A -> Async Payload B) :
  keeps_spawn I P m -> (forall a, keeps_job I P (k a)) ->
  keeps_job I P (awaiting m k).
Proof.
  intros Hm Hk. apply keeps_job_try_awaiting; [exact Hm|].
  intros r. now apply keeps_job_rethrow.
Qed.

Lemma keeps_job_proceed {A} (m : Call Payload (Promise Payload A)) :
  keeps_spawn I P m -> keeps_job I P (proceed m).
Proof.
  intros Hm w HI. unfold proceed, sync. destruct (m w) as [[p|e|] w1] eqn:E;
    destruct (Hm _ _ _ HI E) as (HI1 & HP1 & Hp); repeat split; auto.
Qed.

Lemma keeps_spawn_async {A} (b : Async Payload A) :
  keeps_job I P b -> keeps_spawn I P (async b).
Proof.
  intros Hb w r w' HI H. unfold async in H. specialize (Hb w HI).
  destruct (b w) as [p w1]. injection H as <- <-.
  destruct Hb as (HI1 & HP1 & Hp). repeat split; auto.
  intros p' [= <-]. exact Hp.
Qed.

Lemma keeps_spawn_bind {A B} (m : Call Payload A)
    (k : A -> Call Payload (Promise Payload B)) :
  (forall w a w', I w -> m w = (Returns a, w') -> keeps_spawn I P (k a)) ->
  keeps_call I P m -> keeps_spawn I P (bind m k).
Proof.
  intros Hk Hm w r w' HI H. unfold bind in H.
  destruct (m w) as [[a|e|] w1] eqn:E; destruct (Hm _ _ _ HI E) as [HI1 HP1].
  - destruct (Hk _ _ _ HI E _ _ _ HI1 H) as (HI2 & HP2 & Hp).
    repeat split; eauto.
  - injection H as <- <-. repeat split; auto. discriminate.
  - injection H as <- <-. repeat split; auto. discriminate.
Qed.

Lemma keeps_spawn_settled {A} (r : Completion A) :
  keeps_spawn I P (ret (Settled r)).
Proof.
  intros w r' w' HI H. injection H as <- <-. repeat split; auto.
  now intros p [= <-].
Qed.

Lemma keeps_steps_both {A} : forall (p : Promise Payload A) q,
  keeps_steps I P p -> keeps_steps I P q -> keeps_steps I P (both p q).
Proof.
  induction p as [r|job1 IHp] using Promise_induction; intros q Hp Hq.
  - destruct r as [a|e|]; [| |exact Logic.I];
      (induction q as [rq|job2 IHq] using Promise_induction;
       [now destruct rq|]; simpl in *; intros w HI;
       specialize (Hq w HI); specialize (IHq w);
       destruct (job2 w) as [q1 w1]; destruct Hq as (HI1 & HP1 & Hq1);
       repeat split; auto).
  - destruct q as [[rs|e|]|job2]; try exact Logic.I; simpl in *; intros w HI;
      specialize (Hp w HI); specialize (IHp w);
      destruct (job1 w) as [p1 w1]; destruct Hp as (HI1 & HP1 & Hp1).
    + repeat split; auto; now apply IHp.
    + repeat split; auto; now apply IHp.
    + assert (Hstep :
        let (q1, w2) := job2 w1 in
        I w2 /\ P w w2 /\ keeps_steps I P (both p1 q1)).
      { specialize (Hq w1 HI1). destruct (job2 w1) as [q1 w2].
        destruct Hq as (HI2 & HP2 & Hq1). repeat split; eauto. }
      destruct p1 as [[a|e|]|j]; try exact Hstep;
        [destruct (job2 w1); exact Hstep..|now repeat split|
         destruct (job2 w1); exact Hstep].
Qed.

Lemma keeps_steps_together {A} (ps : list (Promise Payload A)) :
  Forall (keeps_steps I P) ps -> keeps_steps I P (together ps).
Proof.
  unfold together. induction 1 as [|p ps Hp _ IH]; simpl; [exact Logic.I|].
  now apply keeps_steps_both.
Qed.

Lemma keeps_steps_Promise_all {A} (ps : list (Promise Payload A)) :
  Forall (keeps_steps I P) ps -> keeps_steps I P (Promise_all ps).
Proof.
  intros H. unfold Promise_all. destruct ps as [|p ps]; [exact Logic.I|].
  apply keeps_steps_await; [|now apply keeps_steps_together].
  intros r. apply keeps_job_rethrow. intros outcomes.
  apply keeps_job_finished, keeps_call_reads.
  clear. induction outcomes as [|[a|e|] rest IH]; simpl.
  - apply reads_ret.
  - apply reads_bind; [exact IH|]. intros values. apply reads_ret.
  - apply reads_throw.
  - intros w r w' H. now injection H as _ <-.
Qed.

(** Calls started one after the other. *)
Lemma keeps_mapM_async {X A} (b : X -> Async Payload A) (xs : list X) :
  (forall x, x ∈ xs -> keeps_job I P (b x)) ->
  forall w r w',
    I w -> mapM (fun x => async (b x)) xs w = (r, w') ->
    I w' /\ P w w' /\
    exists ps, r = Returns ps /\ Forall (keeps_steps I P) ps.
Proof.
  induction xs as [|x xs IH]; intros Hb w r w' HI H; simpl in H.
  - injection H as <- <-. repeat split; auto. exists []. now split.
  - unfold bind at 1, async at 1 in H.
    pose proof (Hb x (list_elem_of_here _ _) w HI) as Hx.
    destruct (b x w) as [p w1]. destruct Hx as (HI1 & HP1 & Hp).
    unfold bind in H.
    destruct (mapM (fun x => async (b x)) xs w1) as [rs w2] eqn:E.
    destruct (IH (fun y Hy => Hb y (list_elem_of_further _ _ _ Hy)) _ _ _ HI1 E)
      as (HI2 & HP2 & ps & -> & Hps).
    injection H as <- <-. repeat split; eauto.
Qed.

Lemma keeps_call_drain {A} : forall p : Promise Payload A,
  keeps_steps I P p -> keeps_call I P (drain p).
Proof.
  induction p as [r0|job IH] using Promise_induction; intros Hp w r w' HI H.
  - injection H as _ <-. now split.
  - simpl in *. specialize (Hp w HI). specialize (IH w).
    destruct (job w) as [p' w1]. destruct Hp as (HI1 & HP1 & Hp').
    destruct (IH Hp' _ _ _ HI1 H). split; eauto.
Qed.

Lemma keeps_call_finish {A} (m : Call Payload (Promise Payload A)) :
  keeps_spawn I P m -> keeps_call I P (finish m).
Proof.
  intros Hm w r w' HI H. unfold finish, bind in H.
  destruct (m w) as [[p|e|] w1] eqn:E; destruct (Hm _ _ _ HI E) as (HI1 & HP1 & Hp).
  - destruct (keeps_call_drain p (Hp _ eq_refl) _ _ _ HI1 H). split; eauto.
  - injection H as _ <-. now split.
  - injection H as _ <-. now split.
Qed.

Lemma keeps_job_ParallelNode_tick
    (tk : addr -> Call Payload (Promise Payload BehaviorTreeStatus))
    requiredToFail requiredToSucceed children :
  (forall child, child ∈ children -> keeps_spawn I P (tk child)) ->
  keeps_job I P (ParallelNode_tick_async tk requiredToFail requiredToSucceed children).
Proof.
  intros Htk w HI. unfold ParallelNode_tick_async, sync.
  destruct (mapM _ children w) as [r w1] eqn:E.
  apply keeps_mapM_async in E as (HI1 & HP1 & ps & -> & Hps); [|auto|exact HI].
  2:{ intros child Hin. apply keeps_job_try_awaiting; [now apply Htk|].
      intros r'. apply keeps_job_finished, keeps_call_reads.
      intros w0 r0 w0' H. destruct r'; now injection H as _ <-. }
  unfold awaiting, try_awaiting, ret. repeat split; auto.
  apply keeps_steps_await; [|now apply keeps_steps_Promise_all].
  intros r. apply keeps_job_rethrow. intros statuses.
  apply keeps_job_finished, keeps_call_ret.
Qed.

Lemma keeps_call_ParallelNode_tick
    (sp : addr -> Call Payload (Promise Payload BehaviorTreeStatus))
    requiredToFail requiredToSucceed children :
  (forall child, child ∈ children -> keeps_spawn I P (sp child)) ->
  keeps_call I P (ParallelNode_tick sp requiredToFail requiredToSucceed children).
Proof.
  intros Hsp. apply keeps_call_finish, keeps_spawn_async.
  now apply keeps_job_ParallelNode_tick.
Qed.

(** ** The ticks of the nodes in [T]

    The callables touch the user's state only; the cursor of a node in [T]
    may be written; the children of a node in [T] are in [T]. *)
Hypothesis keeps_sd : forall w t,
  I w -> I {| heap := heap w; sd := t |} /\ P w {| heap := heap w; sd := t |}.
Hypothesis keeps_init : forall this, T this -> keeps_call I P (init this).
Hypothesis keeps_reset : forall this, T this -> keeps_call I P (reset this).
Hypothesis keeps_next : forall this, T this -> keeps_call I P (next this).
Hypothesis T_kids : forall w this obj child,
  I w -> T this -> heap w !! this = Some obj -> child ∈ kids obj -> T child.

Lemma keeps_call_invoke fn : keeps_call I P (invoke fn).
Proof.
  intros w r w' HI H. unfold invoke in H.
  destruct (fn (sd w)) as [[res|e] t]; injection H as _ <-; now apply keeps_sd.
Qed.

Lemma keeps_call_invoke_test test : keeps_call I P (invoke_test test).
Proof.
  intros w r w' HI H. unfold invoke_test in H.
  destruct (test (sd w)) as [[e|b] t]; injection H as _ <-; now apply keeps_sd.
Qed.

Lemma keeps_spawn_call_fn fn : keeps_spawn I P (call_fn fn).
Proof.
  destruct fn as [fn|test]; simpl.
  - apply keeps_spawn_bind; [|apply keeps_call_invoke].
    intros _ result _ _ _. apply keeps_spawn_settled.
  - apply keeps_spawn_async, keeps_job_awaiting.
    + apply keeps_spawn_bind; [|apply keeps_call_invoke_test].
      intros _ answer _ _ _. apply keeps_spawn_settled.
    + intros answer. apply keeps_job_finished, keeps_call_ret.
Qed.

Lemma keeps_job_ActionNode_tick fn : keeps_job I P (ActionNode_tick_async fn).
Proof.
  unfold ActionNode_tick_async. apply keeps_job_awaiting;
    [apply keeps_spawn_call_fn|].
  intros [status|]; apply keeps_job_finished, keeps_call_reads;
    [apply reads_ret|apply reads_throw].
Qed.

Lemma keeps_call_init_unless_kept this :
  T this -> keeps_call I P (init_unless_kept this).
Proof.
  intros HT. unfold init_unless_kept.
  apply keeps_call_bind; [apply keeps_call_reads, reads_get_fields|]. intros c.
  destruct (_ || _); [now apply keeps_init|apply keeps_call_ret].
Qed.

Section Methods.

Variables tk lp : addr -> Call Payload (Promise Payload BehaviorTreeStatus).
Hypothesis keeps_tk : forall a, T a -> keeps_spawn I P (tk a).
Hypothesis keeps_lp : forall a, T a -> keeps_spawn I P (lp a).

Lemma keeps_spawn_tick_current this :
  T this -> keeps_spawn I P (tick_current_async tk this).
Proof.
  intros HT. unfold tick_current_async.
  apply keeps_spawn_bind; [|apply keeps_call_reads, reads_current].
  intros w [child|] w' HI H.
  - apply current_child in H as [-> (obj & Hobj & Hin)].
    apply keeps_tk. eapply T_kids; eauto.
  - intros w0 r w0' HI0 H0. injection H0 as <- <-. repeat split; auto.
    discriminate.
Qed.

Ltac keep_step HT :=
  first
    [ apply keeps_call_ret
    | apply keeps_reset; exact HT
    | apply keeps_next; exact HT
    | apply keeps_call_init_unless_kept; exact HT
    | apply keeps_call_reads, reads_current
    | apply keeps_spawn_tick_current; exact HT
    | apply keeps_lp; exact HT
    | apply keeps_job_proceed
    | apply keeps_job_finished
    | apply keeps_call_bind; [|intros ?]
    | apply keeps_job_awaiting; [|intros ?]
    | apply keeps_job_sync; [intros ? ? ? ? ?|]
    | match goal with
      | |- keeps_job _ _ (if ?x then _ else _) => destruct x
      | |- keeps_call _ _ (if ?x then _ else _) => destruct x
      end ].

Lemma keeps_job_do_while this obj :
  T this ->
  keeps_job I P
    match obj with
    | SelectorNode _ => SelectorNode_do_while_async tk lp this
    | RepeatNode _ => RepeatNode_do_while_async tk lp this
    | UntilFailNode _ => UntilFailNode_do_while_async tk lp this
    | SequenceNode _ => SequenceNode_do_while_async tk lp this
    | _ => finished (throw TypeError)
    end.
Proof.
  intros HT.
  destruct obj;
    try (apply keeps_job_finished, keeps_call_reads, reads_throw);
    unfold SelectorNode_do_while_async, RepeatNode_do_while_async,
      UntilFailNode_do_while_async, SequenceNode_do_while_async;
    repeat keep_step HT.
Qed.

Lemma keeps_job_tick w this obj :
  I w -> T this -> heap w !! this = Some obj ->
  keeps_job I P
    match obj with
    | ActionNode _ fn => ActionNode_tick_async fn
    | InverterNode _ childNode => InverterNode_tick_async tk childNode
    | ParallelNode _ requiredToFail requiredToSucceed children =>
        ParallelNode_tick_async tk requiredToFail requiredToSucceed children
    | SelectorNode _ => SelectorNode_tick_async lp this
    | RepeatNode _ => RepeatNode_tick_async lp this
    | UntilFailNode _ => UntilFailNode_tick_async lp this
    | SequenceNode _ => SequenceNode_tick_async lp this
    end.
Proof.
  intros HI HT Hobj.
  assert (Hkids : forall child, child ∈ kids obj -> keeps_spawn I P (tk child)).
  { intros child Hin. apply keeps_tk. eapply T_kids; eauto. }
  destruct obj as [nm fn|nm [child|]|nm rf rs cs| | | |]; simpl in Hkids.
  - apply keeps_job_ActionNode_tick.
  - unfold InverterNode_tick_async. apply keeps_job_awaiting.
    + apply Hkids. left.
    + intros result. apply keeps_job_finished.
      repeat (destruct (decide _)); apply keeps_call_ret.
  - apply keeps_job_finished, keeps_call_reads, reads_throw.
  - now apply keeps_job_ParallelNode_tick.
  - unfold SelectorNode_tick_async. repeat keep_step HT.
  - unfold RepeatNode_tick_async. repeat keep_step HT.
  - unfold UntilFailNode_tick_async. repeat keep_step HT.
  - unfold SequenceNode_tick_async. repeat keep_step HT.
Qed.

Lemma keeps_spawn_dispatch e :
  T (target e) -> keeps_spawn I P (dispatch_async tk lp e).
Proof.
  intros HT. destruct e as [this|this]; unfold dispatch_async; simpl in HT.
  - apply keeps_spawn_bind; [|apply keeps_call_reads, reads_deref].
    intros w obj w' HI H. apply deref_returns in H as [-> Hobj].
    apply keeps_spawn_async. eapply keeps_job_tick; eauto.
  - apply keeps_spawn_async, keeps_job_sync;
      [|apply keeps_call_reads, reads_deref].
    intros w obj w' HI H. now apply keeps_job_do_while.
Qed.

End Methods.

(** Every job of a [tick] of a node in [T] keeps [I] and [P]. *)
Lemma keeps_spawn_run fuel : forall e,
  T (target e) -> keeps_spawn I P (run_async fuel e).
Proof.
  induction fuel as [|fuel IH]; intros e HT.
  - intros w r w' HI H. injection H as <- <-. repeat split; auto. discriminate.
  - rewrite run_async_S. apply keeps_spawn_dispatch; auto.
Qed.

End Keeping.

(** * A tick writes nothing but cursors *)

Section Tree.

Context {Payload : Type}.
Implicit Types (w : World Payload) (obj : NodeObj Payload) (c : Composite).

Lemma same_tree_refl w : same_tree w w.
Proof. now intros a. Qed.

Lemma same_tree_trans w1 w2 w3 : same_tree w1 w2 -> same_tree w2 w3 -> same_tree w1 w3.
Proof. intros H12 H23 a. now rewrite H23, H12. Qed.

Lemma erase_with_fields obj c c' :
  fields obj = Some c -> name c' = name c -> keepState c' = keepState c ->
  children c' = children c ->
  erase (with_fields obj c') = erase obj.
Proof.
  intros Hc Hn Hk Hch. unfold erase.
  rewrite (fields_with_fields _ _ c' Hc), Hc, Hn, Hk, Hch.
  now destruct obj.
Qed.

Lemma kind_of_erase obj : kind_of (erase obj) = kind_of obj.
Proof. unfold erase. destruct (fields obj); [apply kind_of_with_fields|reflexivity]. Qed.

Lemma same_tree_kind w w' a obj K :
  same_tree w w' -> heap w !! a = Some obj -> kind_of obj = Some K ->
  exists obj', heap w' !! a = Some obj' /\ kind_of obj' = Some K.
Proof.
  intros Hs Hobj HK. specialize (Hs a). rewrite Hobj in Hs.
  destruct (heap w' !! a) as [obj'|]; [|discriminate].
  exists obj'. split; [reflexivity|].
  simpl in Hs. injection Hs as Hs.
  now rewrite <- kind_of_erase, Hs, kind_of_erase.
Qed.

Lemma keeps_ret {A} (a : A) : keeps_tree (Payload := Payload) (ret a).
Proof. intros w r w' H. injection H as _ <-. apply same_tree_refl. Qed.

Lemma keeps_throw {A} e : keeps_tree (Payload := Payload) (A := A) (throw e).
Proof. intros w r w' H. injection H as _ <-. apply same_tree_refl. Qed.

Lemma keeps_diverge {A} : keeps_tree (Payload := Payload) (A := A) diverge.
Proof. intros w r w' H. injection H as _ <-. apply same_tree_refl. Qed.

Lemma keeps_bind {A B} (m : Call Payload A) (k : A -> Call Payload B) :
  keeps_tree m -> (forall a, keeps_tree (k a)) -> keeps_tree (bind m k).
Proof.
  intros Hm Hk w r w' H. unfold bind in H.
  destruct (m w) as [[a|e|] w1] eqn:E.
  - eapply same_tree_trans; [eapply Hm|eapply Hk]; eauto.
  - injection H as _ <-. eapply Hm; eauto.
  - injection H as _ <-. eapply Hm; eauto.
Qed.

Lemma keeps_deref a : keeps_tree (Payload := Payload) (deref a).
Proof.
  intros w r w' H. unfold deref in H.
  destruct (heap w !! a); injection H as _ <-; apply same_tree_refl.
Qed.

Lemma keeps_get_fields this : keeps_tree (Payload := Payload) (get_fields this).
Proof.
  unfold get_fields. apply keeps_bind; [apply keeps_deref|]. intros obj.
  destruct (fields obj); [apply keeps_ret|apply keeps_throw].
Qed.

Lemma keeps_get_enumerator this : keeps_tree (Payload := Payload) (get_enumerator this).
Proof.
  unfold get_enumerator. apply keeps_bind; [apply keeps_get_fields|]. intros c.
  destruct (enumerator c); [apply keeps_ret|apply keeps_throw].
Qed.

Lemma keeps_set_enumerator this e : keeps_tree (Payload := Payload) (set_enumerator this e).
Proof.
  intros w r w' H. unfold set_enumerator, get_fields, bind, deref, store in H.
  destruct (heap w !! this) as [obj|] eqn:Hobj.
  2:{ injection H as _ <-. apply same_tree_refl. }
  rewrite Hobj in H. unfold ret, throw in H.
  destruct (fields obj) as [c|] eqn:Hc.
  2:{ injection H as _ <-. apply same_tree_refl. }
  injection H as _ <-. intros a. cbn [heap].
  destruct (decide (a = this)) as [->|Hne].
  - rewrite list_lookup_insert_eq by (eapply lookup_lt_Some; eauto).
    rewrite Hobj. cbn [fmap option_fmap option_map]. f_equal.
    now apply (erase_with_fields _ c).
  - now rewrite list_lookup_insert_ne by congruence.
Qed.

Lemma keeps_invoke fn : keeps_tree (Payload := Payload) (invoke fn).
Proof.
  intros w r w' H. unfold invoke in H.
  destruct (fn (sd w)) as [[res|e] s]; injection H as _ <-; now intros a.
Qed.

Ltac keeps_step :=
  first
    [ apply keeps_ret | apply keeps_throw | apply keeps_diverge
    | apply keeps_deref | apply keeps_get_fields | apply keeps_get_enumerator
    | apply keeps_set_enumerator | apply keeps_invoke
    | apply keeps_bind; [|intros ?]
    | match goal with
      | H : forall a, keeps_tree _ |- _ => apply H
      | |- keeps_tree (match ?x with _ => _ end) => destruct x
      | |- keeps_tree (if ?x then _ else _) => destruct x
      end ].

Lemma keeps_next this : keeps_tree (Payload := Payload) (next this).
Proof. unfold next, hasNext. repeat keeps_step. Qed.

Lemma keeps_reset this : keeps_tree (Payload := Payload) (reset this).
Proof. unfold reset. repeat keeps_step. Qed.

Lemma keeps_init this : keeps_tree (Payload := Payload) (init this).
Proof. unfold init. repeat keeps_step. Qed.

Lemma keeps_tree_call {A} (m : Call Payload A) :
  keeps_tree m <-> keeps_call (fun _ => True) same_tree m.
Proof.
  split.
  - intros Hm w r w' _ H. split; [exact I|]. eapply Hm; eauto.
  - intros Hm w r w' H. now apply (Hm w r w' I).
Qed.

(** Every job of a tick moves cursors and the user's state, and nothing
    else. *)
Lemma keeps_run_async fuel e :
  keeps_spawn (fun _ => True) same_tree (run_async (Payload := Payload) fuel e).
Proof.
  apply (keeps_spawn_run (fun _ => True) same_tree (fun _ => True));
    try (intros; exact I).
  - apply same_tree_refl.
  - apply same_tree_trans.
  - intros w t _. split; [exact I|]. now intros a.
  - intros this _. apply keeps_tree_call, keeps_init.
  - intros this _. apply keeps_tree_call, keeps_reset.
  - intros this _. apply keeps_tree_call, keeps_next.
Qed.

Lemma keeps_dispatch (tk lp : addr -> Call Payload BehaviorTreeStatus) sp e :
  (forall a, keeps_tree (tk a)) -> (forall a, keeps_tree (lp a)) ->
  (forall a, keeps_spawn (fun _ => True) same_tree (sp a)) ->
  keeps_tree (dispatch tk lp sp e).
Proof.
  intros Ht Hl Hs. destruct e as [this|this]; unfold dispatch.
  - apply keeps_bind; [apply keeps_deref|]. intros obj.
    destruct obj as [nm fn|nm ch|nm rf rs cs| | | |];
      try (unfold ActionNode_tick, InverterNode_tick, SelectorNode_tick,
             RepeatNode_tick, UntilFailNode_tick, SequenceNode_tick,
             init_unless_kept, init, current;
           repeat keeps_step; fail).
    apply keeps_tree_call, keeps_call_ParallelNode_tick;
      [apply same_tree_refl|apply same_tree_trans|auto].
  - apply keeps_bind; [apply keeps_deref|]. intros obj.
    destruct obj;
      unfold SelectorNode_do_while, RepeatNode_do_while, UntilFailNode_do_while,
        SequenceNode_do_while, tick_current, current, next, hasNext, reset;
      repeat keeps_step.
Qed.

(** Ticking moves cursors and the user's state, and nothing else. *)
Lemma keeps_run fuel : forall e, keeps_tree (run (Payload := Payload) fuel e).
Proof.
  induction fuel as [|fuel IH]; intros e.
  - apply keeps_diverge.
  - rewrite run_S. apply keeps_dispatch; intros a;
      [apply IH..|apply keeps_run_async].
Qed.

Lemma keeps_tick_current (tk : addr -> Call Payload BehaviorTreeStatus) this :
  (forall a, keeps_tree (tk a)) -> keeps_tree (tick_current tk this).
Proof. intros Ht. unfold tick_current, current. repeat keeps_step. Qed.

Lemma possible_Running K : possible K Running.
Proof. now destruct K. Qed.

(** Whatever the children do, the loop of a Repeat returns nothing but
    Running, and the loop of an UntilFail never returns Success. *)
Lemma loop_possible n : forall this w obj K s w',
  heap w !! this = Some obj -> kind_of obj = Some K ->
  run n (DoWhile this) w = (Returns s, w') -> possible K s.
Proof.
  induction n as [|n IH]; intros this w obj K s w' Hobj HK H; [discriminate|].
  rewrite run_S in H. unfold dispatch in H.
  rewrite (bind_run _ _ _ _ _ (deref_some _ _ _ Hobj)) in H.
  assert (Hnext : forall st w1 b w2,
    tick_current (fun child => run n (Tick child)) this w = (Returns st, w1) ->
    next this w1 = (Returns b, w2) ->
    exists obj2, heap w2 !! this = Some obj2 /\ kind_of obj2 = Some K).
  { intros st w1 b w2 H1 H2. eapply same_tree_kind; eauto.
    eapply same_tree_trans; [|eapply keeps_next; eauto].
    eapply keeps_tick_current; eauto. intros a. apply keeps_run. }
  destruct obj; simpl in HK; try discriminate; injection HK as <-; try exact I.
  - unfold RepeatNode_do_while in H.
    apply bind_returns in H as (st & w1 & Hcur & H).
    destruct (decide (st <> Success)).
    + apply bind_returns in H as (_ & w2 & _ & H). now injection H as <- _.
    + apply bind_returns in H as (b & w2 & Hn & H). destruct b.
      * destruct (Hnext _ _ _ _ Hcur Hn) as (obj2 & Hobj2 & HK2).
        eapply (IH _ _ _ Repeat); eauto.
      * apply bind_returns in H as (_ & w3 & _ & H). now injection H as <- _.
  - unfold UntilFailNode_do_while in H.
    apply bind_returns in H as (st & w1 & Hcur & H).
    destruct (decide (st <> Success)).
    + apply bind_returns in H as (_ & w2 & _ & H). now injection H as <- _.
    + apply bind_returns in H as (b & w2 & Hn & H). destruct b.
      * destruct (Hnext _ _ _ _ Hcur Hn) as (obj2 & Hobj2 & HK2).
        eapply (IH _ _ _ UntilFail); eauto.
      * apply bind_returns in H as (_ & w3 & _ & H). now injection H as <- _.
Qed.

Lemma tick_possible n this w obj K s w' :
  heap w !! this = Some obj -> kind_of obj = Some K ->
  tick n this w = (Returns s, w') -> possible K s.
Proof.
  intros Hobj HK H. destruct n as [|n]; [discriminate|].
  destruct (kind_of_fields _ _ HK) as [c Hc].
  unfold tick in H. rewrite run_S, (dispatch_tick _ _ _ _ _ _ K _ Hobj HK Hc) in H.
  destruct (children c !! entry c).
  - eapply loop_possible; [eapply lookup_at_cursor; eauto| |exact H].
    now rewrite kind_of_put_cursor.
  - injection H as <- _. apply possible_Running.
Qed.

End Tree.

(** * Awaited alone, a tick is the tick in direct style *)

Section Adequacy.

Context {Payload : Type}.
Implicit Types (w : World Payload) (obj : NodeObj Payload).

Lemma finish_finished {A} (m : Call Payload A) w :
  finish (async (finished m)) w = m w.
Proof. unfold finish, async, finished, bind. now destruct (m w) as [r w']. Qed.

Lemma finish_bind {A B} (m : Call Payload A)
    (k : A -> Call Payload (Promise Payload B)) w :
  finish (bind m k) w = bind m (fun a => finish (k a)) w.
Proof. unfold finish, bind. now destruct (m w) as [[a|e|] w']. Qed.

Lemma finish_sync {A B} (m : Call Payload A) (k : A -> Async Payload B)
    (k' : A -> Call Payload B) :
  (forall a w, finish (async (k a)) w = k' a w) ->
  forall w, finish (async (sync m k)) w = bind m k' w.
Proof.
  intros Hk w. unfold finish, async, sync, bind in *.
  destruct (m w) as [[a|e|] w1]; try reflexivity. apply Hk.
Qed.

Lemma finish_awaiting {A B} (m : Call Payload (Promise Payload A))
    (m' : Call Payload A) (k : A -> Async Payload B) (k' : A -> Call Payload B) :
  (forall w, finish m w = m' w) ->
  (forall a w, finish (async (k a)) w = k' a w) ->
  forall w, finish (async (awaiting m k)) w = bind m' k' w.
Proof.
  intros Hm Hk w. unfold bind. rewrite <- Hm.
  unfold finish, async, awaiting, try_awaiting, bind.
  destruct (m w) as [[p|e|] w1]; simpl; try reflexivity.
  rewrite drain_await. destruct (drain p w1) as [[a|e|] w2]; simpl; try reflexivity.
  specialize (Hk a w2). unfold finish, async, bind in Hk.
  destruct (k a w2) as [q w3]. exact Hk.
Qed.

Lemma finish_proceed {A} (m : Call Payload (Promise Payload A)) (m' : Call Payload A) :
  (forall w, finish m w = m' w) ->
  forall w, finish (async (proceed m)) w = m' w.
Proof.
  intros Hm w. rewrite <- Hm. unfold finish, async, proceed, sync, bind.
  now destruct (m w) as [[p|e|] w1].
Qed.

(** A condition is the callable that [condition] makes of its test. *)
Lemma finish_call_fn (fn : Fn Payload) w :
  finish (call_fn fn) w = invoke (callable fn) w.
Proof.
  destruct fn as [fn|test]; simpl.
  - unfold finish, bind, invoke, ret. now destruct (fn (sd w)) as [[res|e] t].
  - unfold finish, async, awaiting, try_awaiting, bind, invoke_test, invoke, ret.
    now destruct (test (sd w)) as [[e|[|]] t].
Qed.

Section Methods.

Variables tk lp : addr -> Call Payload BehaviorTreeStatus.
Variables tk_async lp_async : addr -> Call Payload (Promise Payload BehaviorTreeStatus).
Hypothesis finish_tk : forall a w, finish (tk_async a) w = tk a w.
Hypothesis finish_lp : forall a w, finish (lp_async a) w = lp a w.

Lemma finish_tick_current this w :
  finish (tick_current_async tk_async this) w = tick_current tk this w.
Proof.
  unfold tick_current_async, tick_current. rewrite finish_bind. unfold bind.
  destruct (current this w) as [[[child|]|e|] w1]; auto.
Qed.

Ltac finish_step :=
  first
    [ apply finish_finished
    | apply finish_proceed; apply finish_lp
    | apply finish_awaiting; [apply finish_tick_current|intros ? ?]
    | apply finish_sync; intros ? ?
    | match goal with
      | |- finish (async (if ?x then _ else _)) _ = _ => destruct x
      end ].

Lemma finish_dispatch e w :
  finish (dispatch_async tk_async lp_async e) w = dispatch tk lp tk_async e w.
Proof.
  destruct e as [this|this]; unfold dispatch_async, dispatch.
  - rewrite finish_bind. unfold bind.
    destruct (deref this w) as [[obj|e|] w1]; try reflexivity.
    destruct obj as [nm fn|nm [child|]|nm rf rs cs| | | |].
    + apply finish_awaiting; [apply finish_call_fn|].
      intros [status|] w0; apply finish_finished.
    + apply finish_awaiting; [apply finish_tk|]. intros result w0.
      apply finish_finished.
    + apply finish_finished.
    + reflexivity.
    + unfold SelectorNode_tick_async, SelectorNode_tick. repeat finish_step.
    + unfold RepeatNode_tick_async, RepeatNode_tick. repeat finish_step.
    + unfold UntilFailNode_tick_async, UntilFailNode_tick. repeat finish_step.
    + unfold SequenceNode_tick_async, SequenceNode_tick. repeat finish_step.
  - apply finish_sync. intros obj w0.
    destruct obj; try apply finish_finished;
      unfold SelectorNode_do_while_async, SelectorNode_do_while,
        RepeatNode_do_while_async, RepeatNode_do_while,
        UntilFailNode_do_while_async, UntilFailNode_do_while,
        SequenceNode_do_while_async, SequenceNode_do_while;
      repeat finish_step.
Qed.

End Methods.

(** The jobs of a tick that is awaited with nothing else under way give
    what the direct style gives. *)
Lemma finish_run_async fuel : forall e w,
  finish (run_async (Payload := Payload) fuel e) w = run fuel e w.
Proof.
  induction fuel as [|fuel IH]; intros e w; [reflexivity|].
  rewrite run_async_S, run_S. apply finish_dispatch; intros a w0; apply IH.
Qed.

End Adequacy.

(** * ParallelNode *)

Section Votes.

Context {Payload : Type}.
Implicit Types (w : World Payload) (obj : NodeObj Payload).

(** ** What a promise settles with *)

Lemma settles_in_impl {A} (Q Q' : Completion A -> Prop) :
  (forall r, Q r -> Q' r) ->
  forall p : Promise Payload A, settles_in Q p -> settles_in Q' p.
Proof.
  intros HQ. induction p as [r|job IH] using Promise_induction; simpl; [apply HQ|].
  intros H w. specialize (H w). specialize (IH w).
  destruct (job w) as [p' w']. now apply IH.
Qed.

Lemma settles_in_drain {A} (Q : Completion A -> Prop) :
  forall (p : Promise Payload A) w r w',
    settles_in Q p -> drain p w = (r, w') -> Q r.
Proof.
  induction p as [r0|job IH] using Promise_induction; intros w r w' Hp H;
    simpl in *.
  - now injection H as <- _.
  - specialize (Hp w). specialize (IH w). destruct (job w) as [p' w1].
    eapply IH; eauto.
Qed.

Lemma settles_in_True {A} (p : Promise Payload A) : settles_in (fun _ => True) p.
Proof.
  induction p as [r|job IH] using Promise_induction; simpl; [exact I|].
  intros w. specialize (IH w). now destruct (job w).
Qed.

Lemma settles_in_await {A B} (Q : Completion A -> Prop) (Q' : Completion B -> Prop)
    (k : Completion A -> Async Payload B) :
  (Q OutOfFuel -> Q' OutOfFuel) -> (forall r w, Q r -> settles_in Q' (k r w).1) ->
  forall p, settles_in Q p -> settles_in Q' (await p k).
Proof.
  intros HQ Hk. induction p as [r|job IH] using Promise_induction; intros Hp.
  - destruct r; simpl; try exact (HQ Hp); intros w; specialize (Hk _ w Hp);
      now destruct (k _ w).
  - simpl in *. intros w. specialize (IH w). specialize (Hp w).
    destruct (job w). now apply IH.
Qed.

Lemma settles_in_both {A} (Q : Completion A -> Prop)
    (R : list (Completion A) -> Prop) :
  forall (p : Promise Payload A) q,
    settles_in Q p -> settles_in (fulfils R) q ->
    settles_in (fulfils (fun rs => exists r rest, rs = r :: rest /\ Q r /\ R rest))
      (both p q).
Proof.
  induction p as [r|job1 IHp] using Promise_induction; intros q Hp Hq.
  - destruct r as [a|e|]; [| |exact I];
      (induction q as [rq|job2 IHq] using Promise_induction;
       [destruct rq; simpl in *; eauto|];
       simpl in *; intros w; specialize (Hq w); specialize (IHq w);
       destruct (job2 w) as [q1 w1]; now apply IHq).
  - destruct q as [[rs|e|]|job2]; try exact I; simpl in *; intros w;
      specialize (Hp w); specialize (IHp w); destruct (job1 w) as [p1 w1].
    + now apply IHp.
    + destruct Hq.
    + assert (Hstep :
        let (q1, w2) := job2 w1 in
        settles_in
          (fulfils (fun rs => exists r rest, rs = r :: rest /\ Q r /\ R rest))
          (both p1 q1)).
      { specialize (Hq w1). destruct (job2 w1) as [q1 w2]. now apply IHp. }
      destruct p1 as [[a|e|]|j];
        [destruct (job2 w1); exact Hstep..|exact I|destruct (job2 w1); exact Hstep].
Qed.

Lemma settles_in_together {A} (Q : Completion A -> Prop)
    (ps : list (Promise Payload A)) :
  Forall (settles_in Q) ps ->
  settles_in (fulfils (fun rs => length rs = length ps /\ Forall Q rs)) (together ps).
Proof.
  unfold together. induction 1 as [|p ps Hp _ IH]; simpl.
  - now split.
  - eapply settles_in_impl; [|apply settles_in_both; [exact Hp|exact IH]].
    intros [rs| |]; simpl; try tauto.
    intros (r & rest & -> & Hr & Hl & Hrest). simpl. split; [now rewrite Hl|].
    now constructor.
Qed.

(** ** The promises of [tickChildren] *)

(** A promise of [tickChildren] is never rejected. *)
Lemma tickChildren_never_rejects
    (tk : addr -> Call Payload (Promise Payload BehaviorTreeStatus)) child w :
  settles_in (fulfils (fun _ => True)) (ParallelNode_tickChildren tk child w).1.
Proof.
  unfold ParallelNode_tickChildren, try_awaiting.
  destruct (tk child w) as [[p|e|] w1]; simpl; try exact I.
  apply (settles_in_await (fun _ => True)); [now intros _| |apply settles_in_True].
  now intros [s|e|] w0 _.
Qed.

(** The same promise follows the one of the child, job after job, and
    settles one job later with the vote. *)
Lemma delays_await {A B} (g : Completion A -> Completion B)
    (k : Completion A -> Async Payload B) :
  g OutOfFuel = OutOfFuel -> (forall r w, k r w = (Settled (g r), w)) ->
  forall p, delays g p (await p k).
Proof.
  intros Hg Hk. induction p as [r|job IH] using Promise_induction.
  - destruct r as [a|e|]; simpl; [| |now rewrite Hg];
      (split; [discriminate|]; intros w; rewrite Hk; now split).
  - simpl. intros w. specialize (IH w). destruct (job w) as [p' w']. now split.
Qed.

Lemma tickChildren_delays
    (tk : addr -> Call Payload (Promise Payload BehaviorTreeStatus)) child w p w1 :
  promised (tk child) w = (Returns p, w1) ->
  exists q,
    async (ParallelNode_tickChildren tk child) w = (Returns q, w1) /\
    delays caught p q.
Proof.
  unfold promised, async, ParallelNode_tickChildren, try_awaiting.
  destruct (tk child w) as [[p0|e|] w0]; intros H; [| |discriminate];
    injection H as <- <-.
  - eexists. split; [reflexivity|].
    apply delays_await; [reflexivity|]. now intros [s|e|] w'.
  - eexists. split; reflexivity.
Qed.

Lemma mapM_delays
    (tk : addr -> Call Payload (Promise Payload BehaviorTreeStatus)) cs :
  forall w ps w1,
    mapM (fun child => promised (tk child)) cs w = (Returns ps, w1) ->
    exists qs,
      mapM (fun child => async (ParallelNode_tickChildren tk child)) cs w
        = (Returns qs, w1) /\
      Forall2 (delays caught) ps qs.
Proof.
  induction cs as [|child cs IH]; intros w ps w1 H; simpl in H.
  - injection H as <- <-. now exists [].
  - apply bind_returns in H as (p & w0 & Hp & H).
    apply bind_returns in H as (rest & w2 & Hrest & H). injection H as <- <-.
    destruct (tickChildren_delays _ _ _ _ _ Hp) as (q & Hq & Hpq).
    destruct (IH _ _ _ Hrest) as (qs & Hqs & Hall).
    exists (q :: qs). split; [|now constructor].
    simpl. rewrite (bind_run _ _ _ _ _ Hq), (bind_run _ _ _ _ _ Hqs). reflexivity.
Qed.

(** ** Side by side, the promises of [tickChildren] touch the store as
    the promises of the children do *)

Lemma delays_bottom {A B} (g : Completion A -> Completion B) (p : Promise Payload A) :
  (forall r, g r = OutOfFuel -> r = OutOfFuel) ->
  delays g p (Settled OutOfFuel) -> p = Settled OutOfFuel.
Proof.
  intros Hg. destruct p as [r|job]; simpl; [|contradiction].
  intros H. symmetry in H. now rewrite (Hg _ H).
Qed.

Lemma delays_of_bottom {A B} (g : Completion A -> Completion B) (q : Promise Payload B) :
  g OutOfFuel = OutOfFuel ->
  delays g (Settled OutOfFuel) q -> q = Settled OutOfFuel.
Proof.
  intros Hg. destruct q as [r|job]; simpl.
  - intros ->. now rewrite Hg.
  - now intros [[] _].
Qed.

Lemma caught_bottom r : caught r = OutOfFuel -> r = OutOfFuel.
Proof. now destruct r. Qed.

Lemma all_caught_bottom r : all_caught r = OutOfFuel -> r = OutOfFuel.
Proof. now destruct r. Qed.

Lemma delays_done {A B} (g : Completion A -> Completion B) r r' :
  delays (Payload := Payload) g (Settled r) (Settled r') <-> r' = g r.
Proof. reflexivity. Qed.

Lemma delays_idle {A B} (g : Completion A -> Completion B) r
    (jq : World Payload -> Promise Payload B * World Payload) :
  delays g (Settled r) (Pending jq) <->
  r <> OutOfFuel /\
  forall w, let (q', w') := jq w in w' = w /\ delays g (Settled r) q'.
Proof. reflexivity. Qed.

Lemma delays_step {A B} (g : Completion A -> Completion B)
    (jp : World Payload -> Promise Payload A * World Payload)
    (jq : World Payload -> Promise Payload B * World Payload) :
  delays g (Pending jp) (Pending jq) <->
  forall w,
    let (p', w1) := jp w in
    let (q', w1') := jq w in
    w1' = w1 /\ delays g p' q'.
Proof. reflexivity. Qed.

Lemma idle_goes_on r (q : Promise Payload BehaviorTreeStatus) :
  r <> OutOfFuel -> delays caught (Settled r) q -> q <> Settled OutOfFuel.
Proof.
  intros Hr Hq ->. apply (proj1 (delays_done _ _ _)) in Hq. destruct r; simpl in Hq; congruence.
Qed.

(** Both chains have settled on the side of the children. *)
Lemma delays_both_settled r rs :
  r <> OutOfFuel ->
  forall (q : Promise Payload BehaviorTreeStatus) qs,
    delays caught (Settled r) q -> delays all_caught (Settled rs) qs ->
    delays all_caught (Settled (collect r rs)) (both q qs).
Proof.
  intros Hr.
  assert (Hc : caught r <> OutOfFuel) by now destruct r.
  induction q as [r'|jq IHq] using Promise_induction; intros qs Hq Hqs.
  - apply (proj1 (delays_done _ _ _)) in Hq. subst r'.
    induction qs as [rs'|jqs IHqs] using Promise_induction.
    + apply (proj1 (delays_done _ _ _)) in Hqs. subst rs'. rewrite both_settled by exact Hc.
      apply (proj2 (delays_done _ _ _)). now destruct rs.
    + apply (proj1 (delays_idle _ _ _)) in Hqs as [Hrs Hqs]. rewrite both_held by exact Hc.
      apply (proj2 (delays_idle _ _ _)). split; [now destruct rs|]. intros w. cbv beta.
      specialize (Hqs w). specialize (IHqs w). destruct (jqs w) as [qs' w'].
      destruct Hqs as [-> Hqs]. split; [reflexivity|]. now apply IHqs.
  - apply (proj1 (delays_idle _ _ _)) in Hq as [_ Hq]. destruct qs as [rs'|jqs].
    + apply (proj1 (delays_done _ _ _)) in Hqs. subst rs'. destruct rs as [l|e|];
        cbn [all_caught];
        [| |rewrite both_bottom_r; now apply (proj2 (delays_done _ _ _))];
        (rewrite both_wait by discriminate; apply (proj2 (delays_idle _ _ _));
         split; [discriminate|]; intros w; cbv beta; specialize (Hq w);
         specialize (IHq w); destruct (jq w) as [q' w'];
         destruct Hq as [-> Hq]; split; [reflexivity|];
         apply IHq; [exact Hq|now apply (proj2 (delays_done _ _ _))]).
    + apply (proj1 (delays_idle _ _ _)) in Hqs as [Hrs Hqs]. rewrite both_turn.
      apply (proj2 (delays_idle _ _ _)). split; [now destruct rs|]. intros w. cbv beta.
      specialize (Hq w). specialize (IHq w). destruct (jq w) as [q' w1].
      destruct Hq as [-> Hq]. rewrite turn_goes_on by (now apply (idle_goes_on r)).
      specialize (Hqs w). destruct (jqs w) as [qs' w2]. destruct Hqs as [-> Hqs].
      split; [reflexivity|]. now apply IHq.
Qed.

(** The child has settled; the children after it may not have. *)
Lemma delays_both_held r :
  r <> OutOfFuel ->
  forall ps (q : Promise Payload BehaviorTreeStatus) qs,
    delays caught (Settled r) q -> delays all_caught ps qs ->
    delays all_caught (both (Settled r) ps) (both q qs).
Proof.
  intros Hr.
  assert (Hc : caught r <> OutOfFuel) by now destruct r.
  induction ps as [rs|jps IHps] using Promise_induction; intros q qs Hq Hqs.
  - rewrite both_settled by exact Hr. now apply delays_both_settled.
  - destruct qs as [rs'|jqs]; [destruct Hqs|].
    pose proof (proj1 (delays_step _ _ _) Hqs) as Hs. clear Hqs.
    rewrite both_held by exact Hr. destruct q as [r'|jq].
    + apply (proj1 (delays_done _ _ _)) in Hq. subst r'. rewrite both_held by exact Hc.
      apply (proj2 (delays_step _ _ _)). intros w. cbv beta. specialize (Hs w). specialize (IHps w).
      destruct (jps w) as [ps' w1], (jqs w) as [qs' w1']. destruct Hs as [-> Hs].
      split; [reflexivity|]. apply IHps; [now apply delays_done|exact Hs].
    + apply (proj1 (delays_idle _ _ _)) in Hq as [_ Hq]. rewrite both_turn.
      apply (proj2 (delays_step _ _ _)). intros w. cbv beta. specialize (Hq w). specialize (IHps w).
      specialize (Hs w). destruct (jps w) as [ps' w1], (jq w) as [q' w0].
      destruct Hq as [-> Hq]. rewrite turn_goes_on by (now apply (idle_goes_on r)).
      destruct (jqs w) as [qs' w1']. destruct Hs as [-> Hs].
      split; [reflexivity|]. now apply IHps.
Qed.

Lemma delays_both :
  forall (p q : Promise Payload BehaviorTreeStatus) ps qs,
    delays caught p q -> delays all_caught ps qs ->
    delays all_caught (both p ps) (both q qs).
Proof.
  induction p as [r|jp IHp] using Promise_induction; intros q ps qs Hq Hqs.
  - destruct r as [s|e|];
      [apply delays_both_held; [discriminate|assumption..]..|].
    apply delays_of_bottom in Hq as ->; reflexivity.
  - destruct q as [r'|jq]; [destruct Hq|].
    pose proof (proj1 (delays_step _ _ _) Hq) as Hs. clear Hq.
    destruct ps as [rs|jps].
    + assert (Hrs : rs = OutOfFuel \/ rs <> OutOfFuel)
        by (destruct rs; (now left) || (now right)).
      destruct Hrs as [->|Hrs].
      { apply delays_of_bottom in Hqs as ->; [|reflexivity].
        rewrite !both_bottom_r. now apply (proj2 (delays_done _ _ _)). }
      rewrite both_wait by exact Hrs. destruct qs as [rs'|jqs].
      * apply (proj1 (delays_done _ _ _)) in Hqs. subst rs'.
        rewrite both_wait by (now destruct rs).
        apply (proj2 (delays_step _ _ _)). intros w. cbv beta. specialize (Hs w). specialize (IHp w).
        destruct (jp w) as [p' w1], (jq w) as [q' w1']. destruct Hs as [-> Hs].
        split; [reflexivity|]. apply IHp; [exact Hs|now apply (proj2 (delays_done _ _ _))].
      * apply (proj1 (delays_idle _ _ _)) in Hqs as [_ Hqs]. rewrite both_turn.
        apply (proj2 (delays_step _ _ _)). intros w. cbv beta. specialize (Hs w). specialize (IHp w).
        destruct (jp w) as [p' w1], (jq w) as [q' w1']. destruct Hs as [-> Hs].
        destruct (bottom_or_not q') as [->|Hne].
        -- apply delays_bottom in Hs as ->; [|apply caught_bottom].
           split; [reflexivity|]. now apply (proj2 (delays_done _ _ _)).
        -- rewrite turn_goes_on by exact Hne. specialize (Hqs w1).
           destruct (jqs w1) as [qs' w2]. destruct Hqs as [-> Hqs].
           split; [reflexivity|]. now apply IHp.
    + destruct qs as [rs'|jqs]; [destruct Hqs|].
      pose proof (proj1 (delays_step _ _ _) Hqs) as Hss. clear Hqs.
      rewrite !both_turn. apply (proj2 (delays_step _ _ _)). intros w. cbv beta.
      specialize (Hs w). specialize (IHp w).
      destruct (jp w) as [p' w1], (jq w) as [q' w1']. destruct Hs as [-> Hs].
      destruct (bottom_or_not p') as [->|Hne].
      * apply delays_of_bottom in Hs as ->; [|reflexivity].
        split; [reflexivity|]. now apply (proj2 (delays_done _ _ _)).
      * assert (Hne' : q' <> Settled OutOfFuel).
        { intros ->. apply Hne. eapply delays_bottom; [apply caught_bottom|exact Hs]. }
        rewrite !turn_goes_on by assumption. specialize (Hss w1).
        destruct (jps w1) as [ps' w2], (jqs w1) as [qs' w2'].
        destruct Hss as [-> Hss]. split; [reflexivity|]. now apply IHp.
Qed.

Lemma delays_together (ps qs : list (Promise Payload BehaviorTreeStatus)) :
  Forall2 (delays caught) ps qs ->
  delays all_caught (together ps) (together qs).
Proof.
  unfold together. induction 1 as [|p q ps qs Hp _ IH]; simpl.
  - reflexivity.
  - now apply delays_both.
Qed.

Lemma drain_delays {A B} (g : Completion A -> Completion B) :
  forall (p : Promise Payload A) q w r w',
    delays g p q -> drain p w = (r, w') -> drain q w = (g r, w').
Proof.
  induction p as [r0|jp IHp] using Promise_induction; intros q w r w' Hq H.
  - simpl in H. injection H as <- <-. revert w.
    induction q as [r'|jq IHq] using Promise_induction; intros w.
    + simpl in *. now subst.
    + destruct Hq as [_ Hq]. simpl. specialize (Hq w). specialize (IHq w).
      destruct (jq w) as [q' w']. destruct Hq as [-> Hq]. now apply IHq.
  - destruct q as [r'|jq]; [destruct Hq|]. simpl in *.
    specialize (Hq w). specialize (IHp w).
    destruct (jp w) as [p' w1], (jq w) as [q' w1']. destruct Hq as [-> Hq].
    now apply (IHp q').
Qed.

(** ** The tick of a Parallel *)

Lemma fulfilled_votes outcomes ss w :
  Forall2 (fun r s => vote r = Some s) outcomes ss ->
  fulfilled (map caught outcomes) w = (Returns ss, w).
Proof.
  induction 1 as [|r s outcomes ss Hv _ IH]; simpl; [reflexivity|].
  destruct r as [s'|e|]; simpl in Hv; [| |discriminate]; injection Hv as <-;
    simpl; unfold bind; now rewrite IH.
Qed.

Lemma votes_length fuel cs ss w w' :
  votes fuel cs ss w w' -> length ss = length cs.
Proof.
  intros (outcomes & (ps & w1 & Hm & Hd) & Hv).
  destruct (mapM_delays _ _ _ _ _ Hm) as (qs & Hq & Hpq).
  rewrite <- (Forall2_length _ _ _ Hv).
  assert (Hps : length ps = length cs).
  { clear -Hm. revert w ps w1 Hm.
    induction cs as [|child cs IH]; intros w ps w1 H; simpl in H.
    - now injection H as <- _.
    - apply bind_returns in H as (p & w0 & _ & H).
      apply bind_returns in H as (rest & w2 & Hrest & H). injection H as <- _.
      simpl. f_equal. eauto. }
  rewrite <- Hps.
  assert (Hs : settles_in
                 (fulfils (fun rs => length rs = length ps /\ Forall (fun _ => True) rs))
                 (together ps)).
  { apply settles_in_together. clear.
    induction ps as [|p ps IH]; constructor; auto using settles_in_True. }
  now destruct (settles_in_drain _ _ _ _ _ Hs Hd).
Qed.

(** A Parallel's tick is the verdict on the votes of its children. *)
Lemma parallel_tick_at fuel requiredToFail requiredToSucceed cs ss w w' :
  votes fuel cs ss w w' ->
  ParallelNode_tick (fun child => run_async fuel (Tick child))
      requiredToFail requiredToSucceed cs w =
    (Returns (ParallelNode_verdict requiredToFail requiredToSucceed ss), w').
Proof.
  intros (outcomes & (ps & w1 & Hm & Hd) & Hv).
  destruct (mapM_delays _ _ _ _ _ Hm) as (qs & Hq & Hpq).
  assert (Hall : drain (Promise_all qs) w1 = (Returns ss, w')).
  { unfold Promise_all. destruct Hpq as [|p q ps qs Hp Hps].
    - simpl in Hd. injection Hd as <- <-. now inversion Hv.
    - rewrite drain_await.
      rewrite (drain_delays _ _ _ _ _ _
                 (delays_together (p :: ps) (q :: qs) (proj2 (Forall2_cons _ _ _ _ _) (conj Hp Hps))) Hd).
      simpl. unfold finished. now rewrite (fulfilled_votes _ _ _ Hv). }
  unfold ParallelNode_tick, finish, ParallelNode_tick_async.
  unfold async at 1, bind, sync. rewrite Hq.
  unfold awaiting, try_awaiting, ret. rewrite drain_await, Hall. reflexivity.
Qed.

Lemma parallel_tick_votes fuel this w name requiredToFail requiredToSucceed cs ss w' n :
  heap w !! this = Some (ParallelNode name requiredToFail requiredToSucceed cs) ->
  votes fuel cs ss w w' -> (fuel < n)%nat ->
  tick n this w =
    (Returns (ParallelNode_verdict requiredToFail requiredToSucceed ss), w').
Proof.
  intros Hobj Hv Hn. eapply tick_mono; [|exact Hn].
  unfold tick. rewrite run_S. unfold dispatch.
  rewrite (bind_run _ _ _ _ _ (deref_some _ _ _ Hobj)).
  now apply parallel_tick_at.
Qed.

Lemma fulfilled_length {A} (outcomes : list (Completion A)) w :
  Forall (fulfils (fun _ => True)) outcomes ->
  fulfils (fun values => length values = length outcomes)
    (fulfilled (Payload := Payload) outcomes w).1.
Proof.
  induction 1 as [|r outcomes Hr _ IH]; simpl; [reflexivity|].
  destruct r as [a|e|]; [|destruct Hr|exact I]. unfold bind.
  destruct (fulfilled outcomes w) as [[values|e|] w1]; simpl in *;
    [now rewrite IH|destruct IH|exact I].
Qed.

Lemma Promise_all_settles {A} (qs : list (Promise Payload A)) :
  Forall (settles_in (fulfils (fun _ => True))) qs ->
  settles_in (fulfils (fun values => length values = length qs)) (Promise_all qs).
Proof.
  intros Hqs. unfold Promise_all. destruct qs as [|q qs]; [reflexivity|].
  eapply settles_in_await; [now intros _| |apply settles_in_together, Hqs].
  intros [outcomes|e|] w; simpl; try tauto. intros [Hl Hall].
  unfold finished. pose proof (fulfilled_length outcomes w Hall) as H.
  destruct (fulfilled outcomes w) as [[values|e|] w1]; simpl in *;
    [congruence|destruct H|exact I].
Qed.

(** Whatever the children do, a Parallel's tick throws nothing, and the
    verdict it returns is one on as many votes as it has children. *)
Lemma parallel_tick_settles
    (sp : addr -> Call Payload (Promise Payload BehaviorTreeStatus))
    requiredToFail requiredToSucceed cs w r w' :
  ParallelNode_tick sp requiredToFail requiredToSucceed cs w = (r, w') ->
  fulfils (fun v => exists ss,
             length ss = length cs /\
             v = ParallelNode_verdict requiredToFail requiredToSucceed ss) r.
Proof.
  unfold ParallelNode_tick, finish, ParallelNode_tick_async.
  unfold async at 1, bind, sync.
  assert (Hm : forall w, exists qs w1,
    mapM (fun c => async (ParallelNode_tickChildren sp c)) cs w = (Returns qs, w1) /\
    length qs = length cs /\
    Forall (settles_in (fulfils (fun _ => True))) qs).
  { clear. induction cs as [|child cs IH]; intros w.
    - exists [], w. repeat split. constructor.
    - simpl. unfold bind at 1, async at 1.
      pose proof (tickChildren_never_rejects sp child w) as Hq.
      destruct (ParallelNode_tickChildren sp child w) as [q w0].
      destruct (IH w0) as (qs & w1 & E & Hl & Hqs). unfold bind. rewrite E.
      exists (q :: qs), w1. repeat split; [simpl; now rewrite Hl|now constructor]. }
  destruct (Hm w) as (qs & w1 & -> & Hl & Hqs).
  unfold awaiting, try_awaiting, ret. intros H.
  eapply settles_in_drain; [|exact H].
  eapply settles_in_await; [now intros _| |apply Promise_all_settles, Hqs].
  intros [ss|e|] w0; simpl; try tauto. intros Hss. exists ss. split; congruence.
Qed.

Lemma parallel_never_throws this w name requiredToFail requiredToSucceed cs n r w' :
  heap w !! this = Some (ParallelNode name requiredToFail requiredToSucceed cs) ->
  tick n this w = (r, w') -> forall e, r <> Throws e.
Proof.
  intros Hobj H e ->. destruct n as [|n]; [discriminate|].
  unfold tick in H. rewrite run_S in H. unfold dispatch in H.
  rewrite (bind_run _ _ _ _ _ (deref_some _ _ _ Hobj)) in H.
  exact (parallel_tick_settles _ _ _ _ _ _ _ H).
Qed.

(** No outcome is collected once a promise has run out of fuel. *)
Lemma both_no_bottom {A} : forall (p : Promise Payload A) q,
  settles_in (fulfils (Forall (fun r => r <> OutOfFuel))) q ->
  settles_in (fulfils (Forall (fun r => r <> OutOfFuel))) (both p q).
Proof.
  induction p as [r|job1 IHp] using Promise_induction; intros q Hq.
  - assert (Hr : r = OutOfFuel \/ r <> OutOfFuel)
      by (destruct r; (now left) || (now right)).
    destruct Hr as [->|Hr]; [exact I|].
    induction q as [rs|job2 IHq] using Promise_induction.
    + rewrite both_settled by exact Hr. destruct rs as [l|e|]; simpl in *;
        [now constructor|exact Hq|exact I].
    + rewrite both_held by exact Hr. simpl in *. intros w. specialize (Hq w).
      specialize (IHq w). destruct (job2 w) as [q1 w1]. now apply IHq.
  - destruct q as [rs|job2].
    + assert (Hrs : rs = OutOfFuel \/ rs <> OutOfFuel)
        by (destruct rs; (now left) || (now right)).
      destruct Hrs as [->|Hrs]; [exact I|].
      rewrite both_wait by exact Hrs. simpl. intros w. specialize (IHp w).
      destruct (job1 w) as [p1 w1]. now apply IHp.
    + rewrite both_turn. simpl in Hq |- *. intros w. specialize (IHp w).
      destruct (job1 w) as [p1 w1]. destruct (bottom_or_not p1) as [->|Hne].
      * exact I.
      * rewrite turn_goes_on by exact Hne. specialize (Hq w1).
        destruct (job2 w1) as [q1 w2]. now apply IHp.
Qed.

Lemma together_no_bottom {A} (ps : list (Promise Payload A)) w outcomes w' :
  drain (together ps) w = (Returns outcomes, w') ->
  Forall (fun r => r <> OutOfFuel) outcomes.
Proof.
  intros H.
  apply (settles_in_drain (fulfils (Forall (fun r => r <> OutOfFuel)))
           (together ps) w (Returns outcomes) w'); [|exact H].
  clear. unfold together. induction ps as [|p ps IH]; simpl; [constructor|].
  now apply both_no_bottom.
Qed.

(** Every outcome of children ticked together is a vote. *)
Lemma ticked_together_votes fuel cs outcomes w w' :
  ticked_together fuel cs outcomes w w' ->
  exists ss,
    votes fuel cs ss w w' /\ Forall2 (fun r s => vote r = Some s) outcomes ss.
Proof.
  intros H. pose proof H as (ps & w1 & _ & Hd).
  apply together_no_bottom in Hd.
  assert (Hss : exists ss, Forall2 (fun r s => vote r = Some s) outcomes ss).
  { clear -Hd. induction Hd as [|r outcomes Hr _ (ss & IH)]; [now exists []|].
    destruct r as [s|e|]; [exists (s :: ss)|exists (Failure :: ss)|contradiction];
      now constructor. }
  destruct Hss as (ss & Hss). exists ss. split; [now exists outcomes|exact Hss].
Qed.

(** Awaited alone on a child whose tick throws, [tickChildren] returns
    Failure. *)
Lemma tickChildren_catches n child w e w1 :
  tick n child w = (Throws e, w1) ->
  finish (async (ParallelNode_tickChildren
                   (fun c => run_async n (Tick c)) child)) w =
    (Returns Failure, w1).
Proof.
  unfold tick. rewrite <- finish_run_async.
  unfold finish, async, ParallelNode_tickChildren, try_awaiting, bind.
  destruct (run_async n (Tick child) w) as [[p|e'|] w2]; intros H.
  - rewrite drain_await, H. reflexivity.
  - now injection H as <- <-.
  - discriminate.
Qed.

(** The count of the votes, case by case. *)
Lemma verdict_cases requiredToFail requiredToSucceed ss :
  let succeeded := Z.of_nat (length (filter (fun x => x = Success) ss)) in
  let failed := Z.of_nat (length (filter (fun x => x = Failure) ss)) in
  let v := ParallelNode_verdict requiredToFail requiredToSucceed ss in
  (requiredToSucceed > 0 /\ succeeded >= requiredToSucceed -> v = Success) /\
  (~ (requiredToSucceed > 0 /\ succeeded >= requiredToSucceed) ->
   requiredToFail > 0 /\ failed >= requiredToFail -> v = Failure) /\
  (~ (requiredToSucceed > 0 /\ succeeded >= requiredToSucceed) ->
   ~ (requiredToFail > 0 /\ failed >= requiredToFail) -> v = Running) /\
  (requiredToSucceed <= 0 -> v <> Success) /\
  (requiredToFail <= 0 -> v <> Failure).
Proof.
  intros succeeded failed v. subst v. unfold ParallelNode_verdict.
  fold succeeded failed.
  repeat case_bool_decide; simpl; repeat split; intros;
    try reflexivity; try discriminate; try tauto; lia.
Qed.

End Votes.

(** * The builder *)

Section Builder.

Context {Payload : Type}.
Implicit Types (w : World Payload) (obj : NodeObj Payload) (b : BehaviorTreeBuilder).

Lemma addParentNode_curNode node b w b' w' :
  addParentNode node b w = (Returns b', w') -> curNode b' = curNode b.
Proof.
  unfold addParentNode. intros H.
  apply bind_returns in H as (_ & w1 & _ & H). now injection H as <- _.
Qed.

Lemma do_curNode name (fn : Fn Payload) b w b' w' :
  do name fn b w = (Returns b', w') -> curNode b' = curNode b.
Proof.
  unfold do. destruct (Stack.isEmpty (parentNodeStack b)); [discriminate|].
  intros H.
  apply bind_returns in H as (a & w1 & _ & H).
  apply bind_returns in H as (top & w2 & _ & H).
  apply bind_returns in H as (_ & w3 & _ & H). now injection H as <- _.
Qed.

(** Only [end()] assigns [curNode]. *)
Lemma call_curNode (m : Method) b w b' w' :
  is_end m = false -> call m b w = (Returns b', w') -> curNode b' = curNode b.
Proof.
  intros Hm H. destruct m; simpl in *; try discriminate;
    try (unfold inverter, sequence, parallel, selector, bundle_selector, repeat,
           untilFail in H;
         apply bind_returns in H as (node & w1 & _ & H);
         now apply addParentNode_curNode in H).
  - now apply do_curNode in H.
  - unfold condition in H. now apply do_curNode in H.
  - unfold splice in H. destruct (Stack.isEmpty (parentNodeStack b)); [discriminate|].
    apply bind_returns in H as (top & w2 & _ & H).
    apply bind_returns in H as (_ & w3 & _ & H). now injection H as <- _.
Qed.

Lemma chain_curNode (ms : list Method) : forall b w b' w',
  forallb (fun m => negb (is_end m)) ms = true ->
  chain ms b w = (Returns b', w') -> curNode b' = curNode b.
Proof.
  induction ms as [|m ms IH]; intros b w b' w' Hms H; simpl in *.
  - now injection H as <- _.
  - apply andb_true_iff in Hms as [Hm Hms].
    apply bind_returns in H as (b1 & w1 & H1 & H).
    rewrite (IH _ _ _ _ Hms H). eapply call_curNode; eauto.
    now apply negb_true_iff.
Qed.

End Builder.

(** * In a forest, a tick touches no node above the one it is called on *)

Section Forest.

Context {Payload : Type}.
Implicit Types (w : World Payload) (obj : NodeObj Payload) (c : Composite).
Variable rank : addr -> nat.

Lemma kids_erase obj : kids (erase obj) = kids obj.
Proof. now destruct obj. Qed.

Lemma acyclic_same_tree w w' :
  same_tree w w' -> acyclic_by rank w -> acyclic_by rank w'.
Proof.
  intros Hs Hac a obj' child Hobj' Hin. specialize (Hs a).
  rewrite Hobj' in Hs. destruct (heap w !! a) as [obj|] eqn:Hobj; [|discriminate].
  injection Hs as Hs. apply (Hac a obj child Hobj).
  now rewrite <- kids_erase, <- Hs, kids_erase.
Qed.

(** A call that writes nothing but the cursor of [this]. *)
Lemma above_write {A} (m : Call Payload A) this :
  keeps_tree m ->
  (forall w r w' b, m w = (r, w') -> b <> this -> heap w' !! b = heap w !! b) ->
  above rank this m.
Proof.
  intros Hk Hw w r w' Hac H. split.
  - eapply acyclic_same_tree; eauto.
  - intros b Hb. eapply Hw; eauto. intros ->. lia.
Qed.

Lemma above_pure {A} (m : Call Payload A) a :
  (forall w r w', m w = (r, w') -> heap w' = heap w) -> above rank a m.
Proof.
  intros Hm w r w' Hac H. apply Hm in H.
  split; [|intros b _; now rewrite H].
  intros x obj child. rewrite H. apply Hac.
Qed.

Lemma above_ret {A} a (x : A) : above rank a (ret (W := World Payload) x).
Proof. apply above_pure. intros w r w' H. now injection H as _ <-. Qed.

Lemma above_throw {A} a e : above rank a (throw (W := World Payload) (A := A) e).
Proof. apply above_pure. intros w r w' H. now injection H as _ <-. Qed.

Lemma above_diverge {A} a : above rank a (diverge (W := World Payload) (A := A)).
Proof. apply above_pure. intros w r w' H. now injection H as _ <-. Qed.

Lemma above_bind {A B} a (m : Call Payload A) (k : A -> Call Payload B) :
  above rank a m -> (forall x, above rank a (k x)) -> above rank a (bind m k).
Proof.
  intros Hm Hk w r w' Hac H. unfold bind in H.
  destruct (m w) as [[x|e|] w1] eqn:E.
  - destruct (Hm _ _ _ Hac E) as [Hac1 H1].
    destruct (Hk x _ _ _ Hac1 H) as [Hac2 H2].
    split; [exact Hac2|]. intros b Hb. now rewrite H2, H1.
  - injection H as _ <-. eapply Hm; eauto.
  - injection H as _ <-. eapply Hm; eauto.
Qed.

Lemma above_weaken {A} a a' (m : Call Payload A) :
  (rank a <= rank a')%nat -> above rank a' m -> above rank a m.
Proof.
  intros Hle Hm w r w' Hac H. destruct (Hm _ _ _ Hac H) as [Hac' H'].
  split; [exact Hac'|]. intros b Hb. apply H'. lia.
Qed.

Lemma above_deref a b : above rank a (deref (Payload := Payload) b).
Proof.
  apply above_pure. intros w r w' H. unfold deref in H.
  destruct (heap w !! b); now injection H as _ <-.
Qed.

Lemma above_get_fields a this : above rank a (get_fields (Payload := Payload) this).
Proof.
  unfold get_fields. apply above_bind; [apply above_deref|]. intros obj.
  destruct (fields obj); [apply above_ret|apply above_throw].
Qed.

Lemma above_get_enumerator a this :
  above rank a (get_enumerator (Payload := Payload) this).
Proof.
  unfold get_enumerator. apply above_bind; [apply above_get_fields|]. intros c.
  destruct (enumerator c); [apply above_ret|apply above_throw].
Qed.

Lemma above_invoke a fn : above rank a (invoke (Payload := Payload) fn).
Proof.
  apply above_pure. intros w r w' H. unfold invoke in H.
  destruct (fn (sd w)) as [[res|e] s]; now injection H as _ <-.
Qed.

Lemma above_set_enumerator this e :
  above rank this (set_enumerator (Payload := Payload) this e).
Proof.
  apply above_write; [apply keeps_set_enumerator|].
  intros w r w' b H Hb. unfold set_enumerator, get_fields, bind, deref, store in H.
  destruct (heap w !! this) as [obj|] eqn:Hobj; [|now injection H as _ <-].
  rewrite Hobj in H. unfold ret, throw in H.
  destruct (fields obj); injection H as _ <-; [|reflexivity].
  cbn [heap]. now apply list_lookup_insert_ne.
Qed.

Ltac above_step :=
  first
    [ apply above_ret | apply above_throw | apply above_diverge
    | apply above_deref | apply above_get_fields | apply above_get_enumerator
    | apply above_set_enumerator | apply above_invoke
    | apply above_bind; [|intros ?]
    | match goal with
      | H : forall a, above _ a (?f a) |- above _ ?x (?f ?x) => apply H
      | |- above _ _ (match ?x with _ => _ end) => destruct x
      | |- above _ _ (if ?x then _ else _) => destruct x
      end ].

Lemma above_next this : above rank this (next (Payload := Payload) this).
Proof. unfold next, hasNext. repeat above_step. Qed.

Lemma above_reset this : above rank this (reset (Payload := Payload) this).
Proof. unfold reset. repeat above_step. Qed.

Lemma above_init_unless_kept this :
  above rank this (init_unless_kept (Payload := Payload) this).
Proof. unfold init_unless_kept, init. repeat above_step. Qed.

(** The current child ranks above [this], and so does all that its tick
    touches. *)
Lemma above_tick_current (tk : addr -> Call Payload BehaviorTreeStatus) this :
  (forall child, above rank child (tk child)) ->
  above rank this (tick_current tk this).
Proof.
  intros Ht w r w' Hac H. unfold tick_current, bind in H.
  destruct (current this w) as [[[child|]|e|] w1] eqn:Hcur.
  - apply current_child in Hcur as [-> (obj & Hobj & Hin)].
    pose proof (Hac this obj child Hobj Hin) as Hlt.
    eapply (above_weaken this child); [lia|apply Ht|exact Hac|exact H].
  - assert (Hab : above rank this (current (Payload := Payload) this))
      by (unfold current; repeat above_step).
    destruct (Hab _ _ _ Hac Hcur) as [Hac1 H1].
    injection H as _ <-. now split.
  - assert (Hab : above rank this (current (Payload := Payload) this))
      by (unfold current; repeat above_step).
    injection H as _ <-. eapply Hab; eauto.
  - assert (Hab : above rank this (current (Payload := Payload) this))
      by (unfold current; repeat above_step).
    injection H as _ <-. eapply Hab; eauto.
Qed.

Lemma above_keeps {A} (m : Call Payload A) a n :
  (n <= rank a)%nat -> above rank a m ->
  keeps_call (acyclic_by rank)
    (fun w w' => forall b, (rank b < n)%nat -> heap w' !! b = heap w !! b) m.
Proof.
  intros Hn Hm w r w' Hac H. destruct (Hm _ _ _ Hac H) as [Hac' Hb].
  split; [exact Hac'|]. intros b Hlt. apply Hb. lia.
Qed.

(** No job of a tick touches a node that ranks below the node ticked. *)
Lemma above_run_async fuel n e :
  (n <= rank (target e))%nat ->
  keeps_spawn (acyclic_by rank)
    (fun w w' => forall b, (rank b < n)%nat -> heap w' !! b = heap w !! b)
    (run_async (Payload := Payload) fuel e).
Proof.
  intros Hn.
  apply (keeps_spawn_run _ _ (fun a => (n <= rank a)%nat)); [..|exact Hn].
  - now intros w b _.
  - intros w1 w2 w3 H12 H23 b Hb. now rewrite H23, H12.
  - intros w t Hac. split; [exact Hac|]. now intros b _.
  - intros this HT. apply (above_keeps _ this); [exact HT|].
    unfold init. repeat above_step.
  - intros this HT. apply (above_keeps _ this); [exact HT|apply above_reset].
  - intros this HT. apply (above_keeps _ this); [exact HT|apply above_next].
  - intros w this obj child Hac HT Hobj Hin.
    pose proof (Hac this obj child Hobj Hin). lia.
Qed.

Lemma above_dispatch (tk lp : addr -> Call Payload BehaviorTreeStatus) sp e :
  (forall child, above rank child (tk child)) ->
  (forall node, above rank node (lp node)) ->
  (forall n child,
     (n <= rank child)%nat ->
     keeps_spawn (acyclic_by rank)
       (fun w w' => forall b, (rank b < n)%nat -> heap w' !! b = heap w !! b)
       (sp child)) ->
  above rank (target e) (dispatch tk lp sp e).
Proof.
  intros Ht Hl Hs. destruct e as [this|this]; simpl target.
  - intros w r w' Hac H. unfold dispatch in H.
    destruct (heap w !! this) as [obj|] eqn:Hobj.
    2:{ unfold bind, deref in H. rewrite Hobj in H. injection H as _ <-.
        split; [exact Hac|reflexivity]. }
    rewrite (bind_run _ _ _ _ _ (deref_some _ _ _ Hobj)) in H.
    assert (Hkids : forall child, child ∈ kids obj -> above rank this (tk child)).
    { intros child Hin. apply (above_weaken this child); [|apply Ht].
      pose proof (Hac this obj child Hobj Hin). lia. }
    pose proof (Hac this obj) as Hrank.
    destruct obj as [nm fn|nm childNode|nm rf rs cs| | | |];
      simpl in Hkids, Hrank.
    + revert H. apply (above_bind this); [apply above_invoke| |exact Hac].
      intros [s|]; [apply above_ret|apply above_throw].
    + destruct childNode as [child|]; simpl in *.
      * revert H. apply (above_bind this); [apply Hkids; left| |exact Hac].
        intros s. repeat above_step.
      * revert H. now apply above_throw.
    + assert (Hp : keeps_call (acyclic_by rank)
                     (fun w w' =>
                        forall b, (rank b < rank this)%nat ->
                                  heap w' !! b = heap w !! b)
                     (ParallelNode_tick sp rf rs cs)).
      { apply keeps_call_ParallelNode_tick.
        - now intros w0 b _.
        - intros w1 w2 w3 H12 H23 b Hb. now rewrite H23, H12.
        - intros child Hin. apply Hs. specialize (Hrank child Hobj Hin). lia. }
      exact (Hp _ _ _ Hac H).
    + revert H. unfold SelectorNode_tick, current.
      apply (above_bind this); [apply above_init_unless_kept| |exact Hac].
      intros _. repeat above_step.
    + revert H. unfold RepeatNode_tick, current.
      apply (above_bind this); [apply above_init_unless_kept| |exact Hac].
      intros _. repeat above_step.
    + revert H. unfold UntilFailNode_tick, current.
      apply (above_bind this); [apply above_init_unless_kept| |exact Hac].
      intros _. repeat above_step.
    + revert H. unfold SequenceNode_tick, current.
      apply (above_bind this); [apply above_init_unless_kept| |exact Hac].
      intros _. repeat above_step.
  - unfold dispatch. apply above_bind; [apply above_deref|]. intros obj.
    destruct obj; try apply above_throw;
      unfold SelectorNode_do_while, RepeatNode_do_while, UntilFailNode_do_while,
        SequenceNode_do_while;
      (apply above_bind; [now apply above_tick_current|]); intros s;
      repeat first [ apply above_next | apply above_reset | above_step ].
Qed.

Lemma above_run fuel : forall e, above rank (target e) (run (Payload := Payload) fuel e).
Proof.
  induction fuel as [|fuel IH]; intros e.
  - apply above_diverge.
  - rewrite run_S. apply above_dispatch.
    + intros child. apply (IH (Tick child)).
    + intros node. apply (IH (DoWhile node)).
    + intros n child Hn. now apply above_run_async.
Qed.

(** In an acyclic store the tick of a child leaves its parent alone. *)
Lemma child_tick_frame fuel w this obj child r w1 :
  acyclic_by rank w -> heap w !! this = Some obj -> child ∈ kids obj ->
  tick fuel child w = (r, w1) ->
  heap w1 !! this = heap w !! this.
Proof.
  intros Hac Hobj Hin H.
  destruct (above_run fuel (Tick child) w r w1 Hac H) as [_ Hb].
  apply Hb. simpl. eapply Hac; eauto.
Qed.

Lemma erase_put_cursor obj k : erase (put_cursor k obj) = erase obj.
Proof.
  unfold put_cursor. destruct (fields obj) as [c|] eqn:Hc; [|reflexivity].
  now apply (erase_with_fields _ c).
Qed.

Lemma same_tree_at_cursor w this k : same_tree w (at_cursor this k w).
Proof.
  intros a. unfold at_cursor.
  destruct (heap w !! this) as [obj|] eqn:Hobj; [|reflexivity]. cbn [heap].
  destruct (decide (a = this)) as [->|Hne].
  - rewrite list_lookup_insert_eq by (eapply lookup_lt_Some; eauto).
    rewrite Hobj. cbn [fmap option_fmap option_map]. f_equal.
    apply erase_put_cursor.
  - now rewrite list_lookup_insert_ne by congruence.
Qed.

(** In a forest the proviso of [passes] comes for free: the children of a
    node cannot reenter its tick. *)
Lemma passes_in_forest s fuel this cs : forall k w w' obj c,
  acyclic_by rank w -> heap w !! this = Some obj -> fields obj = Some c ->
  (forall child, child ∈ cs -> child ∈ children c) ->
  returns_in_turn s fuel this k cs w w' ->
  passes s fuel this k cs w w'.
Proof.
  induction cs as [|child rest IH]; intros k w w' obj c Hac Hobj Hc Hcs H;
    simpl in *; [exact H|].
  destruct H as (w1 & Ht & H). exists w1.
  pose proof (lookup_at_cursor _ _ _ k Hobj) as Hobj'.
  pose proof (fields_put_cursor _ _ k Hc) as Hc'.
  assert (Hac' : acyclic_by rank (at_cursor this k w))
    by (eapply acyclic_same_tree; [apply same_tree_at_cursor|exact Hac]).
  assert (Hf : heap w1 !! this = heap (at_cursor this k w) !! this).
  { eapply child_tick_frame; eauto.
    rewrite (kids_fields _ _ Hc'). simpl. apply Hcs. left. }
  assert (Hac1 : acyclic_by rank w1).
  { eapply acyclic_same_tree; [|exact Hac']. eapply keeps_run. exact Ht. }
  split; [exact Ht|]. split; [exact Hf|].
  rewrite Hobj' in Hf.
  apply (IH _ _ _ _ _ Hac1 Hf Hc'); [|exact H].
  intros x Hx. simpl. apply Hcs. now right.
Qed.

End Forest.

(** * The properties of the specification *)

Section Properties.

Context {Payload : Type}.
Implicit Types (w : World Payload) (obj : NodeObj Payload) (c : Composite).

(** With the cursor on its first child, a tick starts from that child, in
    the store as it is. *)
Lemma tick_from_first K m this w obj c first :
  heap w !! this = Some obj -> kind_of obj = Some K -> fields obj = Some c ->
  enumerator c = Some {| currentIndex := 0 |} -> children c !! 0%nat = Some first ->
  tick (S (S m)) this w =
    let (r, w1) := tick m first w in
    settle K (fun node => run m (DoWhile node)) this r w1.
Proof.
  intros Hobj HK Hc He Hfirst.
  assert (Hentry : entry c = 0%nat).
  { unfold entry. rewrite He. simpl. now destruct (keepState c). }
  rewrite (tick_enters K m this w obj c first Hobj HK Hc); rewrite Hentry; auto.
  now rewrite (at_cursor_same _ _ _ _ _ Hobj Hc He).
Qed.

(** C1. For each of Sequence, Selector, Repeat and UntilFail: when, in a
    tick, the children from the entry child on let the pass go on and the
    next one returns Running, the tick returns Running and leaves the store
    as that child left it, the cursor still on that child (no reset); with
    keepState = true the next tick of the node starts by ticking that same
    child, in the store as it is; with keepState = false every tick first
    puts the cursor on the first child and starts by ticking it. *)
Theorem running_child_is_resumed (K : Kind) (this : addr) :
  (forall fuel w obj c mid child post w1 w2,
     heap w !! this = Some obj -> kind_of obj = Some K -> fields obj = Some c ->
     drop (entry c) (children c) = mid ++ child :: post ->
     passes (continues K) fuel this (entry c) mid w w1 ->
     tick fuel child (at_cursor this (entry c + length mid) w1) = (Returns Running, w2) ->
     heap w2 !! this = heap (at_cursor this (entry c + length mid) w1) !! this ->
     (forall n, (fuel + length (children c) + 1 <= n)%nat ->
        tick n this w = (Returns Running, w2)) /\
     cursor w2 this = Some (entry c + length mid)%nat /\
     (keepState c = true ->
      forall w3 m, heap w3 !! this = heap w2 !! this ->
        tick (S (S m)) this w3 =
          let (r, w4) := tick m child w3 in
          settle K (fun node => run m (DoWhile node)) this r w4)) /\
  (forall w obj c first m,
     heap w !! this = Some obj -> kind_of obj = Some K -> fields obj = Some c ->
     keepState c = false -> children c !! 0%nat = Some first ->
     cursor (at_cursor this 0 w) this = Some 0%nat /\
     tick (S (S m)) this w =
       let (r, w1) := tick m first (at_cursor this 0 w) in
       settle K (fun node => run m (DoWhile node)) this r w1).
Proof.
  split.
  - intros fuel w obj c mid child post w1 w2 Hobj HK Hc Hd Hp Ht Hf.
    destruct (drop_entry_lookup _ _ _ _ Hd) as [Hchild _].
    destruct (passes_this _ _ _ _ _ _ _ _ Hp Hobj) as (objm & Hobjm & Hsame).
    pose proof (lookup_at_cursor _ _ _ (entry c + length mid) Hobjm) as Hobj2.
    rewrite Hsame, <- Hf in Hobj2.
    pose proof (fields_put_cursor _ _ (entry c + length mid) Hc) as Hc2.
    split; [|split].
    + intros n Hn.
      rewrite (tick_stops K fuel this w w1 obj c mid child post Running w2 n);
        auto; [|now destruct K].
      destruct (decide (Running = resets K)) as [E|_]; [now destruct K|].
      now destruct K.
    + unfold cursor. now rewrite Hobj2, Hc2.
    + intros Hks w3 m H3. rewrite Hobj2 in H3.
      assert (HK2 : kind_of (put_cursor (entry c + length mid) obj) = Some K)
        by now rewrite kind_of_put_cursor.
      rewrite (tick_enters K m this w3 _ _ child H3 HK2 Hc2);
        unfold entry at 1; simpl; rewrite Hks; [|exact Hchild].
      now rewrite (at_cursor_same _ _ _ _ _ H3 Hc2 eq_refl).
  - intros w obj c first m Hobj HK Hc Hks Hfirst.
    split; [eapply cursor_at_cursor; eauto|].
    assert (Hentry : entry c = 0%nat).
    { unfold entry. rewrite Hks. now destruct (enumerator c). }
    rewrite (tick_enters K m this w obj c first); auto; now rewrite Hentry.
Qed.

Lemma passes_lookup s fuel this k mid w w1 obj j :
  passes s fuel this k mid w w1 -> heap w !! this = Some obj ->
  heap (at_cursor this j w1) !! this = Some (put_cursor j obj).
Proof.
  intros Hp Hobj.
  destruct (passes_this _ _ _ _ _ _ _ _ Hp Hobj) as (objm & Hobjm & Hsame).
  now rewrite (lookup_at_cursor _ _ _ j Hobjm), Hsame.
Qed.

Lemma stopped_lookup s fuel this k mid w w1 obj j w2 i :
  passes s fuel this k mid w w1 -> heap w !! this = Some obj ->
  heap w2 !! this = heap (at_cursor this j w1) !! this ->
  heap (at_cursor this i w2) !! this = Some (put_cursor i obj).
Proof.
  intros Hp Hobj Hf.
  rewrite (passes_lookup _ _ _ _ _ _ _ _ j Hp Hobj) in Hf.
  now rewrite (lookup_at_cursor _ _ _ i Hf), put_cursor_put_cursor.
Qed.

(** After a reset the next tick starts from the first child. *)
Lemma reset_restarts K this w obj c first m :
  heap (at_cursor this 0 w) !! this = Some (put_cursor 0 obj) ->
  kind_of obj = Some K -> fields obj = Some c ->
  children c !! 0%nat = Some first ->
  cursor (at_cursor this 0 w) this = Some 0%nat /\
  tick (S (S m)) this (at_cursor this 0 w) =
    let (r, w1) := tick m first (at_cursor this 0 w) in
    settle K (fun node => run m (DoWhile node)) this r w1.
Proof.
  intros Hobj HK Hc Hfirst.
  pose proof (fields_put_cursor _ _ 0 Hc) as Hc0.
  split.
  - unfold cursor. now rewrite Hobj, Hc0.
  - eapply tick_from_first; eauto. now rewrite kind_of_put_cursor.
Qed.

(** C2. For every Sequence node: in a tick in which every child from the
    entry child to the last returns Success, in order, the Sequence returns
    Success and the cursor is reset, so that the next tick starts from
    child 0; in a tick in which the children pass up to one that returns
    Failure, the Sequence resets its cursor and returns Failure. *)
Theorem sequence_succeeds_or_fails fuel this w c :
  heap w !! this = Some (SequenceNode c) ->
  (forall w1 n,
     drop (entry c) (children c) <> [] ->
     passes Success fuel this (entry c) (drop (entry c) (children c)) w w1 ->
     (fuel + length (children c) + 1 <= n)%nat ->
     tick n this w = (Returns Success, at_cursor this 0 w1) /\
     cursor (at_cursor this 0 w1) this = Some 0%nat /\
     (forall first m, children c !! 0%nat = Some first ->
        tick (S (S m)) this (at_cursor this 0 w1) =
          let (r, w') := tick m first (at_cursor this 0 w1) in
          settle Sequence (fun node => run m (DoWhile node)) this r w')) /\
  (forall mid child post w1 w2 n,
     drop (entry c) (children c) = mid ++ child :: post ->
     passes Success fuel this (entry c) mid w w1 ->
     tick fuel child (at_cursor this (entry c + length mid) w1) = (Returns Failure, w2) ->
     heap w2 !! this = heap (at_cursor this (entry c + length mid) w1) !! this ->
     (fuel + length (children c) + 1 <= n)%nat ->
     tick n this w = (Returns Failure, at_cursor this 0 w2) /\
     cursor (at_cursor this 0 w2) this = Some 0%nat).
Proof.
  intros Hobj. split.
  - intros w1 n Hne Hp Hn.
    pose proof (passes_lookup _ _ _ _ _ _ _ _ 0 Hp Hobj) as Hobj0.
    split; [|split].
    + eapply (tick_exhausts Sequence); eauto.
    + unfold cursor. now rewrite Hobj0.
    + intros first m Hfirst.
      eapply (reset_restarts Sequence); eauto.
  - intros mid child post w1 w2 n Hd Hp Ht Hf Hn.
    pose proof (stopped_lookup _ _ _ _ _ _ _ _ _ _ 0 Hp Hobj Hf) as Hobj0.
    split.
    + rewrite (tick_stops Sequence fuel this w w1 (SequenceNode c) c mid child post Failure w2 n);
        auto; discriminate.
    + unfold cursor. now rewrite Hobj0.
Qed.

(** C3. For every Selector tick: the children are tried in order from the
    entry child, and the first of them that does not return Failure
    decides: on its Success the cursor is reset and Success is returned, on
    its Running, Running is returned and the cursor stays on it; when all
    of them return Failure the Selector resets its cursor and returns
    Failure. *)
Theorem selector_first_not_failing fuel this w c :
  heap w !! this = Some (SelectorNode c) ->
  (forall mid child post w1 s w2 n,
     drop (entry c) (children c) = mid ++ child :: post ->
     passes Failure fuel this (entry c) mid w w1 ->
     tick fuel child (at_cursor this (entry c + length mid) w1) = (Returns s, w2) ->
     heap w2 !! this = heap (at_cursor this (entry c + length mid) w1) !! this ->
     s <> Failure ->
     (fuel + length (children c) + 1 <= n)%nat ->
     match s with
     | Success =>
         tick n this w = (Returns Success, at_cursor this 0 w2) /\
         cursor (at_cursor this 0 w2) this = Some 0%nat
     | _ =>
         tick n this w = (Returns s, w2) /\
         cursor w2 this = Some (entry c + length mid)%nat
     end) /\
  (forall w1 n,
     drop (entry c) (children c) <> [] ->
     passes Failure fuel this (entry c) (drop (entry c) (children c)) w w1 ->
     (fuel + length (children c) + 1 <= n)%nat ->
     tick n this w = (Returns Failure, at_cursor this 0 w1) /\
     cursor (at_cursor this 0 w1) this = Some 0%nat).
Proof.
  intros Hobj. split.
  - intros mid child post w1 s w2 n Hd Hp Ht Hf Hs Hn.
    pose proof (tick_stops Selector fuel this w w1 (SelectorNode c) c mid child post s w2 n
                  Hobj eq_refl eq_refl Hd Hp Ht Hf Hs Hn) as Htick.
    simpl in Htick.
    destruct s; [|contradiction|].
    + split; [exact Htick|].
      unfold cursor.
      now rewrite (stopped_lookup _ _ _ _ _ _ _ _ _ _ 0 Hp Hobj Hf).
    + split; [exact Htick|].
      unfold cursor.
      now rewrite Hf, (passes_lookup _ _ _ _ _ _ _ _ _ Hp Hobj).
  - intros w1 n Hne Hp Hn. split.
    + eapply (tick_exhausts Selector); eauto.
    + unfold cursor. now rewrite (passes_lookup _ _ _ _ _ _ _ _ 0 Hp Hobj).
Qed.

(** C4, as the code has it. For every UntilFail node with at least one
    child: a tick returns Running after all the children from the entry
    child on returned Success (the cursor is reset), and also as soon as a
    child returns Running (the cursor stays on that child); it returns
    Failure the first time a child returns Failure (the cursor is reset);
    it never returns Success. *)
Theorem untilFail_runs_until_failure fuel this w c :
  heap w !! this = Some (UntilFailNode c) -> children c <> [] ->
  (forall w1 n,
     drop (entry c) (children c) <> [] ->
     passes Success fuel this (entry c) (drop (entry c) (children c)) w w1 ->
     (fuel + length (children c) + 1 <= n)%nat ->
     tick n this w = (Returns Running, at_cursor this 0 w1) /\
     cursor (at_cursor this 0 w1) this = Some 0%nat) /\
  (forall mid child post w1 w2 n,
     drop (entry c) (children c) = mid ++ child :: post ->
     passes Success fuel this (entry c) mid w w1 ->
     tick fuel child (at_cursor this (entry c + length mid) w1) = (Returns Failure, w2) ->
     heap w2 !! this = heap (at_cursor this (entry c + length mid) w1) !! this ->
     (fuel + length (children c) + 1 <= n)%nat ->
     tick n this w = (Returns Failure, at_cursor this 0 w2) /\
     cursor (at_cursor this 0 w2) this = Some 0%nat) /\
  (forall mid child post w1 w2 n,
     drop (entry c) (children c) = mid ++ child :: post ->
     passes Success fuel this (entry c) mid w w1 ->
     tick fuel child (at_cursor this (entry c + length mid) w1) = (Returns Running, w2) ->
     heap w2 !! this = heap (at_cursor this (entry c + length mid) w1) !! this ->
     (fuel + length (children c) + 1 <= n)%nat ->
     tick n this w = (Returns Running, w2) /\
     cursor w2 this = Some (entry c + length mid)%nat) /\
  (forall n s w', tick n this w = (Returns s, w') -> s <> Success).
Proof.
  intros Hobj _. split; [|split; [|split]].
  - intros w1 n Hne Hp Hn. split.
    + eapply (tick_exhausts UntilFail); eauto.
    + unfold cursor. now rewrite (passes_lookup _ _ _ _ _ _ _ _ 0 Hp Hobj).
  - intros mid child post w1 w2 n Hd Hp Ht Hf Hn. split.
    + rewrite (tick_stops UntilFail fuel this w w1 (UntilFailNode c) c mid child post Failure w2 n);
        auto; discriminate.
    + unfold cursor.
      now rewrite (stopped_lookup _ _ _ _ _ _ _ _ _ _ 0 Hp Hobj Hf).
  - intros mid child post w1 w2 n Hd Hp Ht Hf Hn. split.
    + rewrite (tick_stops UntilFail fuel this w w1 (UntilFailNode c) c mid child post Running w2 n);
        auto; discriminate.
    + unfold cursor.
      now rewrite Hf, (passes_lookup _ _ _ _ _ _ _ _ _ Hp Hobj).
  - intros n s w' H.
    exact (tick_possible n this w _ UntilFail s w' Hobj eq_refl H).
Qed.

(** C5. For every Repeat node and every tick: a status the tick returns is
    Running, never Success or Failure; and the tick does return Running
    when its children succeed up to the last (cursor reset), when one of
    them fails (cursor reset), and when one of them is running. *)
Theorem repeat_always_running fuel this w c :
  heap w !! this = Some (RepeatNode c) ->
  (forall n s w', tick n this w = (Returns s, w') -> s = Running) /\
  (forall w1 n,
     drop (entry c) (children c) <> [] ->
     passes Success fuel this (entry c) (drop (entry c) (children c)) w w1 ->
     (fuel + length (children c) + 1 <= n)%nat ->
     tick n this w = (Returns Running, at_cursor this 0 w1)) /\
  (forall mid child post w1 s w2 n,
     drop (entry c) (children c) = mid ++ child :: post ->
     passes Success fuel this (entry c) mid w w1 ->
     tick fuel child (at_cursor this (entry c + length mid) w1) = (Returns s, w2) ->
     heap w2 !! this = heap (at_cursor this (entry c + length mid) w1) !! this ->
     s <> Success ->
     (fuel + length (children c) + 1 <= n)%nat ->
     tick n this w =
       (Returns Running, if decide (s = Failure) then at_cursor this 0 w2 else w2)).
Proof.
  intros Hobj. split; [|split].
  - intros n s w' H.
    exact (tick_possible n this w _ Repeat s w' Hobj eq_refl H).
  - intros w1 n Hne Hp Hn. eapply (tick_exhausts Repeat); eauto.
  - intros mid child post w1 s w2 n Hd Hp Ht Hf Hs Hn.
    now rewrite (tick_stops Repeat fuel this w w1 (RepeatNode c) c mid child post s w2 n).
Qed.

(** C6. For every Parallel tick: all the children are ticked, together,
    their jobs taking turns, and each gives one vote (a child whose
    promise is rejected votes Failure); with [succeeded] and [failed] the
    numbers of Success and Failure votes, the tick returns Success if
    requiredToSucceed > 0 and succeeded >= requiredToSucceed, else Failure
    if requiredToFail > 0 and failed >= requiredToFail, else Running; so a
    threshold of 0 rules its outcome out. *)
Theorem parallel_counts_votes fuel this w name requiredToFail requiredToSucceed
    cs ss w' :
  heap w !! this = Some (ParallelNode name requiredToFail requiredToSucceed cs) ->
  votes fuel cs ss w w' ->
  let succeeded := Z.of_nat (length (filter (fun x => x = Success) ss)) in
  let failed := Z.of_nat (length (filter (fun x => x = Failure) ss)) in
  length ss = length cs /\
  exists v,
    (forall n, (fuel < n)%nat -> tick n this w = (Returns v, w')) /\
    (requiredToSucceed > 0 /\ succeeded >= requiredToSucceed -> v = Success) /\
    (~ (requiredToSucceed > 0 /\ succeeded >= requiredToSucceed) ->
     requiredToFail > 0 /\ failed >= requiredToFail -> v = Failure) /\
    (~ (requiredToSucceed > 0 /\ succeeded >= requiredToSucceed) ->
     ~ (requiredToFail > 0 /\ failed >= requiredToFail) -> v = Running) /\
    (requiredToSucceed <= 0 -> v <> Success) /\
    (requiredToFail <= 0 -> v <> Failure).
Proof.
  intros Hobj Hv succeeded failed.
  split; [eapply votes_length; eauto|].
  exists (ParallelNode_verdict requiredToFail requiredToSucceed ss).
  split; [|apply verdict_cases].
  intros n Hn. eapply parallel_tick_votes; eauto.
Qed.

(** C7. Under a Parallel, a child whose tick throws is contained:
    [tickChildren] returns Failure for it; when the children are ticked
    together and the promise of child [i] is rejected, vote [i] is Failure,
    the votes of the children that returned are what they returned, and
    the Parallel's tick returns the result of counting those votes; and
    the Parallel's tick throws nothing. A child that throws while it is
    ticked under a Sequence, Selector, Repeat or UntilFail, or under an
    Inverter, makes the tick of that node throw the very same error. *)
Theorem child_errors_contained_or_propagated (this : addr) :
  (forall w name requiredToFail requiredToSucceed cs,
     heap w !! this = Some (ParallelNode name requiredToFail requiredToSucceed cs) ->
     (forall n child w0 e w1,
        tick n child w0 = (Throws e, w1) ->
        finish (async (ParallelNode_tickChildren
                         (fun a => run_async n (Tick a)) child)) w0 =
          (Returns Failure, w1)) /\
     (forall fuel outcomes w' i e,
        ticked_together fuel cs outcomes w w' ->
        outcomes !! i = Some (Throws e) ->
        exists ss v,
          length ss = length cs /\
          ss !! i = Some Failure /\
          (forall j s, outcomes !! j = Some (Returns s) -> ss !! j = Some s) /\
          (forall n, (fuel < n)%nat -> tick n this w = (Returns v, w')) /\
          let succeeded := Z.of_nat (length (filter (fun x => x = Success) ss)) in
          let failed := Z.of_nat (length (filter (fun x => x = Failure) ss)) in
          (requiredToSucceed > 0 /\ succeeded >= requiredToSucceed -> v = Success) /\
          (~ (requiredToSucceed > 0 /\ succeeded >= requiredToSucceed) ->
           requiredToFail > 0 /\ failed >= requiredToFail -> v = Failure) /\
          (~ (requiredToSucceed > 0 /\ succeeded >= requiredToSucceed) ->
           ~ (requiredToFail > 0 /\ failed >= requiredToFail) -> v = Running)) /\
     (forall n r w', tick n this w = (r, w') -> forall e, r <> Throws e)) /\
  (forall K fuel w obj c mid child post w1 e w2 n,
     heap w !! this = Some obj -> kind_of obj = Some K -> fields obj = Some c ->
     drop (entry c) (children c) = mid ++ child :: post ->
     passes (continues K) fuel this (entry c) mid w w1 ->
     tick fuel child (at_cursor this (entry c + length mid) w1) = (Throws e, w2) ->
     (fuel + length (children c) + 1 <= n)%nat ->
     tick n this w = (Throws e, w2)) /\
  (forall fuel w name child e w2 n,
     heap w !! this = Some (InverterNode name (Some child)) ->
     tick fuel child w = (Throws e, w2) ->
     (fuel < n)%nat ->
     tick n this w = (Throws e, w2)).
Proof.
  split; [|split].
  - intros w name requiredToFail requiredToSucceed cs Hobj. split; [|split].
    + intros n child w0 e w1. apply tickChildren_catches.
    + intros fuel outcomes w' i e Ht Hi.
      destruct (ticked_together_votes _ _ _ _ _ Ht) as (ss & Hv & Hss).
      exists ss, (ParallelNode_verdict requiredToFail requiredToSucceed ss).
      split; [eapply votes_length; eauto|]. split; [|split; [|split]].
      * destruct (Forall2_lookup_l _ _ _ _ _ Hss Hi) as (s & Hs & Hvote).
        simpl in Hvote. now injection Hvote as <-.
      * intros j s Hj.
        destruct (Forall2_lookup_l _ _ _ _ _ Hss Hj) as (s' & Hs & Hvote).
        simpl in Hvote. now injection Hvote as <-.
      * intros n Hn. eapply parallel_tick_votes; eauto.
      * destruct (verdict_cases requiredToFail requiredToSucceed ss)
          as (Hs & Hf & Hr & _).
        repeat split; assumption.
    + intros n r w' H. exact (parallel_never_throws _ _ _ _ _ _ _ _ _ Hobj H).
  - intros K fuel w obj c mid child post w1 e w2 n. apply tick_aborts.
  - intros fuel w name child e w2 [|n] Hobj Ht Hn; [lia|].
    unfold tick. rewrite run_S. unfold dispatch.
    rewrite (bind_run _ _ _ _ _ (deref_some _ _ _ Hobj)).
    unfold InverterNode_tick.
    assert (Hc : run n (Tick child) w = (Throws e, w2))
      by (eapply run_mono; [exact Ht|discriminate|lia]).
    now rewrite (bind_run _ _ _ _ _ Hc).
Qed.

(** C10. For every Sequence, Selector, Repeat or UntilFail node with zero
    children, every tick returns Running at once (and so neither Success
    nor Failure), having ticked nothing. *)
Theorem childless_composite_is_running (K : Kind) this w obj c n :
  heap w !! this = Some obj -> kind_of obj = Some K -> fields obj = Some c ->
  children c = [] ->
  tick (S n) this w = (Returns Running, at_cursor this (entry c) w) /\
  sd (at_cursor this (entry c) w) = sd w.
Proof.
  intros Hobj HK Hc Hnil. split; [|apply sd_at_cursor].
  eapply tick_no_child; eauto. now rewrite Hnil.
Qed.

(** ** The builder's chain *)

Lemma addChild_composite w parent c child :
  heap w !! parent = Some (SequenceNode c) ->
  addChild parent child w =
    (Returns tt,
     {| heap := <[parent := SequenceNode (push_child c child)]> (heap w);
        sd := sd w |}).
Proof.
  intros Hobj. unfold addChild.
  now rewrite (bind_run _ _ _ _ _ (deref_some _ _ _ Hobj)).
Qed.

(** [do] under an open Sequence: a new ActionNode, appended to the children
    of the node on top of the stack. *)
Lemma do_under_sequence name (fn : Fn Payload) b w parent c :
  Stack.peek (parentNodeStack b) = inr parent ->
  heap w !! parent = Some (SequenceNode c) ->
  do name fn b w =
    (Returns b,
     {| heap := <[parent := SequenceNode (push_child c (length (heap w)))]>
                  (heap w ++ [ActionNode name fn]);
        sd := sd w |}).
Proof.
  intros Hpeek Hobj. unfold do.
  assert (Hne : Stack.isEmpty (parentNodeStack b) = false).
  { unfold Stack.peek in Hpeek. unfold Stack.isEmpty.
    now destruct (Stack._topNode (parentNodeStack b)). }
  rewrite Hne. unfold new_ActionNode, alloc, bind at 1. rewrite Hpeek.
  unfold lift, ret at 1, bind at 1.
  erewrite bind_run.
  2:{ apply addChild_composite. simpl. rewrite lookup_app_l; [exact Hobj|].
      eapply lookup_lt_Some; eauto. }
  reflexivity.
Qed.

(** C8. The chain sequence("s"), do("a", fnA), do("b", fnB), end(), build()
    on a new builder returns a Sequence node named "s" whose children are
    exactly two Action nodes, named "a" and "b", in that order; build() on
    a builder that went through any calls but end() throws the error
    NO_NODES. *)
Theorem builder_round_trip (fnA fnB : Callable Payload) w :
  (exists root a b w',
     (let* b0 := sequence "s" None new_BehaviorTreeBuilder in
      let* b1 := do "a" fnA b0 in
      let* b2 := do "b" fnB b1 in
      let* b3 := end_ b2 in
      build b3) w = (Returns root, w') /\
     heap w' !! root =
       Some (SequenceNode {| name := "s"; keepState := true;
                             children := [a; b]; enumerator := None |}) /\
     heap w' !! a = Some (ActionNode "a" fnA) /\
     heap w' !! b = Some (ActionNode "b" fnB) /\
     a <> b /\ sd w' = sd w) /\
  (forall ms b' w',
     forallb (fun m => negb (is_end m)) ms = true ->
     chain ms new_BehaviorTreeBuilder w = (Returns b', w') ->
     build b' w' = (Throws (BehaviorTreeError Errors.NO_NODES), w')).
Proof.
  split.
  - set (root := length (heap w)).
    set (c0 := new_Composite "s" (Some true)).
    set (w1 := {| heap := heap w ++ [SequenceNode c0]; sd := sd w |}).
    set (b0 := {| curNode := None; parentNodeStack := Stack.push root Stack.new |}).
    assert (H0 : sequence "s" None new_BehaviorTreeBuilder w = (Returns b0, w1))
      by reflexivity.
    assert (Hroot1 : heap w1 !! root = Some (SequenceNode c0))
      by (now apply list_lookup_middle).
    assert (Hlen1 : length (heap w1) = S root)
      by (simpl; rewrite length_app; simpl; lia).
    pose proof (do_under_sequence "a" fnA b0 w1 root c0 eq_refl Hroot1) as H1.
    rewrite Hlen1 in H1.
    set (c1 := push_child c0 (S root)) in *.
    set (w2 := {| heap := <[root := SequenceNode c1]> (heap w1 ++ [ActionNode "a" fnA]);
                  sd := sd w1 |}) in *.
    assert (Hlen2 : length (heap w2) = S (S root))
      by (simpl; rewrite length_insert, !length_app; simpl; lia).
    assert (Hroot2 : heap w2 !! root = Some (SequenceNode c1)).
    { simpl. apply list_lookup_insert_eq. rewrite !length_app. simpl. lia. }
    pose proof (do_under_sequence "b" fnB b0 w2 root c1 eq_refl Hroot2) as H2.
    rewrite Hlen2 in H2.
    set (c2 := push_child c1 (S (S root))) in *.
    set (w3 := {| heap := <[root := SequenceNode c2]> (heap w2 ++ [ActionNode "b" fnB]);
                  sd := sd w2 |}) in *.
    exists root, (S root), (S (S root)), w3.
    split; [|split; [|split; [|split; [|split]]]].
    + rewrite (bind_run _ _ _ _ _ H0), (bind_run _ _ _ _ _ H1),
        (bind_run _ _ _ _ _ H2).
      reflexivity.
    + simpl. apply list_lookup_insert_eq.
      rewrite length_app, length_insert, !length_app. simpl. lia.
    + simpl. rewrite list_lookup_insert_ne by lia.
      rewrite lookup_app_l by (rewrite length_insert, !length_app; simpl; lia).
      rewrite list_lookup_insert_ne by lia.
      apply list_lookup_middle. rewrite length_app. simpl. lia.
    + simpl. rewrite list_lookup_insert_ne by lia.
      apply list_lookup_middle. rewrite length_insert, !length_app. simpl. lia.
    + lia.
    + reflexivity.
  - intros ms b' w' Hms H.
    apply chain_curNode in H; [|exact Hms].
    unfold build. now rewrite H.
Qed.

(** ** keepState *)

(** [addChild] changes no node's class and no node's keepState. *)
Lemma addChild_keepState parent child w r w' a obj :
  addChild parent child w = (r, w') -> heap w !! a = Some obj ->
  exists obj', heap w' !! a = Some obj' /\
               kind_of obj' = kind_of obj /\
               keepState <$> fields obj' = keepState <$> fields obj.
Proof.
  intros H Hobj. unfold addChild, bind, deref in H.
  destruct (heap w !! parent) as [p|] eqn:Hp.
  2:{ injection H as _ <-. eauto. }
  assert (Hstore : forall p',
    kind_of p' = kind_of p -> keepState <$> fields p' = keepState <$> fields p ->
    store parent p' w = (r, w') ->
    exists obj', heap w' !! a = Some obj' /\ kind_of obj' = kind_of obj /\
                 keepState <$> fields obj' = keepState <$> fields obj).
  { intros p' HK Hks Hs. unfold store in Hs. injection Hs as _ <-. simpl.
    destruct (decide (a = parent)) as [->|Hne].
    - rewrite list_lookup_insert_eq by (eapply lookup_lt_Some; eauto).
      rewrite Hp in Hobj. injection Hobj as <-. eauto.
    - rewrite list_lookup_insert_ne by congruence. eauto. }
  destruct p; try (eapply Hstore; [| |exact H]; reflexivity).
  - injection H as _ <-. eauto.
  - destruct (bool_decide (is_Some childNode)).
    + injection H as _ <-. eauto.
    + eapply Hstore; [| |exact H]; reflexivity.
Qed.

Lemma addParentNode_keepState node b w r w' a obj :
  addParentNode node b w = (r, w') -> heap w !! a = Some obj ->
  exists obj', heap w' !! a = Some obj' /\
               kind_of obj' = kind_of obj /\
               keepState <$> fields obj' = keepState <$> fields obj.
Proof.
  intros H Hobj. unfold addParentNode in H.
  destruct (negb (Stack.isEmpty (parentNodeStack b))).
  - unfold bind at 1 in H.
    destruct (Stack.peek (parentNodeStack b)) as [e|top]; simpl in H.
    + unfold bind, throw in H. injection H as _ <-. eauto.
    + unfold bind at 1, ret at 1 in H.
      destruct (addChild top node w) as [[[]|e|] w1] eqn:E;
        try (injection H as _ <-); eapply addChild_keepState; eauto.
  - unfold bind, ret in H. injection H as _ <-. eauto.
Qed.

(** The node a builder method has just made, as the store holds it once
    the method is over. *)
Lemma built_node (mk : addr -> BehaviorTreeBuilder -> Call Payload BehaviorTreeBuilder)
    (b : BehaviorTreeBuilder) w r w' (obj : NodeObj Payload) :
  (let* node := alloc obj in mk node b) w = (r, w') ->
  (forall node w1 r1 w2 a o, mk node b w1 = (r1, w2) -> heap w1 !! a = Some o ->
     exists o', heap w2 !! a = Some o' /\ kind_of o' = kind_of o /\
                keepState <$> fields o' = keepState <$> fields o) ->
  exists obj', heap w' !! length (heap w) = Some obj' /\
               kind_of obj' = kind_of obj /\
               keepState <$> fields obj' = keepState <$> fields obj.
Proof.
  intros H Hmk. unfold bind, alloc in H.
  eapply Hmk; [exact H|]. simpl. now apply list_lookup_middle.
Qed.

(** C9, as the code has it. For each of Sequence, Selector, Repeat and
    UntilFail, the node constructor called without keepState makes a node
    with keepState = false; the builder methods sequence, repeat and
    untilFail (and selector as bundle.js has it) called without keepState
    make a node with keepState = true. *)
Theorem keepState_defaults (name : string) w :
  (makes (new_SelectorNode name None) SelectorNode false w /\
   makes (new_RepeatNode name None) RepeatNode false w /\
   makes (new_UntilFailNode name None) UntilFailNode false w /\
   makes (new_SequenceNode name None) SequenceNode false w) /\
  (builds (sequence name None) SequenceNode true w /\
   builds (repeat name None) RepeatNode true w /\
   builds (untilFail name None) UntilFailNode true w /\
   builds (bundle_selector name None) SelectorNode true w).
Proof.
  assert (Hl : forall o : NodeObj Payload, (heap w ++ [o]) !! length (heap w) = Some o)
    by (intros o; now apply list_lookup_middle).
  split.
  - repeat split;
      (eexists {| heap := heap w ++ [_]; sd := sd w |}, (new_Composite name None);
       split; [reflexivity|split; [apply Hl|reflexivity]]).
  - repeat split; intros b r w' Hrun;
      (eapply (built_node addParentNode) in Hrun;
       [|intros; eapply addParentNode_keepState; eauto]);
      destruct Hrun as (obj' & Hobj' & HK & Hks);
      destruct obj'; simpl in HK; try discriminate;
      simpl in Hks; injection Hks as Hks; eauto.
Qed.

End Properties.

(** * The properties on sample trees *)

Lemma running_child_is_resumed_witness :
  tick 4 0%nat (over Sequence true succeed_then_run) =
    (Returns Running, later Sequence true succeed_then_run 1 [1; 2]%nat) /\
  cursor (later Sequence true succeed_then_run 1 [1; 2]%nat) 0%nat = Some 1%nat /\
  tick 4 0%nat (later Sequence true succeed_then_run 1 [1; 2]%nat) =
    (Returns Running, later Sequence true succeed_then_run 1 [1; 2; 2]%nat) /\
  tick 4 0%nat (later Sequence false succeed_then_run 1 [1; 2]%nat) =
    (Returns Running, later Sequence false succeed_then_run 1 [1; 2; 1; 2]%nat).
Proof.
  destruct (running_child_is_resumed (Payload := list nat) Sequence 0%nat) as [H H'].
  destruct (H 1%nat (over Sequence true succeed_then_run)
              (composite Sequence (root true 2 None)) (root true 2 None)
              [1%nat] 2%nat []
              (later Sequence true succeed_then_run 0 [1]%nat)
              (later Sequence true succeed_then_run 1 [1; 2]%nat))
    as (Ht & Hc & Hk); try reflexivity.
  - exists (later Sequence true succeed_then_run 0 [1]%nat).
    repeat split; reflexivity.
  - split; [apply Ht; simpl; lia|]. split; [exact Hc|]. split.
    + rewrite (Hk eq_refl _ 2%nat eq_refl). reflexivity.
    + destruct (H' (later Sequence false succeed_then_run 1 [1; 2]%nat)
                  (composite Sequence (root false 2 (Some 1%nat)))
                  (root false 2 (Some 1%nat)) 1%nat 2%nat
                  eq_refl eq_refl eq_refl eq_refl eq_refl) as [_ Hf].
      rewrite Hf. reflexivity.
Defined.

Lemma sequence_succeeds_or_fails_witness :
  tick 4 0%nat (over Sequence true succeed_twice) =
    (Returns Success, later Sequence true succeed_twice 0 [1; 2]%nat) /\
  tick 4 0%nat (over Sequence true succeed_then_fail) =
    (Returns Failure, later Sequence true succeed_then_fail 0 [1; 2]%nat).
Proof.
  split.
  - assert (Hp : passes Success 1 0%nat 0 [1; 2]%nat
                   (over Sequence true succeed_twice)
                   (later Sequence true succeed_twice 1 [1; 2]%nat)).
    { exists (later Sequence true succeed_twice 0 [1]%nat).
      split; [reflexivity|]. split; [reflexivity|].
      exists (later Sequence true succeed_twice 1 [1; 2]%nat).
      repeat split; reflexivity. }
    destruct (sequence_succeeds_or_fails 1%nat 0%nat (over Sequence true succeed_twice)
                (root true 2 None) eq_refl) as [H _].
    refine (proj1 (H _ 4%nat _ Hp _)); [discriminate|simpl; lia].
  - assert (Hp : passes Success 1 0%nat 0 [1%nat]
                   (over Sequence true succeed_then_fail)
                   (later Sequence true succeed_then_fail 0 [1]%nat)).
    { exists (later Sequence true succeed_then_fail 0 [1]%nat).
      repeat split; reflexivity. }
    destruct (sequence_succeeds_or_fails 1%nat 0%nat
                (over Sequence true succeed_then_fail)
                (root true 2 None) eq_refl) as [_ H].
    refine (proj1 (H [1%nat] 2%nat [] _
                     (later Sequence true succeed_then_fail 1 [1; 2]%nat) 4%nat
                     eq_refl Hp eq_refl eq_refl _)).
    simpl; lia.
Defined.

Lemma selector_first_not_failing_witness :
  tick 4 0%nat (over Selector true fail_then_succeed) =
    (Returns Success, later Selector true fail_then_succeed 0 [1; 2]%nat).
Proof.
  assert (Hp : passes Failure 1 0%nat 0 [1%nat]
                 (over Selector true fail_then_succeed)
                 (later Selector true fail_then_succeed 0 [1]%nat)).
  { exists (later Selector true fail_then_succeed 0 [1]%nat).
    repeat split; reflexivity. }
  destruct (selector_first_not_failing 1%nat 0%nat
              (over Selector true fail_then_succeed)
              (root true 2 None) eq_refl) as [H _].
  refine (proj1 (H [1%nat] 2%nat [] _ Success
                   (later Selector true fail_then_succeed 1 [1; 2]%nat) 4%nat
                   eq_refl Hp eq_refl eq_refl _ _)); [discriminate|simpl; lia].
Defined.

Lemma untilFail_runs_until_failure_witness :
  tick 4 0%nat (over UntilFail true succeed_twice) =
    (Returns Running, later UntilFail true succeed_twice 0 [1; 2]%nat) /\
  tick 4 0%nat (over UntilFail true succeed_then_run) =
    (Returns Running, later UntilFail true succeed_then_run 1 [1; 2]%nat).
Proof.
  split.
  - assert (Hp : passes Success 1 0%nat 0 [1; 2]%nat
                   (over UntilFail true succeed_twice)
                   (later UntilFail true succeed_twice 1 [1; 2]%nat)).
    { exists (later UntilFail true succeed_twice 0 [1]%nat).
      split; [reflexivity|]. split; [reflexivity|].
      exists (later UntilFail true succeed_twice 1 [1; 2]%nat).
      repeat split; reflexivity. }
    assert (Hne : children (root true 2 None) <> []) by discriminate.
    destruct (untilFail_runs_until_failure 1%nat 0%nat
                (over UntilFail true succeed_twice)
                (root true 2 None) eq_refl Hne) as (H & _).
    refine (proj1 (H _ 4%nat _ Hp _)); [discriminate|simpl; lia].
  - assert (Hp : passes Success 1 0%nat 0 [1%nat]
                   (over UntilFail true succeed_then_run)
                   (later UntilFail true succeed_then_run 0 [1]%nat)).
    { exists (later UntilFail true succeed_then_run 0 [1]%nat).
      repeat split; reflexivity. }
    assert (Hne : children (root true 2 None) <> []) by discriminate.
    destruct (untilFail_runs_until_failure 1%nat 0%nat
                (over UntilFail true succeed_then_run)
                (root true 2 None) eq_refl Hne) as (_ & _ & H & _).
    refine (proj1 (H [1%nat] 2%nat [] _
                     (later UntilFail true succeed_then_run 1 [1; 2]%nat) 4%nat
                     eq_refl Hp eq_refl eq_refl _)).
    simpl; lia.
Defined.

(** C4 as the specification words it fails: an UntilFail returns Running
    on a tick in which its child did not succeed but is running. *)
Lemma untilFail_running_child_counterexample :
  tick 3 0%nat (over UntilFail true just_run) =
    (Returns Running, later UntilFail true just_run 0 [1]%nat) /\
  ~ (exists fuel w1,
       passes Success fuel 0%nat 0 [1%nat] (over UntilFail true just_run) w1).
Proof.
  split; [reflexivity|].
  intros (fuel & w1 & w' & Ht & _).
  destruct fuel as [|fuel]; vm_compute in Ht; discriminate.
Qed.

Lemma repeat_always_running_witness :
  tick 4 0%nat (over Repeat true succeed_then_fail) =
    (Returns Running, later Repeat true succeed_then_fail 0 [1; 2]%nat) /\
  tick 4 0%nat (over Repeat true succeed_twice) =
    (Returns Running, later Repeat true succeed_twice 0 [1; 2]%nat).
Proof.
  split.
  - assert (Hp : passes Success 1 0%nat 0 [1%nat]
                   (over Repeat true succeed_then_fail)
                   (later Repeat true succeed_then_fail 0 [1]%nat)).
    { exists (later Repeat true succeed_then_fail 0 [1]%nat).
      repeat split; reflexivity. }
    destruct (repeat_always_running 1%nat 0%nat (over Repeat true succeed_then_fail)
                (root true 2 None) eq_refl) as (_ & _ & H).
    refine (H [1%nat] 2%nat [] _ Failure
              (later Repeat true succeed_then_fail 1 [1; 2]%nat) 4%nat
              eq_refl Hp eq_refl eq_refl _ _); [discriminate|simpl; lia].
  - assert (Hp : passes Success 1 0%nat 0 [1; 2]%nat
                   (over Repeat true succeed_twice)
                   (later Repeat true succeed_twice 1 [1; 2]%nat)).
    { exists (later Repeat true succeed_twice 0 [1]%nat).
      split; [reflexivity|]. split; [reflexivity|].
      exists (later Repeat true succeed_twice 1 [1; 2]%nat).
      repeat split; reflexivity. }
    destruct (repeat_always_running 1%nat 0%nat (over Repeat true succeed_twice)
                (root true 2 None) eq_refl) as (_ & H & _).
    refine (H _ 4%nat _ Hp _); [discriminate|simpl; lia].
Defined.

Lemma parallel_counts_votes_witness :
  tick 2 0%nat race = (Returns Success, raced) /\
  tick 5 0%nat interleaved = (Returns Success, interleaved_done).
Proof.
  split.
  - assert (Hv : votes 1 [1; 2; 3]%nat [Success; Failure; Success] race raced).
    { exists [Returns Success; Throws (UserError "boom"); Returns Success].
      split; [eexists _, _; split; reflexivity|repeat constructor]. }
    destruct (parallel_counts_votes 1%nat 0%nat race "race" 0 2 [1; 2; 3]%nat
                [Success; Failure; Success] raced eq_refl Hv)
      as (_ & v & Ht & Hs & _).
    rewrite (Ht 2%nat); [|lia].
    rewrite Hs; [reflexivity|]. vm_compute. split; [reflexivity|discriminate].
  - assert (Hv : votes 4 [1; 4]%nat [Success; Success] interleaved interleaved_done).
    { exists [Returns Success; Returns Success].
      split; [eexists _, _; split; reflexivity|repeat constructor]. }
    destruct (parallel_counts_votes 4%nat 0%nat interleaved "both" 0 2 [1; 4]%nat
                [Success; Success] interleaved_done eq_refl Hv)
      as (_ & v & Ht & Hs & _).
    rewrite (Ht 5%nat); [|lia].
    rewrite Hs; [reflexivity|]. vm_compute. split; [reflexivity|discriminate].
Defined.

Lemma child_errors_contained_or_propagated_witness :
  tick 2 0%nat strict_race = (Returns Failure, strict_raced [1; 2; 3]%nat) /\
  tick 4 0%nat (over Sequence true succeed_then_throw) =
    (Throws (UserError "boom"), later Sequence true succeed_then_throw 1 [1; 2]%nat) /\
  tick 2 0%nat inverted_boom =
    (Throws (UserError "boom"),
     {| heap := heap inverted_boom; sd := {| deltaTime := 0; state := [1]%nat |} |}).
Proof.
  destruct (child_errors_contained_or_propagated (Payload := list nat) 0%nat)
    as (Hpar & Hseq & Hinv).
  split; [|split].
  - destruct (Hpar strict_race "race" 1 3 [1; 2; 3]%nat eq_refl) as (_ & H & _).
    assert (Ht : ticked_together 1 [1; 2; 3]%nat
                   [Returns Success; Throws (UserError "boom"); Returns Success]
                   strict_race (strict_raced [1; 2; 3]%nat)).
    { eexists _, _. split; reflexivity. }
    destruct (H 1%nat _ _ 1%nat (UserError "boom") Ht eq_refl)
      as (ss & v & Hl & H1 & Hret & Htick & _ & Hfail & _).
    rewrite (Htick 2%nat (le_n 2)).
    pose proof (Hret 0%nat Success eq_refl) as H0.
    pose proof (Hret 2%nat Success eq_refl) as H2.
    destruct ss as [|a [|b [|c [|d ss]]]]; try discriminate Hl.
    simpl in H0, H1, H2. injection H0 as ->. injection H1 as ->. injection H2 as ->.
    rewrite Hfail; [reflexivity| |]; vm_compute.
    + intros [_ Hx]. now apply Hx.
    + split; [reflexivity|discriminate].
  - assert (Hp : passes Success 1 0%nat 0 [1%nat]
                   (over Sequence true succeed_then_throw)
                   (later Sequence true succeed_then_throw 0 [1]%nat)).
    { exists (later Sequence true succeed_then_throw 0 [1]%nat).
      repeat split; reflexivity. }
    refine (Hseq Sequence 1%nat (over Sequence true succeed_then_throw) _
              (root true 2 None) [1%nat] 2%nat [] _ (UserError "boom") _ 4%nat
              eq_refl eq_refl eq_refl eq_refl Hp eq_refl _).
    simpl; lia.
  - refine (Hinv 1%nat inverted_boom "not" 1%nat (UserError "boom") _ 2%nat
              eq_refl eq_refl _).
    lia.
Defined.

Lemma childless_composite_is_running_witness :
  tick 1 0%nat (over Selector true []) =
    (Returns Running, later Selector true [] 0 []) /\
  sd (later Selector true [] 0 []) = sd (over Selector true []).
Proof.
  exact (childless_composite_is_running Selector 0%nat (over Selector true [])
           (composite Selector (root true 0 None)) (root true 0 None) 0%nat
           eq_refl eq_refl eq_refl eq_refl).
Defined.

Lemma builder_round_trip_witness :
  (exists root a b w',
     (let* b0 := sequence "s" None new_BehaviorTreeBuilder in
      let* b1 := do "a" (leaf 1 Success) b0 in
      let* b2 := do "b" (leaf 2 Success) b1 in
      let* b3 := end_ b2 in
      build b3) (world []) = (Returns root, w') /\
     heap w' !! root =
       Some (SequenceNode {| name := "s"; keepState := true;
                             children := [a; b]; enumerator := None |}) /\
     heap w' !! a = Some (ActionNode "a" (leaf 1 Success)) /\
     heap w' !! b = Some (ActionNode "b" (leaf 2 Success)) /\
     a <> b /\ sd w' = sd (world [])) /\
  build new_BehaviorTreeBuilder (world []) =
    (Throws (BehaviorTreeError "Cannot create a behavior tree with zero nodes."),
     world []).
Proof.
  destruct (builder_round_trip (leaf 1 Success) (leaf 2 Success) (world []))
    as [H1 H2].
  split; [exact H1|].
  exact (H2 [] new_BehaviorTreeBuilder (world []) eq_refl eq_refl).
Defined.

(** C9 as the specification words it fails: the constructor of a
    SequenceNode called without keepState makes a node with keepState =
    false, not true; so do the three other constructors. *)
Lemma constructor_keepState_counterexample :
  ~ makes (new_SequenceNode "s" None) SequenceNode true (world []) /\
  ~ makes (new_SelectorNode "s" None) SelectorNode true (world []) /\
  ~ makes (new_RepeatNode "s" None) RepeatNode true (world []) /\
  ~ makes (new_UntilFailNode "s" None) UntilFailNode true (world []).
Proof.
  repeat split; intros (w' & c & Hmk & Hobj & Hks);
    injection Hmk as <-; simpl in Hobj; injection Hobj as <-; discriminate.
Qed.

(** [selector] of BehaviorTreeBuilder.js, which has no default for
    keepState, hands [undefined] to the constructor: the Selector it
    builds does not keep its state where the three sibling methods (and
    the same method in bundle.js) build a node that does. *)
Lemma selector_without_default :
  exists b' w' c,
    selector "x" None new_BehaviorTreeBuilder (world []) = (Returns b', w') /\
    heap w' !! 0%nat = Some (SelectorNode c) /\ keepState c = false.
Proof. repeat eexists; reflexivity. Qed.

Lemma keepState_defaults_witness :
  makes (new_SequenceNode "s" None) SequenceNode false (world []) /\
  builds (sequence "s" None) SequenceNode true (world []).
Proof.
  destruct (keepState_defaults "s" (world [])) as [(_ & _ & _ & Hmk) (Hb & _)].
  split; [exact Hmk|exact Hb].
Defined.

(** * Further properties: the stack *)

Lemma pop_push {T} (value : T) (s : Stack.Stack T) :
  Stack.pop (Stack.push value s) = inr (value, s).
Proof.
  destruct s as [top n]. unfold Stack.pop, Stack.push. simpl. do 3 f_equal. lia.
Qed.

(** X1. Last in, first out: popping a stack onto which a value was just
    pushed returns that value and the stack as it was before the push,
    count included; peeking at it returns the value, and it is not
    empty. *)
Theorem stack_pop_push {T} (value : T) (s : Stack.Stack T) :
  Stack.pop (Stack.push value s) = inr (value, s) /\
  Stack.peek (Stack.push value s) = inr value /\
  Stack.isEmpty (Stack.push value s) = false.
Proof. split; [apply pop_push|now split]. Qed.

(** X2. The count of a stack is the number of its cells: this holds of the
    new stack and is kept by every push and every pop, a pop removing the
    first of the items; on such a stack [isEmpty] says whether the count
    is 0, and [pop] and [peek] throw a TypeError exactly when it is. *)
Theorem stack_count_is_kept {T} (s : Stack.Stack T) :
  Stack.counted (Stack.new (T := T)) /\
  (Stack.counted s ->
   (forall value,
      Stack.counted (Stack.push value s) /\
      Stack.items (Stack.push value s) = value :: Stack.items s) /\
   (forall value s',
      Stack.pop s = inr (value, s') ->
      Stack.counted s' /\ Stack.items s = value :: Stack.items s' /\
      Stack.peek s = inr value) /\
   (Stack.isEmpty s = true <-> Stack.count s = 0) /\
   (Stack.count s = 0 <-> Stack.pop s = inl TypeError) /\
   (Stack.count s = 0 <-> Stack.peek s = inl TypeError)).
Proof.
  split; [reflexivity|]. intros Hs. unfold Stack.counted in *.
  destruct s as [[[d p]|] n]; unfold Stack.items, Stack.count, Stack.pop,
    Stack.peek, Stack.isEmpty, Stack.push in *; simpl in *.
  - rewrite Nat2Z.inj_succ in Hs.
    split; [|split; [|split; [|split]]].
    + intros value. split; [rewrite !Nat2Z.inj_succ; lia|reflexivity].
    + intros value s' H. injection H as <- <-. simpl.
      split; [|split; [|reflexivity]].
      * destruct p; lia.
      * now destruct p.
    + split; [discriminate|lia].
    + split; [lia|discriminate].
    + split; [lia|discriminate].
  - split; [|split; [|split; [|split]]].
    + intros value. split; [lia|reflexivity].
    + discriminate.
    + split; [lia|reflexivity].
    + split; [reflexivity|lia].
    + split; [reflexivity|lia].
Qed.

Lemma stack_count_is_kept_witness :
  Stack.count (Stack.push 7%nat (Stack.push 5%nat Stack.new)) = 2 /\
  Stack.items (Stack.push 7%nat (Stack.push 5%nat Stack.new)) = [7; 5]%nat /\
  Stack.pop (Stack.new (T := nat)) = inl TypeError.
Proof.
  destruct (stack_count_is_kept (Stack.new (T := nat))) as [H0 H].
  destruct (H H0) as (Hpush & _ & _ & Hpop & _).
  destruct (Hpush 5%nat) as [H5 I5].
  destruct (stack_count_is_kept (Stack.push 5%nat Stack.new)) as [_ H'].
  destruct (H' H5) as (Hpush' & _).
  destruct (Hpush' 7%nat) as [H7 I7].
  split; [|split].
  - unfold Stack.counted in H7. unfold Stack.count. rewrite H7, I7, I5. reflexivity.
  - rewrite I7, I5. reflexivity.
  - apply Hpop. reflexivity.
Defined.

(** * Further properties: the builder *)

Section Assembly.

Context {Payload : Type}.
Implicit Types (w : World Payload) (obj : NodeObj Payload) (b : BehaviorTreeBuilder).

Lemma addChild_accepted w parent obj child :
  heap w !! parent = Some obj -> accepts obj = true ->
  addChild parent child w =
    (Returns tt,
     {| heap := <[parent := with_kids obj (kids obj ++ [child])]> (heap w);
        sd := sd w |}).
Proof.
  intros Hobj Hacc. unfold addChild.
  rewrite (bind_run _ _ _ _ _ (deref_some _ _ _ Hobj)).
  destruct obj as [| n [c|] | | | | |]; try discriminate; reflexivity.
Qed.

Lemma addChild_refused w parent obj child :
  heap w !! parent = Some obj -> accepts obj = false ->
  addChild parent child w =
    (Throws match obj with
            | InverterNode _ _ =>
                BehaviorTreeError Errors.INVERTER_MULTIPLE_CHILDREN
            | _ => TypeError
            end, w).
Proof.
  intros Hobj Hacc. unfold addChild.
  rewrite (bind_run _ _ _ _ _ (deref_some _ _ _ Hobj)).
  destruct obj as [| n [c|] | | | | |]; try discriminate; reflexivity.
Qed.

Lemma peek_not_empty {T} (s : Stack.Stack T) top :
  Stack.peek s = inr top -> Stack.isEmpty s = false.
Proof.
  unfold Stack.peek, Stack.isEmpty. now destruct (Stack._topNode s).
Qed.

Lemma lookup_alloc w (node : NodeObj Payload) a obj :
  heap w !! a = Some obj -> (heap w ++ [node]) !! a = Some obj.
Proof.
  intros H. rewrite lookup_app_l; [exact H|]. eapply lookup_lt_Some; eauto.
Qed.

(** X3. Under an open node that takes one more child, [do] makes an
    ActionNode with the given name and callable, appends it to the
    children of that node, after those it has, and returns the builder as
    it was; [splice] appends the given subtree the same way and makes no
    node. Nothing else in the store changes. *)
Theorem leaf_is_appended_to_open_node (name : string) (fn : Callable Payload)
    (subTree : addr) b w parent obj :
  Stack.peek (parentNodeStack b) = inr parent ->
  heap w !! parent = Some obj -> accepts obj = true ->
  do name fn b w =
    (Returns b,
     {| heap := <[parent := with_kids obj (kids obj ++ [length (heap w)])]>
                  (heap w ++ [ActionNode name fn]);
        sd := sd w |}) /\
  splice subTree b w =
    (Returns b,
     {| heap := <[parent := with_kids obj (kids obj ++ [subTree])]> (heap w);
        sd := sd w |}).
Proof.
  intros Hpeek Hobj Hacc. pose proof (peek_not_empty _ _ Hpeek) as Hne. split.
  - unfold do. rewrite Hne. unfold new_ActionNode, alloc, bind at 1.
    rewrite Hpeek. unfold lift, ret at 1, bind at 1.
    erewrite bind_run
      by (apply addChild_accepted; [apply lookup_alloc; exact Hobj|exact Hacc]).
    reflexivity.
  - unfold splice. rewrite Hne, Hpeek. unfold lift, ret at 1, bind at 1.
    erewrite bind_run by (apply addChild_accepted; eauto).
    reflexivity.
Qed.

Lemma bind_alloc {A} (node : NodeObj Payload) (k : addr -> Call Payload A) w :
  (let* a := alloc node in k a) w =
    k (length (heap w)) {| heap := heap w ++ [node]; sd := sd w |}.
Proof. reflexivity. Qed.

Lemma addParentNode_alone node b w :
  Stack.isEmpty (parentNodeStack b) = true ->
  addParentNode node b w =
    (Returns {| curNode := curNode b;
                parentNodeStack := Stack.push node (parentNodeStack b) |}, w).
Proof. intros He. unfold addParentNode. now rewrite He. Qed.

Lemma addParentNode_nested node b w parent obj :
  Stack.peek (parentNodeStack b) = inr parent ->
  heap w !! parent = Some obj -> accepts obj = true ->
  addParentNode node b w =
    (Returns {| curNode := curNode b;
                parentNodeStack := Stack.push node (parentNodeStack b) |},
     {| heap := <[parent := with_kids obj (kids obj ++ [node])]> (heap w);
        sd := sd w |}).
Proof.
  intros Hpeek Hobj Hacc. unfold addParentNode.
  rewrite (peek_not_empty _ _ Hpeek), Hpeek. simpl negb. cbv iota.
  unfold lift, ret at 1, bind at 2. unfold bind. cbv beta.
  now rewrite (addChild_accepted _ _ _ _ Hobj Hacc).
Qed.

(** X4. Each of inverter, sequence, parallel, selector, repeat and
    untilFail makes a new node without children and pushes it onto the
    stack of open nodes, leaving [curNode] as it was; with no node open
    that is all, and under an open node that takes one more child the new
    node is also appended to the children of that node, after those it
    has. *)
Theorem opened_node_is_appended_and_pushed (m : Method) b w :
  opens m = true ->
  exists node,
    kids node = [] /\
    (Stack.isEmpty (parentNodeStack b) = true ->
     call m b w =
       (Returns {| curNode := curNode b;
                   parentNodeStack :=
                     Stack.push (length (heap w)) (parentNodeStack b) |},
        {| heap := heap w ++ [node]; sd := sd w |})) /\
    (forall parent obj,
       Stack.peek (parentNodeStack b) = inr parent ->
       heap w !! parent = Some obj -> accepts obj = true ->
       call m b w =
         (Returns {| curNode := curNode b;
                     parentNodeStack :=
                       Stack.push (length (heap w)) (parentNodeStack b) |},
          {| heap := <[parent := with_kids obj (kids obj ++ [length (heap w)])]>
                       (heap w ++ [node]);
             sd := sd w |})).
Proof.
  intros Hm.
  assert (H : forall node : NodeObj Payload,
    kids node = [] ->
    call m b w = (let* a := alloc node in addParentNode a b) w ->
    exists node,
      kids node = [] /\
      (Stack.isEmpty (parentNodeStack b) = true ->
       call m b w =
         (Returns {| curNode := curNode b;
                     parentNodeStack :=
                       Stack.push (length (heap w)) (parentNodeStack b) |},
          {| heap := heap w ++ [node]; sd := sd w |})) /\
      (forall parent obj,
         Stack.peek (parentNodeStack b) = inr parent ->
         heap w !! parent = Some obj -> accepts obj = true ->
         call m b w =
           (Returns {| curNode := curNode b;
                       parentNodeStack :=
                         Stack.push (length (heap w)) (parentNodeStack b) |},
            {| heap := <[parent := with_kids obj (kids obj ++ [length (heap w)])]>
                         (heap w ++ [node]);
               sd := sd w |}))).
  { intros node Hk Hcall. exists node. split; [exact Hk|]. rewrite Hcall.
    rewrite bind_alloc. split.
    - intros He. now apply addParentNode_alone.
    - intros parent obj Hpeek Hobj Hacc.
      erewrite addParentNode_nested; eauto. now apply lookup_alloc. }
  destruct m; try discriminate; (eapply H; cycle 1; [reflexivity|reflexivity]).
Qed.

(** X5. Under an open Inverter that has its child, [do], [condition],
    [splice] and the six methods that open a node all throw
    INVERTER_MULTIPLE_CHILDREN; the Inverter keeps the child it had. *)
Theorem inverter_refuses_second_child (m : Method) b w parent name child :
  is_end m = false ->
  Stack.peek (parentNodeStack b) = inr parent ->
  heap w !! parent = Some (InverterNode name (Some child)) ->
  exists w',
    call m b w =
      (Throws (BehaviorTreeError Errors.INVERTER_MULTIPLE_CHILDREN), w') /\
    heap w' !! parent = Some (InverterNode name (Some child)) /\
    sd w' = sd w.
Proof.
  intros Hm Hpeek Hobj. pose proof (peek_not_empty _ _ Hpeek) as Hne.
  assert (Hopen : forall node : NodeObj Payload,
    exists w',
      (let* a := alloc node in addParentNode a b) w =
        (Throws (BehaviorTreeError Errors.INVERTER_MULTIPLE_CHILDREN), w') /\
      heap w' !! parent = Some (InverterNode name (Some child)) /\ sd w' = sd w).
  { intros node. exists {| heap := heap w ++ [node]; sd := sd w |}.
    split; [|split; [now apply lookup_alloc|reflexivity]].
    rewrite bind_alloc. unfold addParentNode. rewrite Hne, Hpeek. simpl negb. cbv iota.
    unfold lift, ret at 1, bind at 2. unfold bind. cbv beta.
    now rewrite (addChild_refused {| heap := heap w ++ [node]; sd := sd w |}
                   parent (InverterNode name (Some child)) _
                   (lookup_alloc _ node _ _ Hobj) eq_refl). }
  assert (Hdo : forall nm (fn : Fn Payload),
    exists w',
      do nm fn b w =
        (Throws (BehaviorTreeError Errors.INVERTER_MULTIPLE_CHILDREN), w') /\
      heap w' !! parent = Some (InverterNode name (Some child)) /\ sd w' = sd w).
  { intros nm fn. exists {| heap := heap w ++ [ActionNode nm fn]; sd := sd w |}.
    split; [|split; [now apply lookup_alloc|reflexivity]].
    unfold do. rewrite Hne. unfold new_ActionNode, alloc, bind at 1.
    rewrite Hpeek. unfold lift, ret at 1, bind at 1.
    erewrite bind_run.
    2:{ apply (addChild_refused _ _ (InverterNode name (Some child)));
          [now apply lookup_alloc|reflexivity]. }
    reflexivity. }
  destruct m; try discriminate; simpl call;
    try apply Hopen; try apply Hdo.
  exists w. split; [|split; [exact Hobj|reflexivity]].
  unfold splice. rewrite Hne, Hpeek. unfold lift, ret at 1, bind at 1.
  erewrite bind_run
    by (apply (addChild_refused _ _ (InverterNode name (Some child))); eauto).
  reflexivity.
Qed.

(** X6. With no node open, [do] and [condition] throw UNNESTED_ACTION_NODE
    and [splice] throws SPLICE_UNNESTED_TREE, before anything is made;
    [end] throws a TypeError and assigns no [curNode]. *)
Theorem calls_outside_a_parent_throw (name : string) (fn : Callable Payload)
    (test : StateData Payload -> (Thrown + bool) * StateData Payload)
    (subTree : addr) b w :
  Stack.isEmpty (parentNodeStack b) = true ->
  do name fn b w = (Throws (BehaviorTreeError Errors.UNNESTED_ACTION_NODE), w) /\
  condition name test b w =
    (Throws (BehaviorTreeError Errors.UNNESTED_ACTION_NODE), w) /\
  splice subTree b w =
    (Throws (BehaviorTreeError Errors.SPLICE_UNNESTED_TREE), w) /\
  end_ b w = (Throws TypeError, w).
Proof.
  intros He. unfold condition, do, splice, end_. rewrite He.
  repeat split. unfold Stack.isEmpty in He. unfold Stack.pop.
  now destruct (Stack._topNode (parentNodeStack b)).
Qed.

Lemma addParentNode_returns node b w b1 w1 :
  addParentNode node b w = (Returns b1, w1) ->
  b1 = {| curNode := curNode b;
          parentNodeStack := Stack.push node (parentNodeStack b) |}.
Proof.
  unfold addParentNode. intros H.
  apply bind_returns in H as (_ & w2 & _ & H). now injection H as <- _.
Qed.

(** X7. An [end] that follows a method that opened a node undoes its push:
    the stack of open nodes is again what it was before the node was
    opened, its count included, the store is untouched, and [curNode] is
    the node that was opened. *)
Theorem end_closes_what_was_opened (m : Method) b w b1 w1 :
  opens m = true -> call m b w = (Returns b1, w1) ->
  end_ b1 w1 =
    (Returns {| curNode := Some (length (heap w));
                parentNodeStack := parentNodeStack b |}, w1).
Proof.
  intros Hm H.
  assert (Hb1 : b1 = {| curNode := curNode b;
                        parentNodeStack :=
                          Stack.push (length (heap w)) (parentNodeStack b) |}).
  { destruct m; try discriminate; simpl in H;
      unfold inverter, sequence, parallel, selector, bundle_selector, repeat,
        untilFail in H;
      apply bind_returns in H as (a & w2 & Ha & H);
      injection Ha as <- <-; now apply addParentNode_returns in H. }
  subst b1. unfold end_. cbn [parentNodeStack]. now rewrite pop_push.
Qed.

(** X8. [build] returns the node of the last [end]: once an [end] has
    popped a node, whatever calls other than [end] follow, [build] returns
    that node and changes nothing. *)
Theorem build_returns_last_closed b w b1 w1 :
  end_ b w = (Returns b1, w1) ->
  exists top,
    Stack.peek (parentNodeStack b) = inr top /\ w1 = w /\
    curNode b1 = Some top /\
    forall ms b2 w2,
      forallb (fun m => negb (is_end m)) ms = true ->
      chain ms b1 w1 = (Returns b2, w2) ->
      build b2 w2 = (Returns top, w2).
Proof.
  unfold end_, Stack.pop, Stack.peek. intros H.
  destruct (Stack._topNode (parentNodeStack b)) as [n|]; [|discriminate].
  injection H as <- <-. exists (Stack.data n). repeat split.
  intros ms b2 w2 Hms H. apply chain_curNode in H; [|exact Hms].
  unfold build. now rewrite H.
Qed.

Lemma addChild_returns parent child w w' :
  addChild parent child w = (Returns tt, w') ->
  exists obj,
    heap w !! parent = Some obj /\ accepts obj = true /\
    w' = {| heap := <[parent := with_kids obj (kids obj ++ [child])]> (heap w);
            sd := sd w |}.
Proof.
  intros H. destruct (heap w !! parent) as [obj|] eqn:Hobj.
  - destruct (accepts obj) eqn:Hacc.
    + rewrite (addChild_accepted _ _ _ _ Hobj Hacc) in H. injection H as <-. eauto.
    + rewrite (addChild_refused _ _ _ _ Hobj Hacc) in H. discriminate.
  - unfold addChild, bind, deref in H. rewrite Hobj in H. discriminate.
Qed.

(** The action [do] has made is in the store once [do] has returned. *)
Lemma do_returns_node name (fn : Fn Payload) b w b' w' :
  do name fn b w = (Returns b', w') ->
  heap w' !! length (heap w) = Some (ActionNode name fn).
Proof.
  unfold do. destruct (Stack.isEmpty (parentNodeStack b)); [discriminate|].
  unfold new_ActionNode. rewrite bind_alloc. intros H.
  apply bind_returns in H as (top & w1 & Hpeek & H).
  assert (w1 = {| heap := heap w ++ [ActionNode name fn]; sd := sd w |}) as ->.
  { destruct (Stack.peek (parentNodeStack b)); simpl in Hpeek;
      [discriminate|now injection Hpeek as _ <-]. }
  apply bind_returns in H as ([] & w2 & Hadd & H). injection H as _ <-.
  apply addChild_returns in Hadd as (obj & Hobj & Hacc & ->). cbn [heap] in *.
  assert (Hnew : (heap w ++ [ActionNode name fn]) !! length (heap w)
                 = Some (ActionNode name fn)) by now apply list_lookup_middle.
  destruct (decide (top = length (heap w))) as [->|Hne].
  - rewrite Hnew in Hobj. injection Hobj as <-. discriminate.
  - now rewrite list_lookup_insert_ne.
Qed.

(** X9. The action that [condition] makes of a test returns Success where
    the test answers true and Failure where it answers false, with the
    state as the test left it, and throws what the test throws. *)
Theorem condition_maps_booleans (name : string)
    (test : StateData Payload -> (Thrown + bool) * StateData Payload) b w b' w' :
  condition name test b w = (Returns b', w') ->
  exists fn,
    heap w' !! length (heap w) = Some (ActionNode name fn) /\
    forall n a w0,
      heap w0 !! a = Some (ActionNode name fn) ->
      tick (S n) a w0 =
        match test (sd w0) with
        | (inr true, t) => (Returns Success, {| heap := heap w0; sd := t |})
        | (inr false, t) => (Returns Failure, {| heap := heap w0; sd := t |})
        | (inl e, t) => (Throws e, {| heap := heap w0; sd := t |})
        end.
Proof.
  unfold condition. intros H. eexists. split; [eapply do_returns_node; eauto|].
  intros n a w0 Hobj. unfold tick. rewrite run_S. unfold dispatch.
  rewrite (bind_run _ _ _ _ _ (deref_some _ _ _ Hobj)).
  unfold ActionNode_tick, bind, invoke, callable.
  now destruct (test (sd w0)) as [[e|[|]] t].
Qed.

End Assembly.

(** * Further properties: ticking *)

Section Ticking.

Context {Payload : Type}.
Implicit Types (w : World Payload) (obj : NodeObj Payload) (c : Composite).

(** X10. The tick of an ActionNode calls its callable once on the state and
    returns the status the callable returned; a callable that returns
    nothing makes it throw NO_RETURN_VALUE, and what the callable throws
    is thrown on. The state is as the callable left it in all three
    cases, and no node is touched. *)
Theorem action_tick_checks_result this w name (fn : Callable Payload) n :
  heap w !! this = Some (ActionNode name fn) ->
  tick (S n) this w =
    match fn (sd w) with
    | (FnReturn (Some status), t) =>
        (Returns status, {| heap := heap w; sd := t |})
    | (FnReturn None, t) =>
        (Throws (BehaviorTreeError Errors.NO_RETURN_VALUE),
         {| heap := heap w; sd := t |})
    | (FnThrow e, t) => (Throws e, {| heap := heap w; sd := t |})
    end.
Proof.
  intros Hobj. unfold tick. rewrite run_S. unfold dispatch.
  rewrite (bind_run _ _ _ _ _ (deref_some _ _ _ Hobj)).
  unfold ActionNode_tick, bind, invoke, callable.
  now destruct (fn (sd w)) as [[[s|]|e] t].
Qed.

Lemma inverter_run n this w name child r w' :
  heap w !! this = Some (InverterNode name (Some child)) ->
  tick n child w = (r, w') ->
  tick (S n) this w = (inverted r, w').
Proof.
  intros Hobj Ht. unfold tick in *. rewrite run_S. unfold dispatch.
  rewrite (bind_run _ _ _ _ _ (deref_some _ _ _ Hobj)).
  unfold InverterNode_tick. rewrite (bind_run _ _ _ _ _ Ht).
  now destruct r as [[]| |].
Qed.

Lemma inverted_settled r : r <> OutOfFuel -> inverted r <> OutOfFuel.
Proof. now destruct r as [[]| |]. Qed.

(** X11. An Inverter without a child throws INVERTER_NO_CHILDREN when
    ticked. An Inverter with a child ticks it once and returns Failure for
    its Success, Success for its Failure and Running for its Running;
    what the child throws is thrown on; the store is as the child left
    it. *)
Theorem inverter_inverts this w name :
  (heap w !! this = Some (InverterNode name None) ->
   forall n,
     tick (S n) this w =
       (Throws (BehaviorTreeError Errors.INVERTER_NO_CHILDREN), w)) /\
  (forall child fuel r w' n,
     heap w !! this = Some (InverterNode name (Some child)) ->
     tick fuel child w = (r, w') -> r <> OutOfFuel -> (fuel < n)%nat ->
     tick n this w = (inverted r, w')).
Proof.
  split.
  - intros Hobj n. unfold tick. rewrite run_S. unfold dispatch.
    now rewrite (bind_run _ _ _ _ _ (deref_some _ _ _ Hobj)).
  - intros child fuel r w' [|n] Hobj Ht Hr Hn; [lia|].
    eapply inverter_run; [exact Hobj|].
    unfold tick in *. eapply run_mono; eauto. lia.
Qed.

(** X12. Two Inverters, one over the other, cancel: the tick of the outer
    one completes as the tick of the child of the inner one does, with
    the same status or the same error and the same store. *)
Theorem inverter_twice_is_identity outer inner child w name1 name2 fuel r w' n :
  heap w !! outer = Some (InverterNode name1 (Some inner)) ->
  heap w !! inner = Some (InverterNode name2 (Some child)) ->
  tick fuel child w = (r, w') -> r <> OutOfFuel -> (fuel + 1 < n)%nat ->
  tick n outer w = (r, w').
Proof.
  intros Hout Hin Ht Hr Hn.
  destruct n as [|[|n]]; try lia.
  assert (Hc : tick n child w = (r, w'))
    by (unfold tick in *; eapply run_mono; eauto; lia).
  rewrite (inverter_run _ _ _ _ _ _ _ Hout (inverter_run _ _ _ _ _ _ _ Hin Hc)).
  now destruct r as [[]| |].
Qed.

Lemma same_tree_length w w' : same_tree w w' -> length (heap w') = length (heap w).
Proof.
  intros Hs.
  assert (H : forall a, (a < length (heap w'))%nat <-> (a < length (heap w))%nat).
  { intros a. rewrite <- !lookup_lt_is_Some. specialize (Hs a).
    destruct (heap w' !! a), (heap w !! a); try discriminate;
      split; intros [x Hx]; try discriminate; eauto. }
  destruct (Nat.lt_trichotomy (length (heap w')) (length (heap w))) as [Hlt|[Heq|Hlt]].
  - apply H in Hlt. lia.
  - exact Heq.
  - apply H in Hlt. lia.
Qed.

(** X13. A tick makes no node, drops none and changes no node but in its
    cursor: whatever the tick of whatever node does, every node of the
    store is afterwards the node it was, with the same class, name,
    keepState, children, callable and thresholds. *)
Theorem tick_writes_only_cursors fuel this w r w' :
  tick fuel this w = (r, w') ->
  length (heap w') = length (heap w) /\
  forall a obj,
    heap w !! a = Some obj ->
    exists obj', heap w' !! a = Some obj' /\ erase obj' = erase obj.
Proof.
  intros H. apply keeps_run in H. split; [now apply same_tree_length|].
  intros a obj Hobj. specialize (H a). rewrite Hobj in H.
  destruct (heap w' !! a) as [obj'|]; [|discriminate].
  exists obj'. split; [reflexivity|]. now injection H.
Qed.

Lemma spares_of_above rank a b {A} (m : Call Payload A) :
  above rank a m -> (rank b < rank a)%nat -> spares rank b m.
Proof.
  intros Hm Hlt w r w' Hac H. destruct (Hm _ _ _ Hac H) as [Hac' Hb].
  split; [exact Hac'|now apply Hb].
Qed.

Lemma spares_pure rank b {A} (m : Call Payload A) :
  (forall w r w', m w = (r, w') -> heap w' = heap w) -> spares rank b m.
Proof.
  intros Hm w r w' Hac H. apply Hm in H.
  split; [|now rewrite H]. intros x obj child. rewrite H. apply Hac.
Qed.

Lemma spares_ret rank b {A} (x : A) : spares rank b (ret (W := World Payload) x).
Proof. apply spares_pure. intros w r w' H. now injection H as _ <-. Qed.

Lemma spares_bind rank b {A B} (m : Call Payload A) (k : A -> Call Payload B) :
  spares rank b m -> (forall x, spares rank b (k x)) -> spares rank b (bind m k).
Proof.
  intros Hm Hk w r w' Hac H. unfold bind in H.
  destruct (m w) as [[x|e|] w1] eqn:E.
  - destruct (Hm _ _ _ Hac E) as [Hac1 H1].
    destruct (Hk x _ _ _ Hac1 H) as [Hac2 H2].
    split; [exact Hac2|]. now rewrite H2, H1.
  - injection H as _ <-. eapply Hm; eauto.
  - injection H as _ <-. eapply Hm; eauto.
Qed.

(** X14. In an acyclic store a tick stays below the node it is called on:
    it leaves alone every node that ranks below that node, its parents
    among them, and leaves the store acyclic; and the tick of an Action,
    an Inverter or a Parallel leaves that node itself as it was, so that
    only the sequential composites carry anything from one tick to the
    next. *)
Theorem tick_stays_below (rank : addr -> nat) fuel this w r w' :
  acyclic_by rank w -> tick fuel this w = (r, w') ->
  acyclic_by rank w' /\
  (forall b, (rank b < rank this)%nat -> heap w' !! b = heap w !! b) /\
  (forall obj,
     heap w !! this = Some obj -> fields obj = None ->
     heap w' !! this = Some obj).
Proof.
  intros Hac H.
  destruct (above_run rank fuel (Tick this) w r w' Hac H) as [Hac' Hb].
  split; [exact Hac'|]. split; [exact Hb|].
  intros obj Hobj Hf. destruct fuel as [|fuel].
  { injection H as _ <-. exact Hobj. }
  unfold tick in H. rewrite run_S in H. unfold dispatch in H.
  rewrite (bind_run _ _ _ _ _ (deref_some _ _ _ Hobj)) in H.
  assert (Hkids : forall child,
            child ∈ kids obj -> spares rank this (run (Payload := Payload) fuel (Tick child))).
  { intros child Hin. apply (spares_of_above rank child); [apply (above_run rank fuel (Tick child))|].
    eapply Hac; eauto. }
  rewrite <- Hobj.
  assert (Hsp : spares rank this
    match obj with
    | ActionNode _ fn => ActionNode_tick (callable fn)
    | InverterNode _ childNode =>
        InverterNode_tick (fun child => run fuel (Tick child)) childNode
    | ParallelNode _ requiredToFail requiredToSucceed children =>
        ParallelNode_tick (fun child => run_async fuel (Tick child))
          requiredToFail requiredToSucceed children
    | SelectorNode _ => SelectorNode_tick (fun node => run fuel (DoWhile node)) this
    | RepeatNode _ => RepeatNode_tick (fun node => run fuel (DoWhile node)) this
    | UntilFailNode _ => UntilFailNode_tick (fun node => run fuel (DoWhile node)) this
    | SequenceNode _ => SequenceNode_tick (fun node => run fuel (DoWhile node)) this
    end).
  { destruct obj as [nm fn|nm childNode|nm rf rs cs| | | |]; try discriminate;
      simpl in Hkids.
    - apply spares_bind.
      + apply spares_pure. intros w0 r0 w0' H0. unfold invoke in H0.
        destruct (callable fn (sd w0)) as [[res|e] t]; now injection H0 as _ <-.
      + intros [s|]; apply spares_pure; intros w0 r0 w0' H0; now injection H0 as _ <-.
    - destruct childNode as [child|]; simpl in *.
      + apply spares_bind; [apply Hkids; left|]. intros s.
        destruct (decide (s = Failure)); [apply spares_ret|].
        destruct (decide (s = Success)); apply spares_ret.
      + apply spares_pure. intros w0 r0 w0' H0. now injection H0 as _ <-.
    - intros w0 r0 w0' Hac0 H0.
      assert (Hp : keeps_call (acyclic_by rank)
                     (fun w w' =>
                        forall b, (rank b < S (rank this))%nat ->
                                  heap w' !! b = heap w !! b)
                     (ParallelNode_tick (fun child => run_async fuel (Tick child))
                        rf rs cs)).
      { apply keeps_call_ParallelNode_tick.
        - now intros w1 b _.
        - intros w1 w2 w3 H12 H23 b Hlt. now rewrite H23, H12.
        - intros child Hin. apply above_run_async. simpl.
          pose proof (Hac this _ child Hobj Hin). lia. }
      destruct (Hp _ _ _ Hac0 H0) as [Hac1 Hf1]. split; [exact Hac1|].
      apply Hf1. lia. }
  exact (proj2 (Hsp _ _ _ Hac H)).
Qed.

(** X15. A Parallel without children returns Running, whatever its
    thresholds. A Parallel returns Success only if requiredToSucceed is
    positive and no more than the number of its children, and Failure
    only if requiredToFail is: a threshold of 0 or less, or one above the
    number of children, rules its outcome out for good. *)
Theorem parallel_quota_within_children this w name requiredToFail requiredToSucceed cs :
  heap w !! this = Some (ParallelNode name requiredToFail requiredToSucceed cs) ->
  (cs = [] -> forall n, tick (S n) this w = (Returns Running, w)) /\
  (forall n s w',
     tick n this w = (Returns s, w') ->
     (s = Success ->
      0 < requiredToSucceed /\ requiredToSucceed <= Z.of_nat (length cs)) /\
     (s = Failure ->
      0 < requiredToFail /\ requiredToFail <= Z.of_nat (length cs))).
Proof.
  intros Hobj. split.
  - intros -> n. unfold tick. rewrite run_S. unfold dispatch.
    rewrite (bind_run _ _ _ _ _ (deref_some _ _ _ Hobj)).
    change (ParallelNode_tick _ requiredToFail requiredToSucceed [] w)
      with (Returns (ParallelNode_verdict requiredToFail requiredToSucceed []), w).
    f_equal. f_equal. unfold ParallelNode_verdict. rewrite !filter_nil.
    repeat case_bool_decide; simpl in *; try reflexivity; lia.
  - intros [|n] s w' H; [discriminate|].
    unfold tick in H. rewrite run_S in H. unfold dispatch in H.
    rewrite (bind_run _ _ _ _ _ (deref_some _ _ _ Hobj)) in H.
    destruct (parallel_tick_settles _ _ _ _ _ _ _ H) as (ss & Hm & ->).
    pose proof (length_filter (fun x => x = Success) ss) as Hs.
    pose proof (length_filter (fun x => x = Failure) ss) as Hf.
    unfold ParallelNode_verdict.
    repeat case_bool_decide; simpl; split; intros; try discriminate; lia.
Qed.

(** X16. A node that does not keep its state forgets where it was: with
    keepState false, the tick of a sequential composite is the same
    wherever its cursor was left, in what it returns and in the store it
    leaves. *)
Theorem unkept_cursor_is_forgotten K this w obj c k n :
  heap w !! this = Some obj -> kind_of obj = Some K -> fields obj = Some c ->
  keepState c = false ->
  tick (S n) this (at_cursor this k w) = tick (S n) this w.
Proof.
  intros Hobj HK Hc Hks.
  pose proof (lookup_at_cursor _ _ _ k Hobj) as Hobj'.
  pose proof (fields_put_cursor _ _ k Hc) as Hc'.
  assert (HK' : kind_of (put_cursor k obj) = Some K) by now rewrite kind_of_put_cursor.
  unfold tick. rewrite !run_S.
  rewrite (dispatch_tick _ _ _ _ _ _ K _ Hobj' HK' Hc').
  rewrite (dispatch_tick _ _ _ _ _ _ K _ Hobj HK Hc).
  assert (He : entry c = 0%nat).
  { unfold entry. rewrite Hks. now destruct (enumerator c). }
  unfold entry at 1 2 3. cbn [enumerator keepState children]. rewrite Hks, He.
  now rewrite at_cursor_at_cursor.
Qed.

Lemma iterator_next_run w this obj c k :
  heap w !! this = Some obj -> fields obj = Some c ->
  enumerator c = Some {| currentIndex := k |} ->
  (k < length (children c))%nat ->
  iterator_next this w =
    (Returns (Yield (children c !! k)),
     at_cursor this (Nat.min (S k) (length (children c) - 1)) w).
Proof.
  intros Hobj Hc He Hk. unfold iterator_next.
  rewrite (bind_run _ _ _ _ _ (get_fields_some _ _ _ _ Hobj Hc)).
  rewrite (bind_run _ _ _ _ _ (get_enumerator_run _ _ _ _ _ Hobj Hc He)).
  cbn [currentIndex]. rewrite bool_decide_eq_true_2 by exact Hk.
  rewrite (bind_run _ _ _ _ _ (current_run _ _ _ _ _ Hobj Hc He)).
  unfold bind at 1. rewrite (next_run _ _ _ _ _ Hobj Hc He). cbn [currentIndex].
  destruct (children c !! S k) as [x|] eqn:Hnext.
  - apply lookup_lt_Some in Hnext. unfold ret. do 2 f_equal. lia.
  - apply lookup_ge_None in Hnext. unfold ret. f_equal.
    replace (Nat.min (S k) (length (children c) - 1)) with k by lia.
    symmetry. eapply at_cursor_same; eauto.
Qed.

Lemma iterator_from_cursor w this obj c :
  heap w !! this = Some obj -> fields obj = Some c ->
  forall n k,
    (k < length (children c))%nat ->
    mapM (fun _ : unit => iterator_next this) (replicate n tt) (at_cursor this k w) =
      (Returns (map (fun i => Yield (children c !! Nat.min (k + i) (length (children c) - 1)))
                    (seq 0 n)),
       at_cursor this (Nat.min (k + n) (length (children c) - 1)) w).
Proof.
  intros Hobj Hc. induction n as [|n IH]; intros k Hk.
  - simpl. unfold ret. do 2 f_equal. lia.
  - cbn [replicate mapM].
    pose proof (lookup_at_cursor _ _ _ k Hobj) as Hobj'.
    pose proof (fields_put_cursor _ _ k Hc) as Hc'.
    erewrite bind_run.
    2:{ eapply iterator_next_run; [exact Hobj'|exact Hc'|reflexivity|exact Hk]. }
    cbn [children]. rewrite at_cursor_at_cursor.
    erewrite bind_run by (apply IH; lia).
    unfold ret. f_equal.
    + f_equal. cbn [seq map]. f_equal.
      * do 2 f_equal. lia.
      * rewrite <- seq_shift, map_map. apply map_ext. intros i. do 2 f_equal. lia.
    + f_equal. lia.
Qed.

(** X17. The iterator of the cursor never ends once it has a child to give:
    with the cursor on child k of a node, any number of calls of its
    [next] all answer with a value, the first with child k, each further
    one with the child after, and from the last child on with the last
    child again and again; none answers done. Only with the cursor past
    the children, as it is when there are none, does a call answer done,
    and then it leaves the cursor alone. *)
Theorem iterator_never_ends w this obj c k :
  heap w !! this = Some obj -> fields obj = Some c ->
  enumerator c = Some {| currentIndex := k |} ->
  ((k < length (children c))%nat ->
   forall n,
     mapM (fun _ : unit => iterator_next this) (replicate n tt) w =
       (Returns (map (fun i => Yield (children c !! Nat.min (k + i) (length (children c) - 1)))
                     (seq 0 n)),
        at_cursor this (Nat.min (k + n) (length (children c) - 1)) w)) /\
  ((length (children c) <= k)%nat -> iterator_next this w = (Returns Done, w)).
Proof.
  intros Hobj Hc He. split.
  - intros Hk n.
    rewrite <- (at_cursor_same _ _ _ _ _ Hobj Hc He) at 1.
    now apply (iterator_from_cursor _ _ obj).
  - intros Hk. unfold iterator_next.
    rewrite (bind_run _ _ _ _ _ (get_fields_some _ _ _ _ Hobj Hc)).
    rewrite (bind_run _ _ _ _ _ (get_enumerator_run _ _ _ _ _ Hobj Hc He)).
    cbn [currentIndex]. rewrite bool_decide_eq_false_2 by lia. reflexivity.
Qed.

Lemma range_pure {A} (m : Call Payload A) :
  (forall w r w', m w = (r, w') -> heap w' = heap w) -> keeps_range m.
Proof. intros Hm w r w' Hin H. apply Hm in H. unfold in_range. now rewrite H. Qed.

Lemma range_ret {A} (a : A) : keeps_range (Payload := Payload) (ret a).
Proof. apply range_pure. intros w r w' H. now injection H as _ <-. Qed.

Lemma range_throw {A} e : keeps_range (Payload := Payload) (A := A) (throw e).
Proof. apply range_pure. intros w r w' H. now injection H as _ <-. Qed.

Lemma range_diverge {A} : keeps_range (Payload := Payload) (A := A) diverge.
Proof. apply range_pure. intros w r w' H. now injection H as _ <-. Qed.

Lemma range_bind {A B} (m : Call Payload A) (k : A -> Call Payload B) :
  keeps_range m -> (forall a, keeps_range (k a)) -> keeps_range (bind m k).
Proof.
  intros Hm Hk w r w' Hin H. unfold bind in H.
  destruct (m w) as [[a|e|] w1] eqn:E.
  - eapply Hk; [eapply Hm|]; eauto.
  - injection H as _ <-. eapply Hm; eauto.
  - injection H as _ <-. eapply Hm; eauto.
Qed.

Lemma range_deref a : keeps_range (Payload := Payload) (deref a).
Proof.
  apply range_pure. intros w r w' H. unfold deref in H.
  destruct (heap w !! a); now injection H as _ <-.
Qed.

Lemma range_invoke fn : keeps_range (Payload := Payload) (invoke fn).
Proof.
  apply range_pure. intros w r w' H. unfold invoke in H.
  destruct (fn (sd w)) as [[res|e] s]; now injection H as _ <-.
Qed.

Lemma range_get_fields this : keeps_range (Payload := Payload) (get_fields this).
Proof.
  unfold get_fields. apply range_bind; [apply range_deref|]. intros obj.
  destruct (fields obj); [apply range_ret|apply range_throw].
Qed.

Lemma range_get_enumerator this : keeps_range (Payload := Payload) (get_enumerator this).
Proof.
  unfold get_enumerator. apply range_bind; [apply range_get_fields|]. intros c.
  destruct (enumerator c); [apply range_ret|apply range_throw].
Qed.

Lemma range_current this : keeps_range (Payload := Payload) (current this).
Proof.
  unfold current. apply range_bind; [apply range_get_fields|]. intros c.
  apply range_bind; [apply range_get_enumerator|]. intros e. apply range_ret.
Qed.

Lemma range_hasNext this : keeps_range (Payload := Payload) (hasNext this).
Proof.
  unfold hasNext. apply range_bind; [apply range_get_fields|]. intros c.
  apply range_bind; [apply range_get_enumerator|]. intros e. apply range_ret.
Qed.

(** Writing a cursor that is in range keeps the cursors in range. *)
Lemma range_set_enumerator this k w r w' :
  (forall obj c,
     heap w !! this = Some obj -> fields obj = Some c ->
     k = 0%nat \/ (k < length (children c))%nat) ->
  in_range w ->
  set_enumerator this (Some {| currentIndex := k |}) w = (r, w') -> in_range w'.
Proof.
  intros Hk Hin H.
  destruct (heap w !! this) as [obj|] eqn:Hobj.
  2:{ unfold set_enumerator, bind, deref in H. rewrite Hobj in H.
      now injection H as _ <-. }
  destruct (fields obj) as [c|] eqn:Hc.
  2:{ unfold set_enumerator in H.
      rewrite (bind_run _ _ _ _ _ (deref_some _ _ _ Hobj)) in H.
      assert (Hg : get_fields this w = (Throws TypeError, w)).
      { unfold get_fields. rewrite (bind_run _ _ _ _ _ (deref_some _ _ _ Hobj)).
        now rewrite Hc. }
      rewrite (bind_run _ _ _ _ _ Hg) in H. now injection H as _ <-. }
  rewrite (set_enumerator_run _ _ _ _ _ Hobj Hc) in H. injection H as _ <-.
  rewrite (at_cursor_eq _ _ _ _ Hobj). unfold in_range. cbn [heap].
  apply Forall_insert; [exact Hin|].
  unfold in_range_node. rewrite (fields_put_cursor _ _ _ Hc). cbn.
  eapply Hk; eauto.
Qed.

Lemma range_init this : keeps_range (Payload := Payload) (init this).
Proof.
  intros w r w' Hin H. unfold init in H.
  eapply range_set_enumerator; [|exact Hin|exact H]. now left.
Qed.

Lemma range_reset this : keeps_range (Payload := Payload) (reset this).
Proof.
  unfold reset. apply range_bind; [apply range_get_enumerator|]. intros e.
  intros w r w' Hin H.
  eapply range_set_enumerator; [|exact Hin|exact H]. now left.
Qed.

Lemma next_fails w this : cursor w this = None -> next this w = (Throws TypeError, w).
Proof.
  unfold cursor. intros H.
  unfold next, hasNext, get_enumerator, get_fields, bind, deref.
  destruct (heap w !! this) as [obj|] eqn:Hobj; rewrite ?Hobj; [|reflexivity]. cbn.
  destruct (fields obj) as [c|] eqn:Hc; rewrite ?Hc; [|reflexivity]. cbn.
  rewrite ?Hobj. cbn. rewrite ?Hc. cbn.
  destruct (enumerator c) eqn:He; [discriminate|reflexivity].
Qed.

(** [next] moves the cursor only onto a child that is there. *)
Lemma range_next this : keeps_range (Payload := Payload) (next this).
Proof.
  intros w r w' Hin H.
  destruct (cursor w this) as [k|] eqn:Hcur.
  2:{ rewrite (next_fails _ _ Hcur) in H. now injection H as _ <-. }
  unfold cursor in Hcur.
  destruct (heap w !! this) as [obj|] eqn:Hobj; [|discriminate].
  destruct (fields obj) as [c|] eqn:Hc; [|discriminate].
  destruct (enumerator c) as [e|] eqn:He; [|discriminate].
  rewrite (next_run _ _ _ _ _ Hobj Hc He) in H.
  destruct (children c !! S (currentIndex e)) as [x|] eqn:Hnext;
    injection H as _ <-; [|exact Hin].
  rewrite (at_cursor_eq _ _ _ _ Hobj). unfold in_range. cbn [heap].
  apply Forall_insert; [exact Hin|].
  unfold in_range_node. rewrite (fields_put_cursor _ _ _ Hc). cbn.
  right. eapply lookup_lt_Some; eauto.
Qed.

Ltac range_step :=
  first
    [ apply range_ret | apply range_throw | apply range_diverge
    | apply range_deref | apply range_get_fields | apply range_current
    | apply range_init | apply range_reset | apply range_next | apply range_invoke
    | apply range_bind; [|intros ?]
    | match goal with
      | H : forall a, keeps_range _ |- _ => apply H
      | |- keeps_range (match ?x with _ => _ end) => destruct x
      | |- keeps_range (if ?x then _ else _) => destruct x
      end ].

Lemma range_keeps {A} (m : Call Payload A) :
  keeps_range m -> keeps_call in_range (fun _ _ => True) m.
Proof. intros Hm w r w' Hin H. split; [|exact I]. eapply Hm; eauto. Qed.

(** Every job of a tick keeps the cursors in range. *)
Lemma range_run_async fuel e :
  keeps_spawn in_range (fun _ _ => True) (run_async (Payload := Payload) fuel e).
Proof.
  apply (keeps_spawn_run in_range (fun _ _ => True) (fun _ => True));
    try (intros; exact I).
  - intros w t Hin. now split.
  - intros this _. apply range_keeps, range_init.
  - intros this _. apply range_keeps, range_reset.
  - intros this _. apply range_keeps, range_next.
Qed.

Lemma range_dispatch (tk lp : addr -> Call Payload BehaviorTreeStatus) sp e :
  (forall a, keeps_range (tk a)) -> (forall a, keeps_range (lp a)) ->
  (forall a, keeps_spawn in_range (fun _ _ => True) (sp a)) ->
  keeps_range (dispatch tk lp sp e).
Proof.
  intros Ht Hl Hs. destruct e as [this|this]; unfold dispatch.
  - apply range_bind; [apply range_deref|]. intros obj.
    destruct obj as [nm fn|nm ch|nm rf rs cs| | | |];
      try (unfold ActionNode_tick, InverterNode_tick, SelectorNode_tick,
             RepeatNode_tick, UntilFailNode_tick, SequenceNode_tick,
             init_unless_kept;
           repeat range_step; fail).
    assert (Hp : keeps_call in_range (fun _ _ => True) (ParallelNode_tick sp rf rs cs))
      by (apply keeps_call_ParallelNode_tick; auto).
    intros w r w' Hin H. exact (proj1 (Hp _ _ _ Hin H)).
  - apply range_bind; [apply range_deref|]. intros obj.
    destruct obj;
      unfold SelectorNode_do_while, RepeatNode_do_while, UntilFailNode_do_while,
        SequenceNode_do_while, tick_current;
      repeat range_step.
Qed.

Lemma range_run fuel : forall e, keeps_range (run (Payload := Payload) fuel e).
Proof.
  induction fuel as [|fuel IH]; intros e.
  - apply range_diverge.
  - rewrite run_S. apply range_dispatch; intros a;
      [apply IH..|apply range_run_async].
Qed.

(** X18. The cursor never leaves the children: if the cursor of every node
    is on one of its children, or on 0, before a tick, as it is in any
    tree that was just built, then so it is after the tick, however the
    tick completes; the cursor of a node that has children is then always
    on one of them. *)
Theorem tick_keeps_cursors_in_range fuel this w r w' :
  in_range w -> tick fuel this w = (r, w') ->
  in_range w' /\
  forall a obj c e,
    heap w' !! a = Some obj -> fields obj = Some c -> enumerator c = Some e ->
    children c <> [] -> is_Some (children c !! currentIndex e).
Proof.
  intros Hin H. apply range_run in H; [|exact Hin]. split; [exact H|].
  intros a obj c e Hobj Hc He Hne.
  apply list_elem_of_lookup_2 in Hobj.
  unfold in_range in H. rewrite Forall_forall in H. specialize (H _ Hobj).
  unfold in_range_node in H. rewrite Hc, He in H.
  apply lookup_lt_is_Some. destruct (children c); [congruence|]. simpl in *. lia.
Qed.

End Ticking.

(** * Further properties: every tick settles *)

Section Settling.

Context {Payload : Type}.
Variable rank : addr -> nat.
Variables B L : nat.
Variable under : addr -> bool.
Implicit Types (w : World Payload) (obj : NodeObj Payload) (c : Composite).









(** ** Promises that settle whatever the other jobs do *)














End Settling.

(** * Further properties: the builder only appends *)

Section Appending.

Context {Payload : Type}.
Implicit Types (w : World Payload) (obj : NodeObj Payload) (b : BehaviorTreeBuilder).

Lemma with_kids_same obj : with_kids obj (kids obj ++ []) = obj.
Proof.
  rewrite app_nil_r.
  destruct obj as [| nm [child|] | | c | c | c | c]; try reflexivity;
    now destruct c.
Qed.

Lemma with_kids_more obj ks ks' :
  with_kids (with_kids obj (kids obj ++ ks))
            (kids (with_kids obj (kids obj ++ ks)) ++ ks') =
  with_kids obj (kids obj ++ (ks ++ ks')).
Proof.
  destruct obj as [| nm [child|] | | c | c | c | c]; simpl;
    rewrite ?app_assoc; try reflexivity.
  destruct ks; reflexivity.
Qed.

Lemma grows_refl w : grows w w.
Proof.
  split; [reflexivity|]. intros a obj Hobj. exists []. now rewrite with_kids_same.
Qed.

Lemma grows_trans w1 w2 w3 : grows w1 w2 -> grows w2 w3 -> grows w1 w3.
Proof.
  intros [Hs12 H12] [Hs23 H23]. split; [congruence|]. intros a obj Hobj.
  destruct (H12 _ _ Hobj) as [ks Hks]. destruct (H23 _ _ Hks) as [ks' Hks'].
  exists (ks ++ ks'). now rewrite Hks', with_kids_more.
Qed.

Lemma appends_ret {A} (a : A) : appends (Payload := Payload) (ret a).
Proof. intros w r w' H. injection H as _ <-. apply grows_refl. Qed.

Lemma appends_throw {A} e : appends (Payload := Payload) (A := A) (throw e).
Proof. intros w r w' H. injection H as _ <-. apply grows_refl. Qed.

Lemma appends_lift {A} (x : Thrown + A) : appends (Payload := Payload) (lift x).
Proof. destruct x; [apply appends_throw|apply appends_ret]. Qed.

Lemma appends_bind {A T} (m : Call Payload A) (k : A -> Call Payload T) :
  appends m -> (forall a, appends (k a)) -> appends (bind m k).
Proof.
  intros Hm Hk w r w' H. unfold bind in H.
  destruct (m w) as [[a|e|] w1] eqn:E.
  - eapply grows_trans; [eapply Hm|eapply Hk]; eauto.
  - injection H as _ <-. eapply Hm; eauto.
  - injection H as _ <-. eapply Hm; eauto.
Qed.

Lemma appends_alloc (node : NodeObj Payload) : appends (alloc node).
Proof.
  intros w r w' H. injection H as _ <-. split; [reflexivity|].
  intros a obj Hobj. exists []. rewrite with_kids_same. cbn [heap].
  rewrite lookup_app_l; [exact Hobj|]. eapply lookup_lt_Some; eauto.
Qed.

Lemma appends_addChild parent child : appends (Payload := Payload) (addChild parent child).
Proof.
  intros w r w' H. destruct r as [[]|e|].
  - apply addChild_returns in H as (obj & Hobj & Hacc & ->).
    split; [reflexivity|]. intros a obj' Hobj'. cbn [heap].
    destruct (decide (a = parent)) as [->|Hne].
    + rewrite Hobj in Hobj'. injection Hobj' as <-. exists [child].
      apply list_lookup_insert_eq. eapply lookup_lt_Some; eauto.
    + exists []. rewrite with_kids_same. now rewrite list_lookup_insert_ne.
  - assert (w' = w) as ->; [|apply grows_refl].
    unfold addChild, bind, deref in H.
    destruct (heap w !! parent) as [[| nm [c|] | | | | |]|];
      simpl in H; unfold store, throw in H; congruence.
  - unfold addChild, bind, deref in H.
    destruct (heap w !! parent) as [[| nm [c|] | | | | |]|];
      simpl in H; unfold store, throw in H; congruence.
Qed.

Ltac appends_step :=
  first
    [ apply appends_ret | apply appends_throw | apply appends_lift
    | apply appends_alloc | apply appends_addChild
    | apply appends_bind; [|intros ?]
    | match goal with
      | |- appends (if ?x then _ else _) => destruct x
      end ].

Lemma appends_call (m : Method) b : appends (Payload := Payload) (call m b).
Proof.
  destruct m; simpl;
    unfold condition, do, inverter, sequence, parallel, selector, bundle_selector,
      repeat, untilFail, splice, end_, addParentNode, new_ActionNode,
      new_InverterNode, new_SequenceNode, new_ParallelNode, new_SelectorNode,
      new_RepeatNode, new_UntilFailNode;
    repeat appends_step.
Qed.

(** X20. The builder only appends: whatever calls are made on a builder,
    and however the chain completes, the user's state is untouched, and
    every node that was in the store is still there, the node it was, with
    the children it had in the order they were in and, after them, those
    that were added to it, if any; no node is dropped, replaced or
    reordered. *)
Theorem builder_only_appends (ms : list Method) : forall b w r w',
  chain (Payload := Payload) ms b w = (r, w') ->
  sd w' = sd w /\
  forall a obj,
    heap w !! a = Some obj ->
    exists ks, heap w' !! a = Some (with_kids obj (kids obj ++ ks)).
Proof.
  induction ms as [|m ms IH]; intros b w r w' H; simpl in H.
  - injection H as _ <-. apply grows_refl.
  - unfold bind in H. destruct (call m b w) as [[b1|e|] w1] eqn:E.
    + apply (grows_trans w w1 w'); [eapply appends_call; eauto|].
      exact (IH _ _ _ _ H).
    + injection H as _ <-. eapply appends_call; eauto.
    + injection H as _ <-. eapply appends_call; eauto.
Qed.

End Appending.

(** * The further properties on sample trees *)

Lemma over_acyclic K keepState fs : acyclic_by (fun a => a) (over K keepState fs).
Proof.
  intros [|a] obj child Hobj Hin; simpl in Hobj.
  - injection Hobj as <-. destruct K; simpl in Hin; apply elem_of_seq in Hin; lia.
  - apply list_elem_of_lookup_2, list_elem_of_In in Hobj. unfold leaves in Hobj.
    apply in_map_iff in Hobj as (fn & <- & _). now apply elem_of_nil in Hin.
Qed.


Lemma leaf_is_appended_to_open_node_witness :
  do "a" (leaf 1 Success) open_root (over Sequence true []) =
    (Returns open_root,
     world [SequenceNode {| name := "root"; keepState := true;
                            children := [1%nat]; enumerator := None |};
            ActionNode "a" (leaf 1 Success)]) /\
  splice 7%nat open_root (over Sequence true []) =
    (Returns open_root,
     world [SequenceNode {| name := "root"; keepState := true;
                            children := [7%nat]; enumerator := None |}]).
Proof.
  exact (leaf_is_appended_to_open_node "a" (leaf 1 Success) 7%nat open_root
           (over Sequence true []) 0%nat (composite Sequence (root true 0 None))
           eq_refl eq_refl eq_refl).
Defined.

Lemma opened_node_is_appended_and_pushed_witness :
  exists node : NodeObj (list nat),
    kids node = [] /\
    call (OpenSequence "s" None) new_BehaviorTreeBuilder (world []) =
      (Returns open_root, world [node]) /\
    call (OpenSequence "s" None) open_root (over Selector true []) =
      (Returns {| curNode := None;
                  parentNodeStack := Stack.push 1%nat (Stack.push 0%nat Stack.new) |},
       world [SelectorNode {| name := "root"; keepState := true;
                              children := [1%nat]; enumerator := None |};
              node]).
Proof.
  destruct (opened_node_is_appended_and_pushed (Payload := list nat)
              (OpenSequence "s" None) new_BehaviorTreeBuilder (world []) eq_refl)
    as (node & Hk & H & _).
  exists node. split; [exact Hk|]. split; [exact (H eq_refl)|].
  specialize (H eq_refl). injection H as <-. reflexivity.
Defined.

Lemma inverter_refuses_second_child_witness :
  exists w',
    call (AddAction "a" (leaf 1 Success)) open_root inverted_boom =
      (Throws (BehaviorTreeError "Can't add more than a single child to InverterNode!"),
       w') /\
    heap w' !! 0%nat = Some (InverterNode "not" (Some 1%nat)) /\
    sd w' = sd inverted_boom.
Proof.
  exact (inverter_refuses_second_child (AddAction "a" (leaf 1 Success)) open_root
           inverted_boom 0%nat "not" 1%nat eq_refl eq_refl eq_refl).
Defined.

Lemma calls_outside_a_parent_throw_witness :
  do "a" (leaf 1 Success) new_BehaviorTreeBuilder (world []) =
    (Throws (BehaviorTreeError
               "Can't create an unnested ActionNode. It must be a leaf node."),
     world []) /\
  condition "c" untouched new_BehaviorTreeBuilder (world []) =
    (Throws (BehaviorTreeError
               "Can't create an unnested ActionNode. It must be a leaf node."),
     world []) /\
  splice 7%nat new_BehaviorTreeBuilder (world []) =
    (Throws (BehaviorTreeError
               "Cannot splice an unnested sub-tree. There must be a parent-tree."),
     world []) /\
  end_ new_BehaviorTreeBuilder (world []) = (Throws TypeError, world []).
Proof.
  exact (calls_outside_a_parent_throw "a" (leaf 1 Success) untouched 7%nat
           new_BehaviorTreeBuilder (world []) eq_refl).
Defined.

Lemma end_closes_what_was_opened_witness :
  end_ open_root (world [SequenceNode (new_Composite "s" (Some true))]) =
    (Returns {| curNode := Some 0%nat; parentNodeStack := Stack.new |},
     world [SequenceNode (new_Composite "s" (Some true))]).
Proof.
  exact (end_closes_what_was_opened (OpenSequence "s" None) new_BehaviorTreeBuilder
           (world []) open_root
           (world [SequenceNode (new_Composite "s" (Some true))]) eq_refl eq_refl).
Defined.

Lemma build_returns_last_closed_witness :
  exists b2 w2,
    chain [OpenInverter "not"; AddAction "a" (leaf 1 Success)]
      {| curNode := Some 0%nat; parentNodeStack := Stack.new |}
      (over Sequence true []) = (Returns b2, w2) /\
    build b2 w2 = (Returns 0%nat, w2).
Proof.
  destruct (build_returns_last_closed open_root (over Sequence true [])
              {| curNode := Some 0%nat; parentNodeStack := Stack.new |}
              (over Sequence true []) eq_refl)
    as (top & Hpeek & _ & Hcur & H).
  injection Hcur as <-.
  eexists _, _. split; [reflexivity|].
  refine (H [OpenInverter "not"; AddAction "a" (leaf 1 Success)] _ _ eq_refl eq_refl).
Defined.

Lemma condition_maps_booleans_witness :
  condition "c" untouched open_root (over Sequence true []) =
    (Returns open_root, checked) /\
  tick 1 1%nat checked = (Returns Success, checked) /\
  tick 1 1%nat (logged (heap checked) [5%nat]) =
    (Returns Failure, logged (heap checked) [5%nat]).
Proof.
  destruct (condition_maps_booleans "c" untouched open_root (over Sequence true [])
              open_root checked eq_refl) as (fn & Hfn & H).
  split; [reflexivity|]. split.
  - exact (H 0%nat 1%nat checked Hfn).
  - exact (H 0%nat 1%nat (logged (heap checked) [5%nat]) Hfn).
Defined.

Lemma action_tick_checks_result_witness :
  tick 1 1%nat (over Sequence true just_run) =
    (Returns Running, logged (heap (over Sequence true just_run)) [1%nat]) /\
  tick 1 1%nat inverted_boom =
    (Throws (UserError "boom"), logged (heap inverted_boom) [1%nat]).
Proof.
  split.
  - exact (action_tick_checks_result 1%nat (over Sequence true just_run) "leaf"
             (leaf 1 Running) 0%nat eq_refl).
  - exact (action_tick_checks_result 1%nat inverted_boom "leaf" (boom 1) 0%nat eq_refl).
Defined.

Lemma inverter_inverts_witness :
  tick 1 0%nat (world [InverterNode "not" None]) =
    (Throws (BehaviorTreeError "InverterNode must have a child node!"),
     world [InverterNode "not" None]) /\
  tick 2 1%nat twice_inverted =
    (Returns Failure, logged (heap twice_inverted) [2%nat]) /\
  tick 2 0%nat inverted_boom =
    (Throws (UserError "boom"), logged (heap inverted_boom) [1%nat]).
Proof.
  split; [|split].
  - exact (proj1 (inverter_inverts 0%nat (world [InverterNode "not" None]) "not")
             eq_refl 0%nat).
  - refine (proj2 (inverter_inverts 1%nat twice_inverted "not")
              2%nat 1%nat (Returns Success) _ 2%nat eq_refl eq_refl _ _);
      [discriminate|lia].
  - refine (proj2 (inverter_inverts 0%nat inverted_boom "not")
              1%nat 1%nat (Throws (UserError "boom")) _ 2%nat eq_refl eq_refl _ _);
      [discriminate|lia].
Defined.

Lemma inverter_twice_is_identity_witness :
  tick 1 2%nat twice_inverted =
    (Returns Success, logged (heap twice_inverted) [2%nat]) /\
  tick 3 0%nat twice_inverted =
    (Returns Success, logged (heap twice_inverted) [2%nat]).
Proof.
  split; [reflexivity|].
  refine (inverter_twice_is_identity 0%nat 1%nat 2%nat twice_inverted "not" "not"
            1%nat (Returns Success) _ 3%nat eq_refl eq_refl eq_refl _ _);
    [discriminate|lia].
Defined.

Lemma tick_writes_only_cursors_witness :
  tick 4 0%nat (over Sequence true succeed_then_run) =
    (Returns Running, later Sequence true succeed_then_run 1 [1; 2]%nat) /\
  length (heap (later Sequence true succeed_then_run 1 [1; 2]%nat)) = 3%nat /\
  forall a obj,
    heap (over Sequence true succeed_then_run) !! a = Some obj ->
    exists obj',
      heap (later Sequence true succeed_then_run 1 [1; 2]%nat) !! a = Some obj' /\
      erase obj' = erase obj.
Proof.
  split; [reflexivity|].
  exact (tick_writes_only_cursors 4%nat 0%nat (over Sequence true succeed_then_run)
           (Returns Running) (later Sequence true succeed_then_run 1 [1; 2]%nat)
           eq_refl).
Defined.

Lemma tick_stays_below_witness :
  tick 1 1%nat (over Sequence true succeed_then_run) =
    (Returns Success, logged (heap (over Sequence true succeed_then_run)) [1%nat]) /\
  heap (logged (heap (over Sequence true succeed_then_run)) [1%nat]) !! 0%nat =
    heap (over Sequence true succeed_then_run) !! 0%nat /\
  heap (logged (heap (over Sequence true succeed_then_run)) [1%nat]) !! 1%nat =
    Some (ActionNode "leaf" (leaf 1 Success)).
Proof.
  split; [reflexivity|].
  destruct (tick_stays_below (fun a => a) 1%nat 1%nat
              (over Sequence true succeed_then_run) (Returns Success)
              (logged (heap (over Sequence true succeed_then_run)) [1%nat])
              (over_acyclic _ _ _) eq_refl) as (_ & Hb & Hself).
  split; [apply Hb; lia|apply Hself; reflexivity].
Defined.

Lemma parallel_quota_within_children_witness :
  tick 1 0%nat (world [ParallelNode "p" 1 1 []]) =
    (Returns Running, world [ParallelNode "p" 1 1 []]) /\
  tick 2 0%nat race = (Returns Success, raced) /\
  0 < 2 /\ 2 <= 3.
Proof.
  split; [|split; [reflexivity|]].
  - exact (proj1 (parallel_quota_within_children 0%nat
                    (world [ParallelNode "p" 1 1 []]) "p" 1 1 [] eq_refl)
             eq_refl 0%nat).
  - exact (proj1 (proj2 (parallel_quota_within_children 0%nat race "race" 0 2
                           [1; 2; 3]%nat eq_refl)
                    2%nat Success raced eq_refl) eq_refl).
Defined.

Lemma unkept_cursor_is_forgotten_witness :
  tick 4 0%nat (later Sequence false succeed_then_run 1 []) =
    tick 4 0%nat (over Sequence false succeed_then_run).
Proof.
  exact (unkept_cursor_is_forgotten Sequence 0%nat (over Sequence false succeed_then_run)
           (composite Sequence (root false 2 None)) (root false 2 None) 1%nat 3%nat
           eq_refl eq_refl eq_refl eq_refl).
Defined.

Lemma iterator_never_ends_witness :
  mapM (fun _ : unit => iterator_next 0%nat) (replicate 4 tt)
    (later Sequence true succeed_then_run 0 []) =
    (Returns [Yield (Some 1%nat); Yield (Some 2%nat); Yield (Some 2%nat);
              Yield (Some 2%nat)],
     later Sequence true succeed_then_run 1 []) /\
  iterator_next 0%nat (later Sequence true [] 0 []) =
    (Returns Done, later Sequence true [] 0 []).
Proof.
  split.
  - refine (proj1 (iterator_never_ends (later Sequence true succeed_then_run 0 [])
                     0%nat (composite Sequence (root true 2 (Some 0%nat)))
                     (root true 2 (Some 0%nat)) 0%nat eq_refl eq_refl eq_refl)
              _ 4%nat).
    simpl. lia.
  - refine (proj2 (iterator_never_ends (later Sequence true [] 0 [])
                     0%nat (composite Sequence (root true 0 (Some 0%nat)))
                     (root true 0 (Some 0%nat)) 0%nat eq_refl eq_refl eq_refl) _).
    simpl. lia.
Defined.

Lemma tick_keeps_cursors_in_range_witness :
  in_range (over Sequence true succeed_then_run) /\
  in_range (later Sequence true succeed_then_run 1 [1; 2]%nat).
Proof.
  assert (Hin : in_range (over Sequence true succeed_then_run))
    by (repeat constructor).
  split; [exact Hin|].
  exact (proj1 (tick_keeps_cursors_in_range 4%nat 0%nat
                  (over Sequence true succeed_then_run) (Returns Running)
                  (later Sequence true succeed_then_run 1 [1; 2]%nat) Hin eq_refl)).
Defined.


(** Without the proviso X19 fails: sixteen children of a Parallel that
    are all the same Sequence of sixteen leaves keep each other's loops
    going, each reset of the cursor they share sending the others back
    to the first leaf, beyond the rounds that the bound allows for. *)
Lemma shared_loops_outrun_the_bound :
  acyclic_by (fun a => Nat.min a 2) (shared 16) /\
  bounded_by (fun a => Nat.min a 2) 2 16 (shared 16) /\
  (forall under, ~ calm under (shared 16)) /\
  (tick ((2 + 1) * (16 + 2) + 1) 0%nat (shared 16)).1 = OutOfFuel /\
  (tick 56 0%nat (shared 16)).1 = Returns Success.
Proof.
  split; [|split; [|split; [|split]]].
  - intros [|[|a]] obj child Hobj Hin; simpl in Hobj.
    + injection Hobj as <-. simpl in Hin.
      repeat (apply elem_of_cons in Hin as [->|Hin]; [simpl; lia|]).
      now apply elem_of_nil in Hin.
    + injection Hobj as <-. simpl in Hin.
      repeat (apply elem_of_cons in Hin as [->|Hin]; [simpl; lia|]).
      now apply elem_of_nil in Hin.
    + apply list_elem_of_lookup_2 in Hobj.
      repeat (apply elem_of_cons in Hobj as [->|Hobj];
              [now apply elem_of_nil in Hin|]).
      now apply elem_of_nil in Hobj.
  - intros a obj Hobj. split; [lia|].
    apply list_elem_of_lookup_2 in Hobj.
    repeat (apply elem_of_cons in Hobj as [->|Hobj]; [simpl; lia|]).
    now apply elem_of_nil in Hobj.
  - intros under Hc.
    destruct (Hc 0%nat _ eq_refl) as [_ H0].
    specialize (H0 (or_intror eq_refl) 1%nat ltac:(left)).
    destruct (Hc 1%nat _ eq_refl) as [H1 _]. now specialize (H1 H0).
  - vm_compute. reflexivity.
  - vm_compute. reflexivity.
Qed.

Lemma builder_only_appends_witness :
  chain [AddAction "a" (leaf 1 Success); AddAction "b" (leaf 2 Success)] open_root
    (over Sequence true []) =
    (Returns open_root,
     world [SequenceNode {| name := "root"; keepState := true;
                            children := [1; 2]%nat; enumerator := None |};
            ActionNode "a" (leaf 1 Success); ActionNode "b" (leaf 2 Success)]) /\
  exists ks,
    heap (world [SequenceNode {| name := "root"; keepState := true;
                                 children := [1; 2]%nat; enumerator := None |};
                 ActionNode "a" (leaf 1 Success); ActionNode "b" (leaf 2 Success)])
      !! 0%nat =
    Some (with_kids (composite Sequence (root true 0 None))
            (kids (composite Sequence (root true 0 None)) ++ ks)).
Proof.
  split; [reflexivity|].
  exact (proj2 (builder_only_appends
                  [AddAction "a" (leaf 1 Success); AddAction "b" (leaf 2 Success)]
                  open_root (over Sequence true []) _ _ eq_refl)
           0%nat (composite Sequence (root true 0 None)) eq_refl).
Defined.
